(** * salpy: offset search aligning LiDAR footprints with a reference raster

    A shallow embedding of the Python package [salpy]
    ([position_adjustment], [extract_values], [get_loss], [perform_distance],
    [minimize_loss], [positional_correction], [linear_alignment]) and the
    properties of its loss pipeline, of its genetic search and of the
    alignment of shot groups.

    Conventions of the embedding.
    - A Python float is a value of [f64]: either [NaN] or a finite real.
      Arithmetic on finite values is the arithmetic of [R]: there is no
      rounding, and no infinity, so a result beyond the range of a double
      is the real number where the code has [inf].  The one overflow that
      changes the control flow, the ValueError of scipy's [euclidean], is
      modelled ([float_overflow]); statements about values are made for
      entries within [moderate_bound], where no overflow arises.
    - A [GeoDataFrame] is an object on a heap and is passed by reference;
      the functions run in a state-and-exception monad [M] whose state holds
      the heap and the state of Python's global [random] generator.
    - Calls into third-party libraries are embedded by their documented
      meaning (scipy, numpy, DEAP), or taken as parameters of a section
      where only their result matters (rasterio's [mask], pyproj's
      transformation, [dtw.dtw], the eigenvector of [np.linalg.eigh]). *)

From Stdlib Require Import Reals Lra Lia ZArith Bool.
From stdpp Require Import base option list strings gmap.

Local Open Scope R_scope.

(** ** Floats, exceptions, results *)

Inductive f64 : Type :=
  | NaN
  | Fin (r : R).

(** [np.isnan] *)
Definition isnan (v : f64) : bool :=
  match v with NaN => true | Fin _ => false end.

Definition flift2 (op : R -> R -> R) (a b : f64) : f64 :=
  match a, b with
  | Fin x, Fin y => Fin (op x y)
  | _, _ => NaN
  end.

Definition fadd : f64 -> f64 -> f64 := flift2 Rplus.
Definition fsub : f64 -> f64 -> f64 := flift2 Rminus.

Definition fabs (a : f64) : f64 :=
  match a with Fin x => Fin (Rabs x) | NaN => NaN end.

(** Division of numpy scalars: [0/0] is NaN.  A non-zero numerator over
    zero would be an infinity, which [f64] does not represent; it is NaN
    here as well. *)
Definition fdiv (a b : f64) : f64 :=
  match a, b with
  | Fin x, Fin y => if Req_dec_T y 0 then NaN else Fin (x / y)
  | _, _ => NaN
  end.

(** Boolean comparisons of reals, as Python's [<] and [>] on floats. *)
Definition Rltb (x y : R) : bool := if Rlt_dec x y then true else false.
Definition Rleb (x y : R) : bool := if Rle_dec x y then true else false.

(** Comparisons with NaN are false. *)
Definition fltb (a b : f64) : bool :=
  match a, b with
  | Fin x, Fin y => Rltb x y
  | _, _ => false
  end.

(** Python's builtin [max(a, b)]: the first argument unless the second is
    strictly greater. *)
Definition py_max (a b : f64) : f64 := if fltb a b then b else a.

Inductive exn : Type :=
  | TypeError (msg : string)
  | ValueError (msg : string)
  | IndexError (msg : string)
  | AttributeError (msg : string)
  | KeyError (key : string)
  | ReferenceError.

Inductive res (A : Type) : Type :=
  | Ok (a : A)
  | Raise (e : exn).
Arguments Ok {A} a.
Arguments Raise {A} e.

(** ** numpy arrays of floats *)

(** The finite entries of an array, when it has no NaN. *)
Fixpoint all_fin (a : list f64) : option (list R) :=
  match a with
  | [] => Some []
  | NaN :: _ => None
  | Fin x :: a' =>
      match all_fin a' with
      | Some u => Some (x :: u)
      | None => None
      end
  end.

(** Elementwise [a - b], [np.abs], [np.sum]. *)
Fixpoint np_sub (a b : list f64) : list f64 :=
  match a, b with
  | x :: a', y :: b' => fsub x y :: np_sub a' b'
  | _, _ => []
  end.

Definition np_abs (a : list f64) : list f64 := map fabs a.

Definition np_sum (a : list f64) : f64 := fold_left fadd a (Fin 0).

(** [~(np.isnan(a) | np.isnan(b))] *)
Fixpoint valid_mask (a b : list f64) : list bool :=
  match a, b with
  | x :: a', y :: b' => negb (isnan x || isnan y) :: valid_mask a' b'
  | _, _ => []
  end.

(** Boolean-mask indexing [a[mask]]. *)
Fixpoint compress (mask : list bool) (a : list f64) : list f64 :=
  match mask, a with
  | m :: mask', x :: a' =>
      if m then x :: compress mask' a' else compress mask' a'
  | _, _ => []
  end.

(** Sums and dot products of finite vectors. *)
Definition Rsum (u : list R) : R := fold_right Rplus 0 u.

Fixpoint dot (u v : list R) : R :=
  match u, v with
  | x :: u', y :: v' => x * y + dot u' v'
  | _, _ => 0
  end.

Definition np_mean (u : list R) : R := Rsum u / INR (length u).

(** ** scipy.spatial.distance *)

(** [euclidean(u, v)]: the 2-norm of [u - v]. *)
Fixpoint sq_diff_sum (u v : list R) : R :=
  match u, v with
  | x :: u', y :: v' => (x - y) * (x - y) + sq_diff_sum u' v'
  | _, _ => 0
  end.

Definition euclidean_R (u v : list R) : R := sqrt (sq_diff_sum u v).

(** The one place where the range of a double decides what the code does
    next.  A difference [x - y] of two doubles is rounded to an infinity
    when its magnitude reaches [2^1024 - 2^970], half a unit in the last
    place above the largest double. *)
Definition float_overflow : R := IZR (2 ^ 1024 - 2 ^ 970).

Definition overflows (x : R) : bool := Rleb float_overflow (Rabs x).

Fixpoint difference_overflows (u v : list R) : bool :=
  match u, v with
  | x :: u', y :: v' => overflows (x - y) || difference_overflows u' v'
  | _, _ => false
  end.

(** [cityblock(u, v)]: the sum of [|u_i - v_i|]. *)
Fixpoint cityblock_R (u v : list R) : R :=
  match u, v with
  | x :: u', y :: v' => Rabs (x - y) + cityblock_R u' v'
  | _, _ => 0
  end.

(** [np.clip(d, lo, hi)] *)
Definition np_clip (d : f64) (lo hi : R) : f64 :=
  match d with
  | NaN => NaN
  | Fin x => Fin (Rmax lo (Rmin hi x))
  end.

(** [correlation(u, v)]: the correlation *distance*
    [1 - (u - mean u).(v - mean v) / sqrt(|u - mean u|^2 |v - mean v|^2)],
    clipped to [[0, 2]]. *)
Definition center (u : list R) : list R :=
  let mu := np_mean u in map (fun x => x - mu) u.

Definition correlation_R (u v : list R) : f64 :=
  let u' := center u in
  let v' := center v in
  let uv := dot u' v' in
  let uu := dot u' u' in
  let vv := dot v' v' in
  np_clip (fsub (Fin 1) (fdiv (Fin uv) (Fin (sqrt (uu * vv))))) 0 2.

(** The Pearson correlation coefficient, where it is defined. *)
Definition pearson (u v : list R) : f64 :=
  let u' := center u in
  let v' := center v in
  fdiv (Fin (dot u' v')) (Fin (sqrt (dot u' u' * dot v' v'))).

(** [directed_hausdorff(u, v)[0]] on column vectors ([reshape(-1, 1)]):
    the largest, over the points of [u], of the distance to the nearest
    point of [v].  scipy keeps squared distances and takes the root at the
    end; its running maximum starts at 0. *)
Definition sq_dist (x y : R) : R := (x - y) * (x - y).

Definition nearest_sq (x : R) (v : list R) : R :=
  match v with
  | [] => 0
  | y :: v' => fold_left (fun m y' => Rmin m (sq_dist x y')) v' (sq_dist x y)
  end.

Definition directed_hausdorff_R (u v : list R) : R :=
  sqrt (fold_left (fun cmax x => Rmax cmax (nearest_sq x v)) u 0).

(** A scipy reduction applied to float arrays: NaN as soon as an entry is
    (for [directed_hausdorff] see the note at [hausdorff_distance]). *)
Definition on_finite (f : list R -> list R -> f64) (a b : list f64) : f64 :=
  match all_fin a, all_fin b with
  | Some u, Some v => f u v
  | _, _ => NaN
  end.

(** [euclidean(u, v)] is [norm(u - v)], and scipy's [norm] checks its
    argument ([check_finite]): it raises ValueError when [u - v] has an
    entry that is not finite, that is a NaN, or a difference beyond the
    range of a double, which numpy computes as an infinity. *)
Definition euclidean (a b : list f64) : res f64 :=
  match all_fin a, all_fin b with
  | Some u, Some v =>
      if difference_overflows u v
      then Raise (ValueError "array must not contain infs or NaNs")
      else Ok (Fin (euclidean_R u v))
  | _, _ => Raise (ValueError "array must not contain infs or NaNs")
  end.
Definition cityblock : list f64 -> list f64 -> f64 :=
  on_finite (fun u v => Fin (cityblock_R u v)).
Definition correlation : list f64 -> list f64 -> f64 :=
  on_finite correlation_R.
Definition directed_hausdorff : list f64 -> list f64 -> f64 :=
  on_finite (fun u v => Fin (directed_hausdorff_R u v)).

(** get_loss.py, [hausdorff_distance].  It is defined here for arrays
    without NaN, which is what [get_loss] passes after its filter.  On an
    array with a NaN entry scipy's loop compares distances with NaN and
    its answer depends on the order of the points; that case is outside
    the embedding: the NaN that [on_finite] gives there stands for it, and
    nothing is proved about it. *)
Definition hausdorff_distance (u v : list f64) : f64 :=
  let forward := directed_hausdorff u v in
  let backward := directed_hausdorff v u in
  py_max forward backward.

(** ** numpy statistics used by the raster sampler *)

Fixpoint insert_sorted (x : R) (u : list R) : list R :=
  match u with
  | [] => [x]
  | y :: u' => if Rleb x y then x :: y :: u' else y :: insert_sorted x u'
  end.

Definition np_sort (u : list R) : list R := fold_right insert_sorted [] u.

Definition np_min (u : list R) : R :=
  match u with [] => 0 | x :: u' => fold_left Rmin u' x end.

Definition np_max (u : list R) : R :=
  match u with [] => 0 | x :: u' => fold_left Rmax u' x end.

Definition np_median (u : list R) : R :=
  let s := np_sort u in
  let n := length s in
  if Nat.even n
  then (nth (n / 2 - 1) s 0 + nth (n / 2) s 0) / 2
  else nth (n / 2) s 0.

Definition on_finite1 (f : list R -> R) (a : list f64) : f64 :=
  match all_fin a with Some u => Fin (f u) | None => NaN end.

(** The [if stat == ... elif ...] chain of [extract_values]; [None] is the
    [else] branch, which raises [ValueError]. *)
Definition statistic (stat : string) (valid_data : list f64) : option f64 :=
  if String.eqb stat "mean" then Some (on_finite1 np_mean valid_data)
  else if String.eqb stat "median" then Some (on_finite1 np_median valid_data)
  else if String.eqb stat "min" then Some (on_finite1 np_min valid_data)
  else if String.eqb stat "max" then Some (on_finite1 np_max valid_data)
  else if String.eqb stat "sum" then Some (on_finite1 Rsum valid_data)
  else None.

Definition supported_statistic (stat : string) : bool :=
  String.eqb stat "mean" || String.eqb stat "median" || String.eqb stat "min"
  || String.eqb stat "max" || String.eqb stat "sum".

(** ** Geometries and frames *)

Inductive Geometry : Type :=
  | EmptyGeom
  | Point (x y : R).

(** What is handed to rasterio's [mask]: the geometry itself, or its
    buffer of the given radius. *)
Inductive Shape : Type :=
  | Plain (g : Geometry)
  | Buffered (g : Geometry) (radius : R).

Definition is_empty (g : Geometry) : bool :=
  match g with EmptyGeom => true | Point _ _ => false end.

(** A GeoDataFrame: its CRS (an EPSG code, if any), the geometry column,
    the numeric columns by name, and the index: the label of each row.
    pandas does not require the labels to be distinct.  Every frame of the
    model has a geometry column ([GeoDataFrame()], which has none, is not
    one of them). *)
Record GeoDataFrame : Type := mkIndexedFrame {
  gdf_crs : option Z;
  gdf_geometry : list Geometry;
  gdf_columns : gmap string (list f64);
  gdf_index : list Z
}.

(** [RangeIndex(n)], the index a frame gets when none is given. *)
Definition range_index (n : nat) : list Z := map Z.of_nat (seq 0 n).

(** [GeoDataFrame(columns, geometry=geometry, crs=crs)] *)
Definition mkFrame (crs : option Z) (geometry : list Geometry)
    (columns : gmap string (list f64)) : GeoDataFrame :=
  mkIndexedFrame crs geometry columns (range_index (length geometry)).

(** [len(gdf)] *)
Definition gdf_len (g : GeoDataFrame) : nat := length (gdf_geometry g).

(** [name not in gdf.columns] *)
Definition lacks_column (g : GeoDataFrame) (name : string) : bool :=
  match gdf_columns g !! name with Some _ => false | None => true end.

(** [gdf[name] = values] *)
Definition with_column (g : GeoDataFrame) (name : string) (values : list f64)
  : GeoDataFrame :=
  mkIndexedFrame (gdf_crs g) (gdf_geometry g)
                 (<[name := values]> (gdf_columns g)) (gdf_index g).

(** The column after an assignment by label: every row that carries the
    label gets the value. *)
Fixpoint set_label (idx : Z) (v : f64) (labels : list Z) (values : list f64)
  : list f64 :=
  match labels, values with
  | l :: labels', x :: values' =>
      (if Z.eqb l idx then v else x) :: set_label idx v labels' values'
  | _, _ => values
  end.

(** [gdf.at[idx, name] = v], for a label [idx] of the index *)
Definition with_cell (g : GeoDataFrame) (name : string) (idx : Z) (v : f64)
  : GeoDataFrame :=
  mkIndexedFrame (gdf_crs g) (gdf_geometry g)
                 (alter (set_label idx v (gdf_index g)) name (gdf_columns g))
                 (gdf_index g).

(** The coordinates [[geom.x, geom.y]] of the centroids; a point is its
    own centroid, an empty geometry has none. *)
Fixpoint centroid_coords (gs : list Geometry) : option (list (R * R)) :=
  match gs with
  | [] => Some []
  | EmptyGeom :: _ => None
  | Point x y :: gs' =>
      match centroid_coords gs' with
      | Some cs => Some ((x, y) :: cs)
      | None => None
      end
  end.

(** References to frames on the heap. *)
Definition ref : Type := nat.

(** The result dictionary of [get_loss]. *)
Record LossResult : Type := mkLoss {
  loss_value : f64;
  adjusted_footprints : ref
}.

(** The result dictionary of [minimize_loss]. *)
Record OptimResult : Type := mkOptim {
  best_x : R;
  best_y : R;
  best_value : R
}.

(** ** Python's [random] module *)

Class RandomGen (G : Type) : Type := {
  (** [random.random()] *)
  rnd_random : G -> R * G;
  (** [random.gauss(mu, sigma)] *)
  rnd_gauss : R -> R -> G -> R * G;
  (** [_randbelow(n)], behind [random.choice] *)
  rnd_randbelow : nat -> G -> nat * G;
  (** the state installed by [random.seed(a)] *)
  rnd_seed : Z -> G
}.

(** What the generator guarantees: [random()] lies in [[0, 1)] and
    [_randbelow(n)] below [n]. *)
Class RandomGenLaws (G : Type) `{RandomGen G} : Prop := {
  rnd_random_range : forall g, 0 <= fst (rnd_random g) < 1;
  rnd_randbelow_lt : forall n g, (0 < n)%nat -> (fst (rnd_randbelow n g) < n)%nat
}.

(** A DEAP individual: a list of genes with a fitness, whose value is
    absent while the fitness is invalid.  The weights are [(-1.0,)]. *)
Record Individual : Type := mkInd {
  genes : list R;
  fitness : option R
}.

(** ** The functions of the package *)

Section Salpy.

Context {G : Type} `{RandomGen G}.

(** The raster array and its affine transform, as [rasterio] takes them. *)
Variables Raster Affine : Type.

(** The array [valid_data] of [extract_values]:
    [mask(dataset, [mapping(geom)], crop=True)] followed by the selection
    [out_image[0][out_image[0] != dataset.nodata]]; [None] when [mask]
    raises.  What cells it holds is rasterio's and numpy's business and is
    not decided here.  (The dataset is opened without a nodata value, so
    the selection compares with [None] and may remove nothing: the cells
    are then those of the whole crop window, the ones outside the shape
    with rasterio's fill value.) *)
Variable mask_valid : Raster -> Affine -> Shape -> option (list f64).

(** pyproj's transformation of a coordinate between two EPSG codes. *)
Variable proj_transform : Z -> Z -> R * R -> R * R.

(** [dtw.dtw(a, b, keep_internals=True).distance] *)
Variable dtw_distance : list f64 -> list f64 -> f64.

(** The name [hausdorff_distance] that perform_distance.py imports from
    [scipy.stats].  get_loss.py notes that scipy.stats does not provide it
    and defines its own; the import itself is not modelled, and what the
    name computes is a parameter. *)
Variable scipy_stats_hausdorff_distance : list f64 -> list f64 -> f64.

(** *** State and exceptions *)

Record world : Type := mkWorld {
  heap : list GeoDataFrame;
  rng : G
}.

Definition M (A : Type) : Type := world -> res A * world.

#[global] Instance M_ret : MRet M := fun A a w => (Ok a, w).

#[global] Instance M_bind : MBind M := fun A B k m w =>
  match m w with
  | (Ok a, w') => k a w'
  | (Raise e, w') => (Raise e, w')
  end.

Definition raise {A : Type} (e : exn) : M A := fun w => (Raise e, w).

(** [try: body except Exception: handler] *)
Definition try_except {A : Type} (body : M A) (handler : exn -> M A) : M A :=
  fun w =>
    match body w with
    | (Ok a, w') => (Ok a, w')
    | (Raise e, w') => handler e w'
    end.

Definition alloc (g : GeoDataFrame) : M ref := fun w =>
  (Ok (length (heap w)), mkWorld (heap w ++ [g]) (rng w)).

Definition deref (r : ref) : M GeoDataFrame := fun w =>
  match heap w !! r with
  | Some g => (Ok g, w)
  | None => (Raise ReferenceError, w)
  end.

(** In-place update of the object behind a reference. *)
Definition modify (r : ref) (f : GeoDataFrame -> GeoDataFrame) : M unit :=
  fun w => (Ok tt, mkWorld (alter f r (heap w)) (rng w)).

(** Draw from the global generator. *)
Definition draw {A : Type} (f : G -> A * G) : M A := fun w =>
  let (a, g') := f (rng w) in (Ok a, mkWorld (heap w) g').

(** [random.seed(a)] *)
Definition random_seed (a : Z) : M unit := fun w =>
  (Ok tt, mkWorld (heap w) (rnd_seed a)).

(** [for x in xs: body x] *)
Fixpoint for_each {A : Type} (xs : list A) (body : A -> M unit) : M unit :=
  match xs with
  | [] => mret tt
  | x :: xs' => body x ;; for_each xs' body
  end.

(** [[f(x) for x in xs]] for an effectful [f] *)
Fixpoint map_M {A B : Type} (f : A -> M B) (xs : list A) : M (list B) :=
  match xs with
  | [] => mret []
  | x :: xs' => y ← f x; ys ← map_M f xs'; mret (y :: ys)
  end.

(** *** geopandas *)

Definition reproject (src dst : Z) (g : Geometry) : Geometry :=
  match g with
  | EmptyGeom => EmptyGeom
  | Point x y =>
      if Z.eqb src dst then Point x y
      else let (x', y') := proj_transform src dst (x, y) in Point x' y'
  end.

(** [gdf.to_crs(epsg=code)]: a new frame; a frame without CRS cannot be
    transformed. *)
Definition to_crs (r : ref) (code : Z) : M ref :=
  g ← deref r;
  match gdf_crs g with
  | None => raise (ValueError "Cannot transform naive geometries")
  | Some src =>
      alloc (mkIndexedFrame (Some code)
                            (map (reproject src code) (gdf_geometry g))
                            (gdf_columns g) (gdf_index g))
  end.

(** [gdf.copy()] *)
Definition copy (r : ref) : M ref := g ← deref r; alloc g.

(** [gdf.crs.to_epsg()] *)
Definition crs_to_epsg (g : GeoDataFrame) : M Z :=
  match gdf_crs g with
  | Some code => mret code
  | None => raise (AttributeError "NoneType has no attribute to_epsg")
  end.

(** *** position_adjustment.py *)

Definition position_adjustment (gdf : ref) (add_x add_y : R) (crs_code : Z)
  : M ref :=
  g ← deref gdf;
  if existsb is_empty (gdf_geometry g)
  then raise (ValueError "Input gdf contains empty geometries")
  else
    gdf' ← to_crs gdf crs_code;
    g' ← deref gdf';
    match centroid_coords (gdf_geometry g') with
    | None => raise (ValueError "empty geometry has no coordinates")
    | Some coords =>
        gdf_copy ← copy gdf';
        match coords with
        | [] => raise (IndexError "too many indices for array")
        | _ :: _ =>
            modify gdf_copy
              (fun c => with_column c "orig_x" (map (fun p => Fin (fst p)) coords)) ;;
            modify gdf_copy
              (fun c => with_column c "orig_y" (map (fun p => Fin (snd p)) coords)) ;;
            let new_geometry :=
              map (fun p => Point (fst p + add_x) (snd p + add_y)) coords in
            c ← deref gdf_copy;
            alloc (mkIndexedFrame (Some crs_code) new_geometry
                                  (gdf_columns c) (gdf_index c))
        end
    end.

(** *** extract_values.py *)

(** The body of the loop [for idx, row in result_gdf.iterrows()], with its
    [try ... except Exception] around the masking and the statistic;
    [idx] is the label of the row. *)
Definition extract_row (result_gdf : ref) (raster : Raster)
    (raster_transform : Affine) (buf : R) (stat : string)
    (row : Z * Geometry) : M unit :=
  let (idx, geom) := row in
  let shape := if Rltb 0 buf then Buffered geom buf else Plain geom in
  try_except
    (match mask_valid raster raster_transform shape with
     | None => raise (ValueError "Input shapes do not overlap raster.")
     | Some valid_data =>
         if (0 <? length valid_data)%nat
         then
           match statistic stat valid_data with
           | Some v =>
               modify result_gdf (fun g => with_cell g "extracted_value" idx v)
           | None => raise (ValueError ("Unsupported statistic: " +:+ stat))
           end
         else mret tt
     end)
    (fun _ => mret tt).

Definition extract_values (gdf : ref) (raster : Raster)
    (raster_transform : Affine) (buf : R) (stat : string)
    (crs_code : option Z) : M ref :=
  gdf ← match crs_code with
        | Some code => to_crs gdf code
        | None => mret gdf
        end;
  result_gdf ← copy gdf;
  modify result_gdf
    (fun g => with_column g "extracted_value" (replicate (gdf_len g) NaN)) ;;
  g ← deref gdf;
  match crs_code with
  | None => crs_to_epsg g
  | Some code => mret code
  end ;;
  rows ← deref result_gdf;
  for_each (zip (gdf_index rows) (gdf_geometry rows))
           (extract_row result_gdf raster raster_transform buf stat) ;;
  mret result_gdf.

(** *** get_loss.py and perform_distance.py *)

Definition lift_res {A : Type} (r : res A) : M A := fun w => (r, w).

(** [gdf[name].values] *)
Definition column_values (g : GeoDataFrame) (name : string) : M (list f64) :=
  match gdf_columns g !! name with
  | Some values => mret values
  | None => raise (KeyError name)
  end.

(** [crs_code if crs_code else gdf.crs.to_epsg()]: [None] and [0] are
    falsy. *)
Definition crs_code_or_epsg (crs_code : option Z) (g : GeoDataFrame) : M Z :=
  match crs_code with
  | Some code => if Z.eqb code 0 then crs_to_epsg g else mret code
  | None => crs_to_epsg g
  end.

(** [lidar_value is not None and lidar_value not in gdf.columns] *)
Definition names_missing_column (lidar_value : option string)
    (g : GeoDataFrame) : bool :=
  match lidar_value with
  | Some name => lacks_column g name
  | None => false
  end.

(** [ValueError(f"Column '{name}' not found in {frame}")] *)
Definition column_not_found (name : option string) (frame : string) : exn :=
  ValueError ("Column '" +:+ default "" name +:+ "' not found in " +:+ frame).

(** get_loss.py, lines 152-172: the choice of the metric. *)
Definition get_loss_method (minimizing_method : string)
    (lidar_values raster_values : list f64) : res f64 :=
  if String.eqb minimizing_method "dtw" then
    Ok (dtw_distance lidar_values raster_values)
  else if String.eqb minimizing_method "euclidean" then
    euclidean lidar_values raster_values
  else if String.eqb minimizing_method "manhattan" then
    Ok (cityblock lidar_values raster_values)
  else if String.eqb minimizing_method "correlation" then
    let corr := correlation lidar_values raster_values in
    Ok (if negb (isnan corr) then fsub (Fin 1) corr else Fin 1000)
  else if String.eqb minimizing_method "area" then
    Ok (np_sum (np_abs (np_sub lidar_values raster_values)))
  else if String.eqb minimizing_method "hausdorff" then
    Ok (hausdorff_distance lidar_values raster_values)
  else
    Raise (ValueError ("Unsupported minimizing method: " +:+ minimizing_method)).

(** get_loss.py, lines 139-172: removal of the NaN pairs, the sentinel
    for no valid data, then the metric. *)
Definition get_loss_value (minimizing_method : string)
    (lidar_values raster_values : list f64) : res f64 :=
  let valid_indices := valid_mask lidar_values raster_values in
  let lidar_values := compress valid_indices lidar_values in
  let raster_values := compress valid_indices raster_values in
  if (length lidar_values =? 0)%nat || (length raster_values =? 0)%nat
  then Ok (Fin 1000)
  else get_loss_method minimizing_method lidar_values raster_values.

Definition get_loss (lidar_footprints : ref) (add_x add_y buf : R)
    (input_rast : Raster) (raster_transform : Affine)
    (minimizing_method target_variable : string)
    (crs_code : option Z) (lidar_value : option string) : M LossResult :=
  g ← deref lidar_footprints;
  if names_missing_column lidar_value g
  then raise (column_not_found lidar_value "lidar_footprints")
  else
    code ← crs_code_or_epsg crs_code g;
    adjusted_footprints ← position_adjustment lidar_footprints add_x add_y code;
    extracted_footprints ←
      extract_values adjusted_footprints input_rast raster_transform
                     buf target_variable crs_code;
    match lidar_value with
    | None => mret (mkLoss (Fin 0) extracted_footprints)
    | Some name =>
        e ← deref extracted_footprints;
        lidar_values ← column_values e name;
        raster_values ← column_values e "extracted_value";
        loss ← lift_res (get_loss_value minimizing_method
                                        lidar_values raster_values);
        mret (mkLoss loss extracted_footprints)
    end.

(** perform_distance.py, lines 110-130: the choice of the metric. *)
Definition perform_distance_method (method : string)
    (point_values raster_values : list f64) : res f64 :=
  if String.eqb method "dtw" then
    Ok (dtw_distance point_values raster_values)
  else if String.eqb method "euclidean" then
    euclidean point_values raster_values
  else if String.eqb method "manhattan" then
    Ok (cityblock point_values raster_values)
  else if String.eqb method "correlation" then
    let corr := correlation point_values raster_values in
    Ok (if negb (isnan corr) then fsub (Fin 1) corr else Fin 1000)
  else if String.eqb method "area" then
    Ok (np_sum (np_abs (np_sub point_values raster_values)))
  else if String.eqb method "hausdorff" then
    Ok (scipy_stats_hausdorff_distance point_values raster_values)
  else
    Raise (ValueError ("Unsupported distance method: " +:+ method)).

(** perform_distance.py, lines 100-130: removal of the NaN pairs, the
    sentinel, then the metric. *)
Definition perform_distance_value (method : string)
    (point_values raster_values : list f64) : res f64 :=
  let valid_indices := valid_mask point_values raster_values in
  let point_values := compress valid_indices point_values in
  let raster_values := compress valid_indices raster_values in
  if (length point_values =? 0)%nat || (length raster_values =? 0)%nat
  then Ok (Fin 1000)
  else perform_distance_method method point_values raster_values.

Definition perform_distance (gdf : ref) (raster : Raster)
    (raster_transform : Affine) (method : string) (buf : R)
    (target_variable : string) (crs_code : option Z)
    (value_column : option string) : M f64 :=
  g ← deref gdf;
  if names_missing_column value_column g
  then raise (column_not_found value_column "gdf")
  else
    extracted_gdf ←
      extract_values gdf raster raster_transform buf target_variable crs_code;
    match value_column with
    | None => mret (Fin 0)
    | Some name =>
        e ← deref extracted_gdf;
        point_values ← column_values e name;
        raster_values ← column_values e "extracted_value";
        lift_res (perform_distance_value method point_values raster_values)
    end.

(** *** DEAP: operators and the simple evolutionary algorithm *)

(** [del ind.fitness.values] *)
Definition invalidate (ind : Individual) : Individual :=
  mkInd (genes ind) None.

(** [random.uniform(a, b)] *)
Definition random_uniform (a b : R) : M R :=
  u ← draw rnd_random; mret (a + (b - a) * u).

(** [random.choice(seq)] *)
Definition random_choice {A : Type} (seq : list A) : M A :=
  match seq with
  | [] => raise (IndexError "Cannot choose from an empty sequence")
  | _ :: _ =>
      i ← draw (rnd_randbelow (length seq));
      match seq !! i with
      | Some x => mret x
      | None => raise (IndexError "list index out of range")
      end
  end.

(** Order of fitnesses: the order of their weighted values, tuples that
    are empty while the fitness is invalid and hold [-loss] otherwise. *)
Definition fit_le (a b : option R) : bool :=
  match a, b with
  | None, _ => true
  | Some _, None => false
  | Some x, Some y => Rleb (- x) (- y)
  end.

Definition fit_lt (a b : option R) : bool :=
  match a, b with
  | _, None => false
  | None, Some _ => true
  | Some x, Some y => Rltb (- x) (- y)
  end.

(** [Fitness.__gt__] is [not self.__le__(other)]. *)
Definition fit_gt (a b : option R) : bool := negb (fit_le a b).

(** [tools.cxBlend(ind1, ind2, alpha)] *)
Fixpoint cxBlend_genes (alpha : R) (g1 g2 : list R) : M (list R * list R) :=
  match g1, g2 with
  | x1 :: g1', x2 :: g2' =>
      u ← draw rnd_random;
      let gamma := (1 + 2 * alpha) * u - alpha in
      r ← cxBlend_genes alpha g1' g2';
      mret (((1 - gamma) * x1 + gamma * x2) :: fst r,
            (gamma * x1 + (1 - gamma) * x2) :: snd r)
  | _, _ => mret (g1, g2)
  end.

Definition cxBlend (alpha : R) (ind1 ind2 : Individual)
  : M (Individual * Individual) :=
  r ← cxBlend_genes alpha (genes ind1) (genes ind2);
  mret (mkInd (fst r) (fitness ind1), mkInd (snd r) (fitness ind2)).

(** [tools.mutGaussian(individual, mu, sigma, indpb)] *)
Fixpoint mutGaussian_genes (mu sigma indpb : R) (gs : list R) : M (list R) :=
  match gs with
  | [] => mret []
  | x :: gs' =>
      u ← draw rnd_random;
      x' ← (if Rltb u indpb
            then n ← draw (rnd_gauss mu sigma); mret (x + n)
            else mret x);
      r ← mutGaussian_genes mu sigma indpb gs';
      mret (x' :: r)
  end.

Definition mutGaussian (mu sigma indpb : R) (individual : Individual)
  : M Individual :=
  gs ← mutGaussian_genes mu sigma indpb (genes individual);
  mret (mkInd gs (fitness individual)).

(** [max(aspirants, key=attrgetter("fitness"))]: the first maximum. *)
Definition max_by_fitness (aspirants : list Individual) : M Individual :=
  match aspirants with
  | [] => raise (ValueError "max() arg is an empty sequence")
  | a :: rest =>
      mret (fold_left
              (fun best x =>
                 if fit_gt (fitness x) (fitness best) then x else best)
              rest a)
  end.

(** [tools.selRandom(individuals, k)] *)
Definition selRandom (individuals : list Individual) (k : nat)
  : M (list Individual) :=
  map_M (fun _ : nat => random_choice individuals) (seq 0 k).

(** [tools.selTournament(individuals, k, tournsize)] *)
Definition selTournament (tournsize : nat) (individuals : list Individual)
    (k : nat) : M (list Individual) :=
  map_M (fun _ : nat =>
           aspirants ← selRandom individuals tournsize;
           max_by_fitness aspirants)
        (seq 0 k).

(** [sorted(individuals, key=attrgetter("fitness"), reverse=True)]: a
    stable sort, so equal fitnesses keep their order. *)
Fixpoint insert_desc (x : Individual) (l : list Individual) : list Individual :=
  match l with
  | [] => [x]
  | y :: l' =>
      if fit_lt (fitness x) (fitness y) then y :: insert_desc x l'
      else x :: y :: l'
  end.

Definition sorted_desc (l : list Individual) : list Individual :=
  fold_right insert_desc [] l.

(** [tools.selBest(individuals, k)] *)
Definition selBest (individuals : list Individual) (k : nat)
  : list Individual :=
  take k (sorted_desc individuals).

(** The toolbox: the registered evaluation and operators.  [clone] is a
    deep copy and [map] the builtin, which values do not need. *)
Record Toolbox : Type := mkToolbox {
  tb_evaluate : Individual -> M R;
  tb_mate : Individual -> Individual -> M (Individual * Individual);
  tb_mutate : Individual -> M Individual;
  tb_select : list Individual -> nat -> M (list Individual)
}.

(** [algorithms.varAnd]: the crossover loop over [range(1, len, 2)] ... *)
Fixpoint varAnd_mate (toolbox : Toolbox) (cxpb : R)
    (offspring : list Individual) : M (list Individual) :=
  match offspring with
  | a :: b :: rest =>
      u ← draw rnd_random;
      p ← (if Rltb u cxpb
           then c ← tb_mate toolbox a b;
                mret (invalidate (fst c), invalidate (snd c))
           else mret (a, b));
      rest' ← varAnd_mate toolbox cxpb rest;
      mret (fst p :: snd p :: rest')
  | _ => mret offspring
  end.

(** ... and the mutation loop over [range(len)]. *)
Definition varAnd_mutate (toolbox : Toolbox) (mutpb : R)
    (offspring : list Individual) : M (list Individual) :=
  map_M (fun ind =>
           u ← draw rnd_random;
           if Rltb u mutpb
           then m ← tb_mutate toolbox ind; mret (invalidate m)
           else mret ind)
        offspring.

Definition varAnd (population : list Individual) (toolbox : Toolbox)
    (cxpb mutpb : R) : M (list Individual) :=
  offspring ← varAnd_mate toolbox cxpb population;
  varAnd_mutate toolbox mutpb offspring.

(** Evaluation of the individuals with an invalid fitness, in order. *)
Definition evaluate_invalid (toolbox : Toolbox) (pop : list Individual)
  : M (list Individual) :=
  map_M (fun ind =>
           match fitness ind with
           | Some _ => mret ind
           | None =>
               fit ← tb_evaluate toolbox ind;
               mret (mkInd (genes ind) (Some fit))
           end)
        pop.

(** One generation: select, vary, evaluate, replace. *)
Definition generation (toolbox : Toolbox) (cxpb mutpb : R)
    (population : list Individual) : M (list Individual) :=
  offspring ← tb_select toolbox population (length population);
  offspring ← varAnd offspring toolbox cxpb mutpb;
  evaluate_invalid toolbox offspring.

Fixpoint generations (toolbox : Toolbox) (cxpb mutpb : R) (ngen : nat)
    (population : list Individual) : M (list Individual) :=
  match ngen with
  | O => mret population
  | S n =>
      population ← generation toolbox cxpb mutpb population;
      generations toolbox cxpb mutpb n population
  end.

(** [algorithms.eaSimple]; the final content of the list [population],
    which the algorithm replaces in place ([population[:] = offspring]),
    is the result. *)
Definition eaSimple (population : list Individual) (toolbox : Toolbox)
    (cxpb mutpb : R) (ngen : nat) : M (list Individual) :=
  population ← evaluate_invalid toolbox population;
  generations toolbox cxpb mutpb ngen population.

(** *** minimize_loss.py *)

(** The closure [objective_function] of [minimize_loss]. *)
Definition objective_function (lidar_footprints : ref)
    (input_rast : Raster) (raster_transform : Affine)
    (minimizing_method target_variable : string) (buf : R)
    (crs_code : option Z) (lidar_value : option string)
    (individual : Individual) : M R :=
  match genes individual with
  | [x; y] =>
      result ← get_loss lidar_footprints x y buf input_rast raster_transform
                        minimizing_method target_variable crs_code lidar_value;
      match loss_value result with
      | NaN => mret 1000
      | Fin v => mret v
      end
  | _ => raise (ValueError "cannot unpack individual")
  end.

(** [toolbox.individual]: [initCycle] over [attr_float_x], [attr_float_y]. *)
Definition new_individual (lower_bounds upper_bounds : R * R) : M Individual :=
  x ← random_uniform (fst lower_bounds) (fst upper_bounds);
  y ← random_uniform (snd lower_bounds) (snd upper_bounds);
  mret (mkInd [x; y] None).

(** [toolbox.population(n)]: [initRepeat]. *)
Definition new_population (lower_bounds upper_bounds : R * R) (n : nat)
  : M (list Individual) :=
  map_M (fun _ : nat => new_individual lower_bounds upper_bounds) (seq 0 n).

(** The registrations on the toolbox: [evaluate], [mate], [mutate],
    [select]. *)
Definition registered_toolbox (lidar_footprints : ref)
    (input_rast : Raster) (raster_transform : Affine)
    (minimizing_method target_variable : string) (buf : R)
    (crs_code : option Z) (lidar_value : option string) : Toolbox :=
  mkToolbox
    (objective_function lidar_footprints input_rast raster_transform
       minimizing_method target_variable buf crs_code lidar_value)
    (cxBlend 0.5)
    (mutGaussian 0 1 0.2)
    (selTournament 3).

(** The sequential path of [minimize_loss] ([parallel=False]).  Bounds are
    the 2-vectors [[x, y]]; [None] as result is Python's [None]. *)
Definition minimize_loss (lidar_footprints : ref)
    (input_rast : Raster) (raster_transform : Affine)
    (minimizing_method target_variable : string) (buf : R)
    (crs_code : option Z) (lidar_value : option string)
    (lower_bounds upper_bounds : option (R * R))
    (pop_size max_iter : nat) : M (option OptimResult) :=
  g ← deref lidar_footprints;
  if (gdf_len g =? 0)%nat then mret None
  else
    let lower_bounds := default (-30, -30) lower_bounds in
    let upper_bounds := default (30, 30) upper_bounds in
    let toolbox :=
      registered_toolbox lidar_footprints input_rast raster_transform
        minimizing_method target_variable buf crs_code lidar_value in
    population ← new_population lower_bounds upper_bounds pop_size;
    random_seed 1118 ;;
    outcome ← try_except
                (population ← eaSimple population toolbox 0.7 0.2 max_iter;
                 mret (Some population))
                (fun _ => mret None);
    match outcome with
    | None => mret None
    | Some population =>
        match selBest population 1 with
        | [] => raise (IndexError "list index out of range")
        | best_ind :: _ =>
            match genes best_ind, fitness best_ind with
            | [best_x; best_y], Some best_value =>
                mret (Some (mkOptim best_x best_y best_value))
            | _, _ => raise (ValueError "cannot unpack best individual")
            end
        end
    end.

(** *** positional_correction.py *)

Definition positional_correction (lidar_footprints : ref)
    (reference_raster : Raster) (raster_transform : Affine)
    (minimizing_method target_variable : string) (buf : R)
    (crs_code : option Z) (lidar_value : option string)
    (lower_bounds upper_bounds : option (R * R))
    (pop_size max_iter : nat) : M ref :=
  g ← deref lidar_footprints;
  if names_missing_column lidar_value g
  then raise (column_not_found lidar_value "lidar_footprints")
  else
    optim_result ←
      minimize_loss lidar_footprints reference_raster raster_transform
                    minimizing_method target_variable buf crs_code lidar_value
                    lower_bounds upper_bounds pop_size max_iter;
    match optim_result with
    | None => mret lidar_footprints
    | Some r =>
        g ← deref lidar_footprints;
        code ← crs_code_or_epsg crs_code g;
        position_adjustment lidar_footprints (best_x r) (best_y r) code
    end.

(** *** The frames the functions create *)

(** The frame made by [to_crs]. *)
Definition reprojected_frame (src code : Z) (g : GeoDataFrame) : GeoDataFrame :=
  mkIndexedFrame (Some code) (map (reproject src code) (gdf_geometry g))
                 (gdf_columns g) (gdf_index g).

(** The copy after the assignments to ['orig_x'] and ['orig_y']. *)
Definition origin_frame (g : GeoDataFrame) (coords : list (R * R))
  : GeoDataFrame :=
  with_column
    (with_column g "orig_x" (map (fun p => Fin (fst p)) coords))
    "orig_y" (map (fun p => Fin (snd p)) coords).

(** The frame [position_adjustment] returns. *)
Definition shifted_frame (code : Z) (add_x add_y : R) (coords : list (R * R))
    (g : GeoDataFrame) : GeoDataFrame :=
  mkIndexedFrame (Some code)
                 (map (fun p => Point (fst p + add_x) (snd p + add_y)) coords)
                 (gdf_columns g) (gdf_index g).

(** The cell the loop of [extract_values] leaves for a row: NaN unless the
    masking succeeded, found valid data and the statistic is supported. *)
Definition row_value (raster : Raster) (raster_transform : Affine) (buf : R)
    (stat : string) (geom : Geometry) : f64 :=
  let shape := if Rltb 0 buf then Buffered geom buf else Plain geom in
  match mask_valid raster raster_transform shape with
  | Some valid_data =>
      if (0 <? length valid_data)%nat
      then default NaN (statistic stat valid_data)
      else NaN
  | None => NaN
  end.

(** What one turn of the loop writes for a row, when it writes. *)
Definition row_sample (raster : Raster) (raster_transform : Affine) (buf : R)
    (stat : string) (geom : Geometry) : option f64 :=
  let shape := if Rltb 0 buf then Buffered geom buf else Plain geom in
  match mask_valid raster raster_transform shape with
  | Some valid_data =>
      if (0 <? length valid_data)%nat then statistic stat valid_data else None
  | None => None
  end.

(** The column "extracted_value" after the loop over the rows of the
    given labels and geometries: NaN everywhere at first, then each row
    that has a sample writes it to every row that carries its label.
    Where the labels are distinct, this is [row_value] row by row. *)
Definition sampled_cells (raster : Raster) (raster_transform : Affine)
    (buf : R) (stat : string) (labels : list Z) (geoms : list Geometry)
  : list f64 :=
  fold_left
    (fun cells row =>
       match row_sample raster raster_transform buf stat (snd row) with
       | Some v => set_label (fst row) v labels cells
       | None => cells
       end)
    (zip labels geoms) (replicate (length geoms) NaN).

(** The frame [extract_values] returns, from the frame it copies. *)
Definition extracted_frame (raster : Raster) (raster_transform : Affine)
    (buf : R) (stat : string) (g : GeoDataFrame) : GeoDataFrame :=
  with_column g "extracted_value"
    (sampled_cells raster raster_transform buf stat
                   (gdf_index g) (gdf_geometry g)).

(** The four frames one call of [get_loss] creates for a frame held in
    the CRS [src], when no CRS code is passed. *)
Definition loss_frames (raster : Raster) (raster_transform : Affine)
    (buf : R) (stat : string) (src : Z) (add_x add_y : R)
    (coords : list (R * R)) (g : GeoDataFrame) : list GeoDataFrame :=
  let g1 := reprojected_frame src src g in
  let g2 := origin_frame g1 coords in
  let g3 := shifted_frame src add_x add_y coords g2 in
  [g1; g2; g3; extracted_frame raster raster_transform buf stat g3].

(** An individual whose two coordinates lie in the box. *)
Definition in_box (lower_bounds upper_bounds : R * R) (ind : Individual) : Prop :=
  exists x y : R,
    genes ind = [x; y]
    /\ fst lower_bounds <= x <= fst upper_bounds
    /\ snd lower_bounds <= y <= snd upper_bounds.

(** *** The loss as the specification words it *)

(** The dictionary [get_loss] returns for a loss, or the exception. *)
Definition loss_outcome (loss : res f64) (extracted : ref) : res LossResult :=
  match loss with
  | Ok v => Ok (mkLoss v extracted)
  | Raise e => Raise e
  end.

(** The method names of the [if ... elif] chains. *)
Definition supported_method (method : string) : bool :=
  String.eqb method "dtw" || String.eqb method "euclidean"
  || String.eqb method "manhattan" || String.eqb method "correlation"
  || String.eqb method "area" || String.eqb method "hausdorff".


(** What [objective_function] hands to the optimizer at the offset
    [(x, y)], for a frame with the row labels [labels], the centroids
    [coords] and the reference column [reference]: the loss of [get_loss]
    over the shifted points, 1000 in place of NaN. *)
Definition objective_value (raster : Raster) (raster_transform : Affine)
    (buf : R) (stat method : string) (reference : list f64)
    (labels : list Z) (coords : list (R * R)) (x y : R) : res R :=
  match get_loss_value method reference
          (sampled_cells raster raster_transform buf stat labels
             (map (fun p => Point (fst p + x) (snd p + y)) coords))
  with
  | Ok NaN => Ok 1000
  | Ok (Fin v) => Ok v
  | Raise e => Raise e
  end.

(** The index-aligned pairs of which neither side is NaN. *)
Definition valid_pairs (a b : list f64) : list (f64 * f64) :=
  filter (fun p => is_true (negb (isnan (fst p) || isnan (snd p)))) (zip a b).

(** Sentinel 1000 when no pair remains, else the metric on the remaining
    reference and sampled values. *)
Definition spec_loss (metric : list f64 -> list f64 -> res f64)
    (reference sampled : list f64) : res f64 :=
  match valid_pairs reference sampled with
  | [] => Ok (Fin 1000)
  | ps => metric (map fst ps) (map snd ps)
  end.

End Salpy.

(** *** linear_alignment.py

    The frames of this module have a text column, ['shot_number'], which
    [gdf_columns], holding floats, cannot carry: the column is kept beside
    the frame, as [astype(str)] renders it, [None] when the frame has no
    such column.  The function reads its input and builds new frames
    ([to_crs], boolean indexing, [pd.concat]), so it is a function from
    frame to frame. *)
Record ShotFrame : Type := mkShots {
  shots_frame : GeoDataFrame;
  shots_number : option (list string)
}.

(** [s[:12]] *)
Definition str_prefix (s : string) : string := String.substring 0 12 s.

(** [Series.unique()]: the distinct values in order of first appearance. *)
Fixpoint unique_from (seen l : list string) : list string :=
  match l with
  | [] => []
  | x :: l' =>
      if bool_decide (x ∈ seen) then unique_from seen l'
      else x :: unique_from (x :: seen) l'
  end.

Definition pd_unique (l : list string) : list string := unique_from [] l.

(** Boolean-mask indexing of rows, [frame[mask]]. *)
Fixpoint select_rows {A : Type} (mask : list bool) (l : list A) : list A :=
  match mask, l with
  | m :: mask', x :: l' =>
      if m then x :: select_rows mask' l' else select_rows mask' l'
  | _, _ => []
  end.

(** [np.mean(coords, axis=0)] *)
Definition np_mean2 (coords : list (R * R)) : R * R :=
  (Rsum (map fst coords) / INR (length coords),
   Rsum (map snd coords) / INR (length coords)).

(** [coords - centroid] *)
Definition np_sub2 (coords : list (R * R)) (c : R * R) : list (R * R) :=
  map (fun p => (fst p - fst c, snd p - snd c)) coords.

(** [np.cov(centered, rowvar=False)]: the entries [xx], [xy], [yy] of the
    symmetric 2x2 matrix, with the divisor [n - 1]. *)
Definition np_cov (centered : list (R * R)) : R * R * R :=
  let d := np_sub2 centered (np_mean2 centered) in
  let n1 := INR (length centered) - 1 in
  (Rsum (map (fun p => fst p * fst p) d) / n1,
   Rsum (map (fun p => fst p * snd p) d) / n1,
   Rsum (map (fun p => snd p * snd p) d) / n1).

(** [centroid + np.dot(pt - centroid, direction) * direction] *)
Definition project (centroid direction pt : R * R) : R * R :=
  let proj_scalar :=
    (fst pt - fst centroid) * fst direction
    + (snd pt - snd centroid) * snd direction in
  (fst centroid + proj_scalar * fst direction,
   snd centroid + proj_scalar * snd direction).

(** [pd.concat] of the float columns of frames that have the same
    columns, as the groups of one frame do. *)
Definition concat_columns (frames : list GeoDataFrame)
  : gmap string (list f64) :=
  foldr (fun f acc => union_with (fun a b => Some (a ++ b)) (gdf_columns f) acc)
        ∅ frames.

Fixpoint concat_numbers (frames : list ShotFrame) : option (list string) :=
  match frames with
  | [] => Some []
  | f :: rest =>
      match shots_number f, concat_numbers rest with
      | Some a, Some b => Some (a ++ b)
      | _, _ => None
      end
  end.

(** [pd.concat(frames, ignore_index=True)]; the result has the default
    index. *)
Definition pd_concat (frames : list ShotFrame) : res ShotFrame :=
  match frames with
  | [] => Raise (ValueError "No objects to concatenate")
  | f :: _ =>
      Ok (mkShots
            (mkFrame (gdf_crs (shots_frame f))
                     (concat (map (fun f => gdf_geometry (shots_frame f)) frames))
                     (concat_columns (map shots_frame frames)))
            (concat_numbers frames))
  end.

Section LinearAlignment.

Variable proj_transform : Z -> Z -> R * R -> R * R.

(** [np.linalg.eigh(cov_mat)[1][:, -1]] for the symmetric matrix of the
    entries [xx], [xy], [yy]: the eigenvector of the largest eigenvalue,
    as LAPACK returns it. *)
Variable eigh_last : R * R * R -> R * R.

(** The branches on [len(coords)]: one point stays, more are projected on
    the line through their centroid along the principal direction. *)
Definition aligned_coords (coords : list (R * R)) : list (R * R) :=
  match coords with
  | [c] => [c]
  | _ =>
      let centroid := np_mean2 coords in
      let centered := np_sub2 coords centroid in
      let cov_mat := np_cov centered in
      let direction := eigh_last cov_mat in
      map (project centroid direction) coords
  end.

(** The body of the loop over the shot groups. *)
Definition align_group (crs_code : Z) (g : GeoDataFrame)
    (numbers keys : list string) (shot : string) : res ShotFrame :=
  let mask := map (String.eqb shot) keys in
  let gdf_subset :=
    mkIndexedFrame (gdf_crs g) (select_rows mask (gdf_geometry g))
                   (select_rows mask <$> gdf_columns g)
                   (select_rows mask (gdf_index g)) in
  match centroid_coords (gdf_geometry gdf_subset) with
  | None => Raise (ValueError "empty geometry has no coordinates")
  | Some coords =>
      let projections := aligned_coords coords in
      let gdf_subset :=
        with_column gdf_subset "orig_x" (map (fun p => Fin (fst p)) coords) in
      let gdf_subset :=
        with_column gdf_subset "orig_y" (map (fun p => Fin (snd p)) coords) in
      let gdf_subset :=
        with_column gdf_subset "coords_x" (map (fun p => Fin (fst p)) projections) in
      let gdf_subset :=
        with_column gdf_subset "coords_y" (map (fun p => Fin (snd p)) projections) in
      Ok (mkShots
            (mkIndexedFrame (Some crs_code)
                            (map (fun p => Point (fst p) (snd p)) projections)
                            (gdf_columns gdf_subset) (gdf_index gdf_subset))
            (Some (select_rows mask numbers)))
  end.

Fixpoint align_groups (crs_code : Z) (g : GeoDataFrame)
    (numbers keys shot_ids : list string) : res (list ShotFrame) :=
  match shot_ids with
  | [] => Ok []
  | shot :: rest =>
      match align_group crs_code g numbers keys shot with
      | Raise e => Raise e
      | Ok adjusted_gdf =>
          match align_groups crs_code g numbers keys rest with
          | Raise e => Raise e
          | Ok adjusted_gdf_list => Ok (adjusted_gdf :: adjusted_gdf_list)
          end
      end
  end.

Definition linear_alignment (gdf : ShotFrame) (crs_code : Z) : res ShotFrame :=
  match shots_number gdf with
  | None =>
      Raise (ValueError "The GeoDataFrame does not contain a 'shot_number' column, which is required for the function to work correctly.")
  | Some numbers =>
      match gdf_crs (shots_frame gdf) with
      | None => Raise (ValueError "Cannot transform naive geometries")
      | Some src =>
          let g := reprojected_frame proj_transform src crs_code (shots_frame gdf) in
          let keys := map str_prefix numbers in
          let shot_ids := pd_unique keys in
          match align_groups crs_code g numbers keys shot_ids with
          | Raise e => Raise e
          | Ok adjusted_gdf_list => pd_concat adjusted_gdf_list
          end
      end
  end.

End LinearAlignment.

(** ** A small generator for worked examples

    The state is a counter [n]: [random()] returns [1/10] in state 0 and
    [1/20] in every other state, [gauss(mu, sigma)] returns [mu + sigma / 2],
    [_randbelow] returns [0];
    every draw advances the counter and [seed(a)] sets it to [a]. *)
#[export] Instance counter_gen : RandomGen nat := {|
  rnd_random n := (match n with O => / 10 | S _ => / 20 end, S n);
  rnd_gauss mu sigma n := (mu + sigma * / 2, S n);
  rnd_randbelow _ n := (0%nat, S n);
  rnd_seed a := Z.to_nat a
|}.

(** A sampler for worked examples: every shape covers one cell of value 5. *)
Definition flat_mask (_ _ : unit) (_ : Shape) : option (list f64) :=
  Some [Fin 5].

(** No reprojection. *)
Definition no_transform (_ _ : Z) (p : R * R) : R * R := p.

Definition no_dtw (_ _ : list f64) : f64 := Fin 0.

(** Frames for worked examples, each with the default index: one point at
    the origin held in EPSG:3857; two points with a reference column ["h"]
    whose second entry is NaN; and [GeoDataFrame(geometry=[])], which has
    no row, no column besides the geometry and no CRS. *)
Definition one_point : GeoDataFrame :=
  mkFrame (Some 3857%Z) [Point 0 0] ∅.

Definition two_points : GeoDataFrame :=
  mkFrame (Some 3857%Z) [Point 0 0; Point 1 1] {[ "h" := [Fin 1; NaN] ]}.

Definition empty_frame : GeoDataFrame := mkFrame None [] ∅.

(** A heap holding one frame, and a state of the generator. *)
Definition world_of (g : GeoDataFrame) (n : nat) : @world nat := mkWorld [g] n.

(** ** What a call leaves of the world

    [grows w w']: the heap [w'] is the heap [w] with frames appended, so
    every frame of [w] is in [w'] under the same reference and with the
    same content, and the generator is in the same state.  [heap_grows]
    says the same of the heap alone. *)
Definition grows {G : Type} (w w' : @world G) : Prop :=
  (exists added : list GeoDataFrame, heap w' = heap w ++ added)
  /\ rng w' = rng w.

Definition heap_grows {G : Type} (w w' : @world G) : Prop :=
  exists added : list GeoDataFrame, heap w' = heap w ++ added.

(** A computation that, whatever it returns or raises, only appends
    frames. *)
Definition keeps_frames {G : Type} {A : Type} (m : @M G A) : Prop :=
  forall w : @world G, heap_grows w (snd (m w)).

(** A toolbox whose four operations only append frames. *)
Definition kf_toolbox {G : Type} (tb : @Toolbox G) : Prop :=
  (forall i, keeps_frames (tb_evaluate tb i))
  /\ (forall a b, keeps_frames (tb_mate tb a b))
  /\ (forall i, keeps_frames (tb_mutate tb i))
  /\ (forall l k, keeps_frames (tb_select tb l k)).

(** ** Names used in the statements below *)

(** A frame indexed as pandas indexes by default: one label for each row,
    and no label twice. *)
Definition distinct_labels (g : GeoDataFrame) : Prop :=
  length (gdf_index g) = length (gdf_geometry g) /\ NoDup (gdf_index g).

(** An individual as [toolbox.individual] makes it: two genes, no fitness
    yet. *)
Definition unevaluated (ind : Individual) : Prop :=
  fitness ind = None /\ exists x y : R, genes ind = [x; y].

(** An individual whose fitness, where it is valid, is the value of
    [score] at its two genes; and one whose fitness is valid. *)
Definition sound (score : R -> R -> res R) (ind : Individual) : Prop :=
  exists x y : R,
    genes ind = [x; y] /\ forall v, fitness ind = Some v -> score x y = Ok v.

Definition scored (score : R -> R -> res R) (ind : Individual) : Prop :=
  exists x y v : R,
    genes ind = [x; y] /\ fitness ind = Some v /\ score x y = Ok v.

(** From every world in which [inv] holds, [m] returns a value that
    satisfies [post], in a world in which [inv] holds. *)
Definition returns_with {G A : Type} (inv : @world G -> Prop) (m : @M G A)
    (post : A -> Prop) : Prop :=
  forall w, inv w -> exists a w', m w = (Ok a, w') /\ post a /\ inv w'.

(** The methods of [get_loss] that are distances between the two columns. *)
Definition distance_like (method : string) : bool :=
  String.eqb method "euclidean" || String.eqb method "manhattan"
  || String.eqb method "area" || String.eqb method "hausdorff".

(** Their outcome on NaN-free sequences. *)
Definition plain_metric (method : string) (u v : list R) : option (res R) :=
  if String.eqb method "euclidean"
  then Some (if difference_overflows u v
             then Raise (ValueError "array must not contain infs or NaNs")
             else Ok (euclidean_R u v))
  else if String.eqb method "manhattan" then Some (Ok (cityblock_R u v))
  else if String.eqb method "area" then Some (Ok (cityblock_R u v))
  else if String.eqb method "hausdorff"
       then Some (Ok (Rmax (directed_hausdorff_R u v) (directed_hausdorff_R v u)))
  else None.

(** Values far inside the range of a double: NaN, or of magnitude at most
    [2^500].  No difference of two such values overflows, and no sum or
    sum of squares of fewer than [2^20] of them does. *)
Definition moderate_bound : R := IZR (2 ^ 500).

Definition moderate (x : f64) : Prop :=
  match x with
  | NaN => True
  | Fin r => Rabs r <= moderate_bound
  end.

(** * Properties *)

(** ** Floats and arrays *)

Lemma Rltb_true (x y : R) : x < y -> Rltb x y = true.
Proof. intros Hxy. unfold Rltb. destruct (Rlt_dec x y); [reflexivity | lra]. Qed.

Lemma Rltb_false (x y : R) : y <= x -> Rltb x y = false.
Proof. intros Hxy. unfold Rltb. destruct (Rlt_dec x y); [lra | reflexivity]. Qed.

Lemma all_fin_Fin (u : list R) : all_fin (map Fin u) = Some u.
Proof.
  induction u as [|x u IH]; simpl; [reflexivity|].
  now rewrite IH.
Qed.

Lemma valid_mask_Fin (u v : list R) :
  length u = length v ->
  valid_mask (map Fin u) (map Fin v) = replicate (length u) true.
Proof.
  revert v. induction u as [|x u IH]; intros [|y v] Hlen; simpl in *;
    try discriminate; [reflexivity|].
  f_equal. apply IH. congruence.
Qed.

Lemma compress_all (n : nat) (a : list f64) :
  n = length a -> compress (replicate n true) a = a.
Proof.
  intros ->. induction a as [|x a IH]; simpl; [reflexivity | now rewrite IH].
Qed.

Lemma compress_fst (a b : list f64) :
  compress (valid_mask a b) a = map fst (valid_pairs a b).
Proof.
  revert b. induction a as [|x a IH]; intros [|y b]; simpl; try reflexivity.
  unfold valid_pairs in *. simpl. rewrite filter_cons. simpl.
  destruct (negb (isnan x || isnan y)) eqn:E.
  - rewrite decide_True by reflexivity. simpl. now rewrite IH.
  - rewrite decide_False by (unfold is_true; congruence). apply IH.
Qed.

Lemma compress_snd (a b : list f64) :
  compress (valid_mask a b) b = map snd (valid_pairs a b).
Proof.
  revert b. induction a as [|x a IH]; intros [|y b]; simpl; try reflexivity.
  unfold valid_pairs in *. simpl. rewrite filter_cons. simpl.
  destruct (negb (isnan x || isnan y)) eqn:E.
  - rewrite decide_True by reflexivity. simpl. now rewrite IH.
  - rewrite decide_False by (unfold is_true; congruence). apply IH.
Qed.

(** Every pair that survives the mask is free of NaN on both sides, and a
    pair free of NaN survives. *)
Lemma valid_pairs_spec (a b : list f64) (p : f64 * f64) :
  p ∈ valid_pairs a b <->
  p ∈ zip a b /\ isnan (fst p) = false /\ isnan (snd p) = false.
Proof.
  unfold valid_pairs. rewrite list_elem_of_filter. unfold is_true.
  rewrite negb_true_iff, orb_false_iff. tauto.
Qed.

(** ** The metrics *)

Section Metrics.

Variable dtw_distance : list f64 -> list f64 -> f64.
Variable scipy_stats_hausdorff_distance : list f64 -> list f64 -> f64.

Local Abbreviation get_loss_value := (get_loss_value dtw_distance).
Local Abbreviation get_loss_method := (get_loss_method dtw_distance).
Local Abbreviation perform_distance_value :=
  (perform_distance_value dtw_distance scipy_stats_hausdorff_distance).
Local Abbreviation perform_distance_method :=
  (perform_distance_method dtw_distance scipy_stats_hausdorff_distance).

(** On sequences without NaN of equal positive length the mask keeps
    everything, and the loss is the metric of the sequences. *)
Lemma get_loss_value_Fin (method : string) (u v : list R) :
  length u = length v -> u <> [] ->
  get_loss_value method (map Fin u) (map Fin v)
  = get_loss_method method (map Fin u) (map Fin v).
Proof.
  intros Hlen Hne. unfold get_loss_value.
  rewrite valid_mask_Fin by assumption.
  rewrite !compress_all by (rewrite length_map; congruence).
  destruct u as [|x u]; [congruence|].
  destruct v as [|y v]; [discriminate|]. reflexivity.
Qed.

Lemma perform_distance_value_Fin (method : string) (u v : list R) :
  length u = length v -> u <> [] ->
  perform_distance_value method (map Fin u) (map Fin v)
  = perform_distance_method method (map Fin u) (map Fin v).
Proof.
  intros Hlen Hne. unfold perform_distance_value.
  rewrite valid_mask_Fin by assumption.
  rewrite !compress_all by (rewrite length_map; congruence).
  destruct u as [|x u]; [congruence|].
  destruct v as [|y v]; [discriminate|]. reflexivity.
Qed.

(** The inline "area" computation on NaN-free arrays. *)
Lemma np_sum_from (a : list f64) (s : R) (u : list R) :
  all_fin a = Some u -> fold_left fadd a (Fin s) = Fin (s + Rsum u).
Proof.
  revert s u. induction a as [|[|x] a IH]; intros s u Hfin; simpl in *.
  - injection Hfin as <-. simpl. f_equal. lra.
  - discriminate.
  - destruct (all_fin a) as [u'|]; [|discriminate].
    injection Hfin as <-. rewrite (IH _ u') by reflexivity.
    simpl. f_equal. lra.
Qed.

Lemma area_Fin (u v : list R) :
  np_sum (np_abs (np_sub (map Fin u) (map Fin v)))
  = Fin (Rsum (map (fun p => Rabs (fst p - snd p)) (zip u v))).
Proof.
  unfold np_sum. rewrite (np_sum_from _ 0 (map (fun p => Rabs (fst p - snd p)) (zip u v))).
  - f_equal. lra.
  - revert v. induction u as [|x u IH]; intros [|y v]; simpl; try reflexivity.
    unfold np_abs in IH. now rewrite IH.
Qed.

Lemma cityblock_Fin (u v : list R) :
  cityblock (map Fin u) (map Fin v)
  = Fin (Rsum (map (fun p => Rabs (fst p - snd p)) (zip u v))).
Proof.
  unfold cityblock, on_finite. rewrite !all_fin_Fin. f_equal.
  revert v. induction u as [|x u IH]; intros [|y v]; simpl; try reflexivity.
  now rewrite IH.
Qed.

(** *** Cauchy-Schwarz for [dot], and the range of the correlation *)

Lemma dot_self_nonneg (u : list R) : 0 <= dot u u.
Proof. induction u as [|x u IH]; simpl; [lra | nra]. Qed.

Lemma dot_cauchy_schwarz (u v : list R) :
  dot u v * dot u v <= dot u u * dot v v.
Proof.
  revert v. induction u as [|x u IH]; intros v.
  - simpl. pose proof (dot_self_nonneg v). lra.
  - destruct v as [|y v].
    + simpl. lra.
    + simpl. specialize (IH v).
      pose proof (dot_self_nonneg u) as HA.
      pose proof (dot_self_nonneg v) as HB.
      set (S := dot u v) in *. set (A := dot u u) in *. set (B := dot v v) in *.
      assert (Hq : 2 * (x * y * S) <= x * x * B + y * y * A).
      { destruct (Req_dec B 0) as [HB0|HB0].
        - assert (S = 0) by nra. subst S. nra.
        - assert (0 < B) by lra.
          pose proof (Rle_0_sqr (x * B - y * S)) as Hsq. unfold Rsqr in Hsq.
          assert (0 <= B * (x * x * B + y * y * A - 2 * (x * y * S))) by nra.
          nra. }
      nra.
Qed.

Lemma pearson_range (u v : list R) (r : R) :
  pearson u v = Fin r -> -1 <= r <= 1.
Proof.
  unfold pearson, fdiv.
  set (uv := dot (center u) (center v)).
  set (s := sqrt (_ * _)).
  destruct (Req_dec_T s 0) as [|Hs]; [discriminate|].
  intros [= <-].
  assert (Hs0 : 0 <= s) by apply sqrt_pos.
  assert (Hss : s * s = dot (center u) (center u) * dot (center v) (center v)).
  { apply sqrt_sqrt. apply Rmult_le_pos; apply dot_self_nonneg. }
  pose proof (dot_cauchy_schwarz (center u) (center v)) as Hcs. fold uv in Hcs.
  assert (Hpos : 0 < s) by lra.
  split.
  - apply Rmult_le_reg_r with s; [assumption|].
    unfold Rdiv. rewrite Rmult_assoc, Rinv_l by assumption. nra.
  - apply Rmult_le_reg_r with s; [assumption|].
    unfold Rdiv. rewrite Rmult_assoc, Rinv_l by assumption. nra.
Qed.

(** What the "correlation" branch returns: scipy's [correlation] is
    already the distance [1 - r], so [1 - corr] is the coefficient [r]
    itself; sentinel 1000 where [r] is undefined. *)
Lemma correlation_branch (u v : list R) :
  get_loss_method "correlation" (map Fin u) (map Fin v)
  = Ok (match pearson u v with Fin r => Fin r | NaN => Fin 1000 end).
Proof.
  unfold get_loss_method. cbn [String.eqb Ascii.eqb Bool.eqb].
  unfold correlation, on_finite. rewrite !all_fin_Fin.
  pose proof (pearson_range u v) as Hrange.
  unfold correlation_R. unfold pearson in *.
  destruct (fdiv _ _) as [|r]; simpl; [reflexivity|].
  specialize (Hrange r eq_refl). do 2 f_equal.
  rewrite Rmin_right by lra. rewrite Rmax_right by lra. lra.
Qed.

Lemma correlation_branch_perform (u v : list R) :
  perform_distance_method "correlation" (map Fin u) (map Fin v)
  = Ok (match pearson u v with Fin r => Fin r | NaN => Fin 1000 end).
Proof.
  unfold perform_distance_method. cbn [String.eqb Ascii.eqb Bool.eqb].
  unfold correlation, on_finite. rewrite !all_fin_Fin.
  pose proof (pearson_range u v) as Hrange.
  unfold correlation_R. unfold pearson in *.
  destruct (fdiv _ _) as [|r]; simpl; [reflexivity|].
  specialize (Hrange r eq_refl). do 2 f_equal.
  rewrite Rmin_right by lra. rewrite Rmax_right by lra. lra.
Qed.

Lemma pearson_123 : pearson [1; 2; 3] [1; 2; 3] = Fin 1.
Proof.
  unfold pearson, center, np_mean. cbn [length map Rsum fold_right dot INR].
  replace ((1 + (2 + (3 + 0))) / (1 + 1 + 1)) with 2 by lra.
  replace ((1 - 2) * (1 - 2) + ((2 - 2) * (2 - 2) + ((3 - 2) * (3 - 2) + 0)))
    with 2 by lra.
  replace (2 * 2) with (Rsqr 2) by (unfold Rsqr; lra).
  rewrite sqrt_Rsqr by lra. unfold fdiv.
  destruct (Req_dec_T 2 0); [lra|]. f_equal. lra.
Qed.

(** C1, at the specification's own scenario: with reference and sampled
    values both [1, 2, 3] the "correlation" loss of [get_loss] and of
    [perform_distance] is 1, the Pearson coefficient itself, where
    1 minus the coefficient is 0. *)
Theorem correlation_loss_of_identical_sequences :
  get_loss_value "correlation" [Fin 1; Fin 2; Fin 3] [Fin 1; Fin 2; Fin 3]
    = Ok (Fin 1)
  /\ perform_distance_value "correlation"
       [Fin 1; Fin 2; Fin 3] [Fin 1; Fin 2; Fin 3] = Ok (Fin 1)
  /\ fsub (Fin 1) (pearson [1; 2; 3] [1; 2; 3]) = Fin 0.
Proof.
  change [Fin 1; Fin 2; Fin 3] with (map Fin [1; 2; 3]).
  rewrite get_loss_value_Fin, perform_distance_value_Fin by (simpl; congruence).
  rewrite correlation_branch, correlation_branch_perform, pearson_123.
  repeat split. simpl. f_equal. lra.
Qed.

(** The same on every input of the claim: the loss is the coefficient. *)
Lemma correlation_loss_is_pearson (u v : list R) (r : R) :
  length u = length v -> u <> [] -> pearson u v = Fin r ->
  get_loss_value "correlation" (map Fin u) (map Fin v) = Ok (Fin r)
  /\ perform_distance_value "correlation" (map Fin u) (map Fin v) = Ok (Fin r).
Proof.
  intros Hlen Hne Hr.
  rewrite get_loss_value_Fin, perform_distance_value_Fin by assumption.
  rewrite correlation_branch, correlation_branch_perform, Hr. split; reflexivity.
Qed.

Lemma correlation_loss_undefined (u v : list R) :
  length u = length v -> u <> [] -> pearson u v = NaN ->
  get_loss_value "correlation" (map Fin u) (map Fin v) = Ok (Fin 1000)
  /\ perform_distance_value "correlation" (map Fin u) (map Fin v)
     = Ok (Fin 1000).
Proof.
  intros Hlen Hne Hr.
  rewrite get_loss_value_Fin, perform_distance_value_Fin by assumption.
  rewrite correlation_branch, correlation_branch_perform, Hr. split; reflexivity.
Qed.

(** C7: on NaN-free sequences of equal positive length, "manhattan" and
    "area" are both accepted, by [get_loss] and by [perform_distance], and
    both give the sum of the absolute pointwise differences. *)
Theorem manhattan_equals_area (u v : list R) :
  length u = length v -> u <> [] ->
  let s := Rsum (map (fun p => Rabs (fst p - snd p)) (zip u v)) in
  get_loss_value "manhattan" (map Fin u) (map Fin v) = Ok (Fin s)
  /\ get_loss_value "area" (map Fin u) (map Fin v) = Ok (Fin s)
  /\ perform_distance_value "manhattan" (map Fin u) (map Fin v) = Ok (Fin s)
  /\ perform_distance_value "area" (map Fin u) (map Fin v) = Ok (Fin s).
Proof.
  intros Hlen Hne s.
  rewrite !get_loss_value_Fin, !perform_distance_value_Fin by assumption.
  unfold get_loss_method, perform_distance_method.
  cbn [String.eqb Ascii.eqb Bool.eqb].
  rewrite cityblock_Fin, area_Fin. repeat split; reflexivity.
Qed.

End Metrics.

Lemma manhattan_equals_area_witness :
  get_loss_value no_dtw "manhattan" (map Fin [1; 5]) (map Fin [4; 3])
  = get_loss_value no_dtw "area" (map Fin [1; 5]) (map Fin [4; 3]).
Proof.
  destruct (manhattan_equals_area no_dtw no_dtw [1; 5] [4; 3])
    as (H1 & H2 & _); [reflexivity | congruence |].
  rewrite H1, H2. reflexivity.
Defined.

(** C8: the Hausdorff distance of [get_loss] is symmetric on non-empty
    NaN-free sequences. *)
Theorem hausdorff_distance_symmetric (u v : list R) :
  u <> [] -> v <> [] ->
  hausdorff_distance (map Fin u) (map Fin v)
  = hausdorff_distance (map Fin v) (map Fin u).
Proof.
  intros _ _. unfold hausdorff_distance, directed_hausdorff, on_finite.
  rewrite !all_fin_Fin. unfold py_max, fltb, Rltb.
  set (f := directed_hausdorff_R u v). set (b := directed_hausdorff_R v u).
  destruct (Rlt_dec f b), (Rlt_dec b f); try reflexivity; f_equal; lra.
Qed.

Lemma hausdorff_distance_symmetric_witness :
  hausdorff_distance (map Fin [1; 2]) (map Fin [4])
  = hausdorff_distance (map Fin [4]) (map Fin [1; 2]).
Proof. apply hausdorff_distance_symmetric; congruence. Defined.

(** ** Running the monad *)

Section Pipeline.

Context {G : Type} `{RandomGen G}.
Variables Raster Affine : Type.
Variable mask_valid : Raster -> Affine -> Shape -> option (list f64).
Variable proj_transform : Z -> Z -> R * R -> R * R.
Variable dtw_distance : list f64 -> list f64 -> f64.
Variable scipy_stats_hausdorff_distance : list f64 -> list f64 -> f64.

Local Abbreviation W := (@world G).
Local Abbreviation position_adjustment := (position_adjustment proj_transform).
Local Abbreviation extract_values :=
  (extract_values Raster Affine mask_valid proj_transform).
Local Abbreviation extract_row := (extract_row Raster Affine mask_valid).
Local Abbreviation row_value := (row_value Raster Affine mask_valid).
Local Abbreviation row_sample := (row_sample Raster Affine mask_valid).
Local Abbreviation sampled_cells := (sampled_cells Raster Affine mask_valid).
Local Abbreviation extracted_frame := (extracted_frame Raster Affine mask_valid).
Local Abbreviation get_loss :=
  (get_loss Raster Affine mask_valid proj_transform dtw_distance).
Local Abbreviation perform_distance :=
  (perform_distance Raster Affine mask_valid proj_transform dtw_distance
                    scipy_stats_hausdorff_distance).
Local Abbreviation minimize_loss :=
  (minimize_loss Raster Affine mask_valid proj_transform dtw_distance).
Local Abbreviation positional_correction :=
  (positional_correction Raster Affine mask_valid proj_transform dtw_distance).
Local Abbreviation reproject := (reproject proj_transform).
Local Abbreviation reprojected_frame := (reprojected_frame proj_transform).

Lemma run_bind {A B : Type} (m : M A) (k : A -> M B) (w w' : W) (a : A) :
  m w = (Ok a, w') -> (m ≫= k) w = k a w'.
Proof. intros Hm. unfold mbind, M_bind. now rewrite Hm. Qed.

Lemma run_bind_raise {A B : Type} (m : M A) (k : A -> M B) (w w' : W) (e : exn) :
  m w = (Raise e, w') -> (m ≫= k) w = (Raise e, w').
Proof. intros Hm. unfold mbind, M_bind. now rewrite Hm. Qed.

Lemma run_ret {A B : Type} (a : A) (k : A -> M B) (w : W) :
  (mret a ≫= k) w = k a w.
Proof. reflexivity. Qed.

Lemma run_deref {B : Type} (r : ref) (g : GeoDataFrame) (k : GeoDataFrame -> M B)
    (w : W) :
  heap w !! r = Some g -> (deref r ≫= k) w = k g w.
Proof. intros Hr. apply run_bind. unfold deref. now rewrite Hr. Qed.

Lemma run_alloc {B : Type} (g : GeoDataFrame) (k : ref -> M B) (w : W) :
  (alloc g ≫= k) w = k (length (heap w)) (mkWorld (heap w ++ [g]) (rng w)).
Proof. reflexivity. Qed.

Lemma run_modify {B : Type} (r : ref) (f : GeoDataFrame -> GeoDataFrame)
    (k : unit -> M B) (w : W) :
  (modify r f ≫= k) w = k tt (mkWorld (alter f r (heap w)) (rng w)).
Proof. reflexivity. Qed.

Lemma alter_last {A : Type} (f : A -> A) (h : list A) (x : A) :
  alter f (length h) (h ++ [x]) = h ++ [f x].
Proof.
  replace (length h) with (length h + 0)%nat by lia.
  now rewrite alter_app_r.
Qed.

Lemma lookup_last {A : Type} (h : list A) (x : A) :
  (h ++ [x]) !! length h = Some x.
Proof. now apply list_lookup_middle. Qed.

Lemma run_to_crs (r : ref) (code src : Z) (g : GeoDataFrame) (w : W) :
  heap w !! r = Some g -> gdf_crs g = Some src ->
  to_crs proj_transform r code w
  = (Ok (length (heap w)),
     mkWorld (heap w ++ [reprojected_frame src code g]) (rng w)).
Proof.
  intros Hr Hcrs. unfold to_crs. rewrite (run_deref _ g) by assumption.
  now rewrite Hcrs.
Qed.

Lemma run_copy (r : ref) (g : GeoDataFrame) (w : W) :
  heap w !! r = Some g ->
  copy r w = (Ok (length (heap w)), mkWorld (heap w ++ [g]) (rng w)).
Proof. intros Hr. unfold copy. now rewrite (run_deref _ g) by assumption. Qed.

(** *** position_adjustment *)

Lemma reproject_same (code : Z) (g : Geometry) : reproject code code g = g.
Proof. destruct g; simpl; [reflexivity|]. now rewrite Z.eqb_refl. Qed.

Lemma reproject_is_empty (src code : Z) (g : Geometry) :
  is_empty (reproject src code g) = is_empty g.
Proof.
  destruct g as [|x y]; simpl; [reflexivity|].
  destruct (Z.eqb src code); [reflexivity|].
  now destruct (proj_transform src code (x, y)).
Qed.

Lemma centroid_coords_no_empty (gs : list Geometry) (coords : list (R * R)) :
  centroid_coords gs = Some coords -> existsb is_empty gs = false.
Proof.
  revert coords. induction gs as [|[|x y] gs IH]; intros coords Hc; simpl in *;
    [reflexivity | discriminate |].
  destruct (centroid_coords gs) as [cs|]; [|discriminate]. now apply (IH cs).
Qed.

Lemma centroid_coords_length (gs : list Geometry) (coords : list (R * R)) :
  centroid_coords gs = Some coords -> length coords = length gs.
Proof.
  revert coords. induction gs as [|[|x y] gs IH]; intros coords Hc; simpl in *.
  - now injection Hc as <-.
  - discriminate.
  - destruct (centroid_coords gs) as [cs|]; [|discriminate].
    injection Hc as <-. simpl. f_equal. now apply IH.
Qed.

Lemma centroid_coords_lookup (gs : list Geometry) (coords : list (R * R))
    (i : nat) (x y : R) :
  centroid_coords gs = Some coords ->
  gs !! i = Some (Point x y) -> coords !! i = Some (x, y).
Proof.
  revert coords i. induction gs as [|[|x' y'] gs IH]; intros coords i Hc Hi;
    simpl in *; try discriminate.
  destruct (centroid_coords gs) as [cs|]; [|discriminate].
  injection Hc as <-. destruct i as [|i]; simpl in *.
  - now injection Hi as -> ->.
  - now apply IH.
Qed.

Lemma existsb_is_empty_map (src code : Z) (gs : list Geometry) :
  existsb is_empty (map (reproject src code) gs) = existsb is_empty gs.
Proof.
  induction gs as [|g gs IH]; simpl; [reflexivity|].
  now rewrite reproject_is_empty, IH.
Qed.

(** The run of [position_adjustment] on a frame with a CRS and without
    empty geometry: three frames are appended to the heap, the reprojected
    one, its copy with the original coordinates, and the shifted one, which
    is returned; nothing else changes. *)
Lemma position_adjustment_run (gdf : ref) (add_x add_y : R) (code src : Z)
    (g : GeoDataFrame) (coords : list (R * R)) (w : W) :
  heap w !! gdf = Some g ->
  gdf_crs g = Some src ->
  centroid_coords (map (reproject src code) (gdf_geometry g)) = Some coords ->
  coords <> [] ->
  let g1 := reprojected_frame src code g in
  let g2 := origin_frame g1 coords in
  let g3 := shifted_frame code add_x add_y coords g2 in
  position_adjustment gdf add_x add_y code w
  = (Ok (length (heap w) + 2)%nat, mkWorld (heap w ++ [g1; g2; g3]) (rng w)).
Proof.
  intros Hg Hcrs Hcoords Hne g1 g2 g3.
  unfold position_adjustment.
  rewrite (run_deref _ g) by assumption.
  pose proof (centroid_coords_no_empty _ _ Hcoords) as Hempty.
  rewrite existsb_is_empty_map in Hempty. rewrite Hempty.
  rewrite (run_bind _ _ _ _ _ (run_to_crs gdf code src g w Hg Hcrs)).
  rewrite (run_deref _ g1)
    by (simpl; now apply list_lookup_middle).
  change (gdf_geometry g1) with (map (reproject src code) (gdf_geometry g)).
  rewrite Hcoords.
  erewrite run_bind; cycle 1.
  { apply run_copy with (g := g1). simpl. now apply list_lookup_middle. }
  destruct coords as [|c coords]; [congruence|].
  rewrite !run_modify. simpl heap. simpl rng.
  rewrite !alter_last.
  rewrite (run_deref _ g2) by (simpl; apply lookup_last).
  unfold alloc. simpl heap. simpl rng.
  rewrite !length_app. simpl length.
  rewrite <- !(assoc_L (++)). simpl app.
  f_equal. f_equal. lia.
Qed.

(** *** extract_values *)

Lemma with_cell_with_column (g : GeoDataFrame) (name : string)
    (values : list f64) (idx : Z) (v : f64) :
  with_cell (with_column g name values) name idx v
  = with_column g name (set_label idx v (gdf_index g) values).
Proof.
  unfold with_cell, with_column. simpl. f_equal.
  now rewrite alter_insert_eq.
Qed.

Lemma run_try_ok {A : Type} (body : M A) (handler : exn -> M A) (w w' : W) (a : A) :
  body w = (Ok a, w') -> try_except body handler w = (Ok a, w').
Proof. intros Hb. unfold try_except. now rewrite Hb. Qed.

(** One turn of the loop writes the sample of its row to the rows that
    carry its label, or leaves the column as it is; it never raises. *)
Lemma extract_row_run (h0 : list GeoDataFrame) (g0 : GeoDataFrame)
    (raster : Raster) (tr : Affine) (buf : R) (stat : string)
    (cells : list f64) (idx : Z) (geom : Geometry) (gen : G) :
  extract_row (length h0) raster tr buf stat (idx, geom)
    (mkWorld (h0 ++ [with_column g0 "extracted_value" cells]) gen)
  = (Ok tt,
     mkWorld (h0 ++ [with_column g0 "extracted_value"
                       (match row_sample raster tr buf stat geom with
                        | Some v => set_label idx v (gdf_index g0) cells
                        | None => cells
                        end)]) gen).
Proof.
  unfold extract_row, row_sample, try_except.
  destruct (mask_valid raster tr _) as [valid_data|]; [|reflexivity].
  destruct (0 <? length valid_data)%nat; [|reflexivity].
  destruct (statistic stat valid_data) as [v|]; [|reflexivity].
  unfold modify. simpl. now rewrite alter_last, with_cell_with_column.
Qed.

Lemma extract_rows_run (h0 : list GeoDataFrame) (g0 : GeoDataFrame)
    (raster : Raster) (tr : Affine) (buf : R) (stat : string)
    (rows : list (Z * Geometry)) (cells : list f64) (gen : G) :
  for_each rows (extract_row (length h0) raster tr buf stat)
    (mkWorld (h0 ++ [with_column g0 "extracted_value" cells]) gen)
  = (Ok tt,
     mkWorld (h0 ++ [with_column g0 "extracted_value"
                       (fold_left
                          (fun cells row =>
                             match row_sample raster tr buf stat
                                     (snd row) with
                             | Some v => set_label (fst row) v (gdf_index g0) cells
                             | None => cells
                             end)
                          rows cells)]) gen).
Proof.
  revert cells. induction rows as [|[idx geom] rows IH]; intros cells.
  - reflexivity.
  - cbn [for_each fold_left fst snd].
    erewrite run_bind by apply extract_row_run.
    apply IH.
Qed.

(** The run of [extract_values] without reprojection: the copy with the
    column of extracted values is appended to the heap and returned,
    whatever the statistic's name. *)
Lemma extract_values_run (gdf : ref) (raster : Raster) (tr : Affine)
    (buf : R) (stat : string) (g : GeoDataFrame) (src : Z) (w : W) :
  heap w !! gdf = Some g ->
  gdf_crs g = Some src ->
  extract_values gdf raster tr buf stat None w
  = (Ok (length (heap w)),
     mkWorld (heap w ++ [extracted_frame raster tr buf stat g]) (rng w)).
Proof.
  intros Hg Hcrs. unfold extract_values.
  rewrite run_ret.
  erewrite run_bind by (apply run_copy; eassumption).
  rewrite run_modify. simpl heap. simpl rng. rewrite alter_last.
  rewrite (run_deref _ g) by (simpl; now apply lookup_app_l_Some).
  unfold crs_to_epsg. rewrite Hcrs, run_ret.
  erewrite run_deref by (simpl; apply lookup_last).
  simpl gdf_geometry. unfold gdf_len.
  simpl gdf_index.
  erewrite run_bind by apply extract_rows_run. reflexivity.
Qed.

(** The same with a reprojection to [code] first. *)
Lemma extract_values_run_crs (gdf : ref) (raster : Raster) (tr : Affine)
    (buf : R) (stat : string) (g : GeoDataFrame) (src code : Z) (w : W) :
  heap w !! gdf = Some g ->
  gdf_crs g = Some src ->
  let g1 := reprojected_frame src code g in
  extract_values gdf raster tr buf stat (Some code) w
  = (Ok (length (heap w) + 1)%nat,
     mkWorld (heap w ++ [g1; extracted_frame raster tr buf stat g1]) (rng w)).
Proof.
  intros Hg Hcrs g1. unfold extract_values.
  erewrite run_bind by (apply run_to_crs; eassumption).
  erewrite run_bind by (apply run_copy; simpl; apply lookup_last).
  rewrite run_modify. simpl heap. simpl rng. rewrite alter_last.
  erewrite run_deref
    by (simpl; apply lookup_app_l_Some; apply lookup_last).
  rewrite run_ret.
  erewrite run_deref by (simpl; apply lookup_last).
  simpl gdf_geometry. unfold gdf_len.
  simpl gdf_index.
  erewrite run_bind by apply (extract_rows_run (heap w ++ [g1])).
  unfold mret, M_ret. rewrite length_app. simpl length.
  rewrite <- (assoc_L (++)). reflexivity.
Qed.

(** *** get_loss and perform_distance *)

Lemma get_loss_value_spec (method : string) (a b : list f64) :
  get_loss_value dtw_distance method a b
  = spec_loss (get_loss_method dtw_distance method) a b.
Proof.
  unfold get_loss_value, spec_loss.
  rewrite compress_fst, compress_snd, !length_map.
  destruct (valid_pairs a b); reflexivity.
Qed.

Lemma perform_distance_value_spec (method : string) (a b : list f64) :
  perform_distance_value dtw_distance scipy_stats_hausdorff_distance method a b
  = spec_loss (perform_distance_method dtw_distance
                 scipy_stats_hausdorff_distance method) a b.
Proof.
  unfold perform_distance_value, spec_loss.
  rewrite compress_fst, compress_snd, !length_map.
  destruct (valid_pairs a b); reflexivity.
Qed.

(** Once the adjustment and the extraction have run, what is on the heap
    and which frame is returned do not depend on the method, the reference
    column or the metric. *)
Lemma get_loss_after_extraction (lidar_footprints : ref) (add_x add_y buf : R)
    (raster : Raster) (tr : Affine) (method stat : string)
    (crs_code : option Z) (lidar_value : option string)
    (g : GeoDataFrame) (code : Z) (adjusted extracted : ref) (w w1 w2 : W) :
  heap w !! lidar_footprints = Some g ->
  names_missing_column lidar_value g = false ->
  crs_code_or_epsg crs_code g w = (Ok code, w) ->
  position_adjustment lidar_footprints add_x add_y code w = (Ok adjusted, w1) ->
  extract_values adjusted raster tr buf stat crs_code w1 = (Ok extracted, w2) ->
  get_loss lidar_footprints add_x add_y buf raster tr method stat crs_code
           lidar_value w
  = match lidar_value with
    | None => (Ok (mkLoss (Fin 0) extracted), w2)
    | Some name =>
        match heap w2 !! extracted with
        | Some e =>
            match gdf_columns e !! name, gdf_columns e !! "extracted_value" with
            | Some lidar_values, Some raster_values =>
                (loss_outcome
                   (get_loss_value dtw_distance method lidar_values raster_values)
                   extracted, w2)
            | Some _, None => (Raise (KeyError "extracted_value"), w2)
            | None, _ => (Raise (KeyError name), w2)
            end
        | None => (Raise ReferenceError, w2)
        end
    end.
Proof.
  intros Hg Hcol Hcode Hadj Hext. unfold get_loss.
  rewrite (run_deref _ g) by assumption. rewrite Hcol.
  rewrite (run_bind _ _ _ _ _ Hcode), (run_bind _ _ _ _ _ Hadj),
    (run_bind _ _ _ _ _ Hext).
  destruct lidar_value as [name|]; [|reflexivity].
  unfold mbind at 1. unfold M_bind, deref.
  destruct (heap w2 !! extracted) as [e|]; [|reflexivity].
  unfold column_values.
  destruct (gdf_columns e !! name) as [lidar_values|]; [|reflexivity].
  rewrite run_ret.
  destruct (gdf_columns e !! "extracted_value") as [raster_values|];
    [|reflexivity].
  rewrite run_ret. unfold mbind, M_bind, lift_res.
  destruct (get_loss_value _ _ _ _); reflexivity.
Qed.

Lemma perform_distance_after_extraction (gdf : ref) (raster : Raster)
    (tr : Affine) (method : string) (buf : R) (stat : string)
    (crs_code : option Z) (value_column : option string)
    (g : GeoDataFrame) (extracted : ref) (w w1 : W) :
  heap w !! gdf = Some g ->
  names_missing_column value_column g = false ->
  extract_values gdf raster tr buf stat crs_code w = (Ok extracted, w1) ->
  perform_distance gdf raster tr method buf stat crs_code value_column w
  = match value_column with
    | None => (Ok (Fin 0), w1)
    | Some name =>
        match heap w1 !! extracted with
        | Some e =>
            match gdf_columns e !! name, gdf_columns e !! "extracted_value" with
            | Some point_values, Some raster_values =>
                (perform_distance_value dtw_distance
                   scipy_stats_hausdorff_distance method
                   point_values raster_values, w1)
            | Some _, None => (Raise (KeyError "extracted_value"), w1)
            | None, _ => (Raise (KeyError name), w1)
            end
        | None => (Raise ReferenceError, w1)
        end
    end.
Proof.
  intros Hg Hcol Hext. unfold perform_distance.
  rewrite (run_deref _ g) by assumption. rewrite Hcol.
  rewrite (run_bind _ _ _ _ _ Hext).
  destruct value_column as [name|]; [|reflexivity].
  unfold mbind at 1. unfold M_bind, deref.
  destruct (heap w1 !! extracted) as [e|]; [|reflexivity].
  unfold column_values.
  destruct (gdf_columns e !! name) as [point_values|]; [|reflexivity].
  rewrite run_ret.
  destruct (gdf_columns e !! "extracted_value") as [raster_values|];
    reflexivity.
Qed.

Lemma spec_loss_no_pairs (metric : list f64 -> list f64 -> res f64)
    (a b : list f64) :
  valid_pairs a b = [] -> spec_loss metric a b = Ok (Fin 1000).
Proof. intros Hnil. unfold spec_loss. now rewrite Hnil. Qed.

Lemma spec_loss_pairs (metric : list f64 -> list f64 -> res f64)
    (a b : list f64) :
  valid_pairs a b <> [] ->
  spec_loss metric a b
  = metric (map fst (valid_pairs a b)) (map snd (valid_pairs a b)).
Proof. intros Hne. unfold spec_loss. now destruct (valid_pairs a b). Qed.

Lemma get_loss_method_unsupported (method : string) (a b : list f64) :
  supported_method method = false ->
  get_loss_method dtw_distance method a b
  = Raise (ValueError ("Unsupported minimizing method: " +:+ method)).
Proof.
  unfold supported_method, get_loss_method. intros Hm.
  repeat (apply orb_false_elim in Hm; destruct Hm as [Hm ?]).
  repeat match goal with E : String.eqb _ _ = false |- _ => rewrite E; clear E end.
  reflexivity.
Qed.

Lemma perform_distance_method_unsupported (method : string) (a b : list f64) :
  supported_method method = false ->
  perform_distance_method dtw_distance scipy_stats_hausdorff_distance method a b
  = Raise (ValueError ("Unsupported distance method: " +:+ method)).
Proof.
  unfold supported_method, perform_distance_method. intros Hm.
  repeat (apply orb_false_elim in Hm; destruct Hm as [Hm ?]).
  repeat match goal with E : String.eqb _ _ = false |- _ => rewrite E; clear E end.
  reflexivity.
Qed.

(** What the two evaluators do with the reference and the sampled column
    once the adjustment and the extraction have returned: the sentinel
    1000 when no pair free of NaN remains, whatever the metric would do,
    and else the outcome of the metric of the chosen name on the remaining
    reference and sampled values.  Whether the adjustment returns is
    another matter: on a frame without rows it does not. *)
Lemma evaluators_after_extraction
    (gdf : ref) (add_x add_y buf : R) (raster : Raster) (tr : Affine)
    (method stat name : string) (crs_code : option Z)
    (g e : GeoDataFrame) (reference sampled : list f64) :
  lacks_column g name = false ->
  (forall (code : Z) (adjusted extracted : ref) (w w1 w2 : W),
     heap w !! gdf = Some g ->
     crs_code_or_epsg crs_code g w = (Ok code, w) ->
     position_adjustment gdf add_x add_y code w = (Ok adjusted, w1) ->
     extract_values adjusted raster tr buf stat crs_code w1 = (Ok extracted, w2) ->
     heap w2 !! extracted = Some e ->
     gdf_columns e !! name = Some reference ->
     gdf_columns e !! "extracted_value" = Some sampled ->
     get_loss gdf add_x add_y buf raster tr method stat crs_code (Some name) w
     = (loss_outcome
          (match valid_pairs reference sampled with
           | [] => Ok (Fin 1000)
           | ps => get_loss_method dtw_distance method
                     (map fst ps) (map snd ps)
           end) extracted, w2))
  /\
  (forall (extracted : ref) (w w1 : W),
     heap w !! gdf = Some g ->
     extract_values gdf raster tr buf stat crs_code w = (Ok extracted, w1) ->
     heap w1 !! extracted = Some e ->
     gdf_columns e !! name = Some reference ->
     gdf_columns e !! "extracted_value" = Some sampled ->
     perform_distance gdf raster tr method buf stat crs_code (Some name) w
     = (match valid_pairs reference sampled with
        | [] => Ok (Fin 1000)
        | ps => perform_distance_method dtw_distance
                  scipy_stats_hausdorff_distance method
                  (map fst ps) (map snd ps)
        end, w1)).
Proof.
  intros Hcol. split.
  - intros code adjusted extracted w w1 w2 Hg Hcode Hadj Hext He Href Hsam.
    rewrite (get_loss_after_extraction gdf add_x add_y buf raster tr method stat
               crs_code (Some name) g code adjusted extracted w w1 w2)
      by (try assumption; exact Hcol).
    rewrite He, Href, Hsam, get_loss_value_spec. reflexivity.
  - intros extracted w w1 Hg Hext He Href Hsam.
    rewrite (perform_distance_after_extraction gdf raster tr method buf stat
               crs_code (Some name) g extracted w w1)
      by (try assumption; exact Hcol).
    rewrite He, Href, Hsam, perform_distance_value_spec. reflexivity.
Qed.

(** C10: the method name is looked at only when a reference column is
    supplied and a valid pair remains.  For every name, supported or not,
    and once the adjustment and the extraction have run: without reference
    column the loss is 0; with one and no valid pair it is the sentinel
    1000; with a valid pair an unsupported name raises [ValueError]. *)
Theorem method_name_checked_last
    (gdf : ref) (add_x add_y buf : R) (raster : Raster) (tr : Affine)
    (method stat : string) (crs_code : option Z) (g : GeoDataFrame) :
  (forall (code : Z) (adjusted extracted : ref) (w w1 w2 : W),
     heap w !! gdf = Some g ->
     crs_code_or_epsg crs_code g w = (Ok code, w) ->
     position_adjustment gdf add_x add_y code w = (Ok adjusted, w1) ->
     extract_values adjusted raster tr buf stat crs_code w1 = (Ok extracted, w2) ->
     get_loss gdf add_x add_y buf raster tr method stat crs_code None w
     = (Ok (mkLoss (Fin 0) extracted), w2)
     /\ forall (name : string) (e : GeoDataFrame) (reference sampled : list f64),
          lacks_column g name = false ->
          heap w2 !! extracted = Some e ->
          gdf_columns e !! name = Some reference ->
          gdf_columns e !! "extracted_value" = Some sampled ->
          (valid_pairs reference sampled = [] ->
           get_loss gdf add_x add_y buf raster tr method stat crs_code
                    (Some name) w
           = (Ok (mkLoss (Fin 1000) extracted), w2))
          /\ (valid_pairs reference sampled <> [] ->
              supported_method method = false ->
              get_loss gdf add_x add_y buf raster tr method stat crs_code
                       (Some name) w
              = (Raise (ValueError ("Unsupported minimizing method: "
                                    +:+ method)), w2)))
  /\
  (forall (extracted : ref) (w w1 : W),
     heap w !! gdf = Some g ->
     extract_values gdf raster tr buf stat crs_code w = (Ok extracted, w1) ->
     perform_distance gdf raster tr method buf stat crs_code None w
     = (Ok (Fin 0), w1)
     /\ forall (name : string) (e : GeoDataFrame) (reference sampled : list f64),
          lacks_column g name = false ->
          heap w1 !! extracted = Some e ->
          gdf_columns e !! name = Some reference ->
          gdf_columns e !! "extracted_value" = Some sampled ->
          (valid_pairs reference sampled = [] ->
           perform_distance gdf raster tr method buf stat crs_code
                            (Some name) w
           = (Ok (Fin 1000), w1))
          /\ (valid_pairs reference sampled <> [] ->
              supported_method method = false ->
              perform_distance gdf raster tr method buf stat crs_code
                               (Some name) w
              = (Raise (ValueError ("Unsupported distance method: "
                                    +:+ method)), w1))).
Proof.
  split.
  - intros code adjusted extracted w w1 w2 Hg Hcode Hadj Hext. split.
    + now rewrite (get_loss_after_extraction gdf add_x add_y buf raster tr
                     method stat crs_code None g code adjusted extracted w w1 w2).
    + intros name e reference sampled Hcol He Href Hsam.
      rewrite (get_loss_after_extraction gdf add_x add_y buf raster tr method
                 stat crs_code (Some name) g code adjusted extracted w w1 w2)
        by (try assumption; exact Hcol).
      rewrite He, Href, Hsam, get_loss_value_spec. split.
      * intros Hnil. now rewrite spec_loss_no_pairs.
      * intros Hne Hm. rewrite spec_loss_pairs by assumption.
        now rewrite get_loss_method_unsupported.
  - intros extracted w w1 Hg Hext. split.
    + now rewrite (perform_distance_after_extraction gdf raster tr method buf
                     stat crs_code None g extracted w w1).
    + intros name e reference sampled Hcol He Href Hsam.
      rewrite (perform_distance_after_extraction gdf raster tr method buf stat
                 crs_code (Some name) g extracted w w1)
        by (try assumption; exact Hcol).
      rewrite He, Href, Hsam, perform_distance_value_spec. split.
      * intros Hnil. now rewrite spec_loss_no_pairs.
      * intros Hne Hm. rewrite spec_loss_pairs by assumption.
        now rewrite perform_distance_method_unsupported.
Qed.

(** *** The properties of position_adjustment and extract_values *)

(** C9: on a non-empty collection of points held in the CRS [code],
    [position_adjustment] returns a new frame whose i-th point is the i-th
    original point shifted by [(add_x, add_y)], whose columns ['orig_x'] and
    ['orig_y'] hold the original coordinates, and it leaves every frame
    that was on the heap, the input among them, as it was. *)
Theorem position_adjustment_shifts_points (gdf : ref) (add_x add_y : R)
    (code : Z) (g : GeoDataFrame) (w : W) :
  heap w !! gdf = Some g ->
  gdf_crs g = Some code ->
  gdf_geometry g <> [] ->
  existsb is_empty (gdf_geometry g) = false ->
  exists (adjusted : ref) (g' : GeoDataFrame) (xs ys : list f64) (w' : W),
    position_adjustment gdf add_x add_y code w = (Ok adjusted, w')
    /\ heap w' !! adjusted = Some g'
    /\ adjusted <> gdf
    /\ (forall r : ref, (r < length (heap w))%nat -> heap w' !! r = heap w !! r)
    /\ heap w' !! gdf = Some g
    /\ length (gdf_geometry g') = length (gdf_geometry g)
    /\ gdf_columns g' !! "orig_x" = Some xs
    /\ gdf_columns g' !! "orig_y" = Some ys
    /\ forall (i : nat) (x y : R),
         gdf_geometry g !! i = Some (Point x y) ->
         gdf_geometry g' !! i = Some (Point (x + add_x) (y + add_y))
         /\ xs !! i = Some (Fin x)
         /\ ys !! i = Some (Fin y).
Proof.
  intros Hg Hcrs Hne Hpoints.
  assert (Hmap : map (reproject code code) (gdf_geometry g) = gdf_geometry g).
  { rewrite <- (map_id (gdf_geometry g)) at 2. apply map_ext.
    intros a. apply reproject_same. }
  assert (Hcoords : exists coords, centroid_coords (gdf_geometry g) = Some coords).
  { clear Hne Hmap. induction (gdf_geometry g) as [|[|x y] gs IH]; simpl in *.
    - now eexists.
    - discriminate.
    - destruct (IH Hpoints) as [cs ->]. now eexists. }
  destruct Hcoords as [coords Hcoords].
  assert (Hlen : length coords = length (gdf_geometry g))
    by now apply centroid_coords_length.
  assert (Hcne : coords <> []).
  { intros ->. destruct (gdf_geometry g); [congruence | discriminate]. }
  pose proof (position_adjustment_run gdf add_x add_y code code g coords w
                Hg Hcrs) as Hrun.
  rewrite Hmap in Hrun. specialize (Hrun Hcoords Hcne). simpl in Hrun.
  assert (Hlt : (gdf < length (heap w))%nat)
    by (eapply lookup_lt_Some; exact Hg).
  do 5 eexists. split; [exact Hrun|]. simpl heap.
  split.
  { rewrite lookup_app_r by lia.
    replace (length (heap w) + 2 - length (heap w))%nat with 2%nat by lia.
    reflexivity. }
  split; [lia|].
  split; [intros r Hr; now apply lookup_app_l|].
  split; [now apply lookup_app_l_Some|].
  split; [simpl; now rewrite length_map|].
  split.
  { simpl. rewrite lookup_insert_ne by discriminate. apply lookup_insert_eq. }
  split; [simpl; apply lookup_insert_eq|].
  intros i x y Hi.
  pose proof (centroid_coords_lookup _ _ _ _ _ Hcoords Hi) as Hc.
  simpl. rewrite !list_lookup_fmap, Hc. repeat split; reflexivity.
Qed.

(** Where the frame is held in another CRS, the coordinates shifted and
    kept are those of the reprojected points. *)
Lemma position_adjustment_reprojects (gdf : ref) (add_x add_y : R)
    (src code : Z) (g : GeoDataFrame) (coords : list (R * R)) (w : W) :
  heap w !! gdf = Some g ->
  gdf_crs g = Some src ->
  centroid_coords (map (reproject src code) (gdf_geometry g)) = Some coords ->
  coords <> [] ->
  exists (g' : GeoDataFrame),
    heap (snd (position_adjustment gdf add_x add_y code w))
      !! (length (heap w) + 2)%nat = Some g'
    /\ gdf_geometry g'
       = map (fun p => Point (fst p + add_x) (snd p + add_y)) coords.
Proof.
  intros Hg Hcrs Hcoords Hne.
  rewrite (position_adjustment_run gdf add_x add_y code src g coords w)
    by assumption.
  eexists. split.
  - simpl. rewrite lookup_app_r by lia.
    replace (length (heap w) + 2 - length (heap w))%nat with 2%nat by lia.
    reflexivity.
  - reflexivity.
Qed.

(** An empty collection makes [position_adjustment] raise. *)
Lemma position_adjustment_empty (gdf : ref) (add_x add_y : R) (code src : Z)
    (g : GeoDataFrame) (w : W) :
  heap w !! gdf = Some g -> gdf_crs g = Some src -> gdf_geometry g = [] ->
  fst (position_adjustment gdf add_x add_y code w)
  = Raise (IndexError "too many indices for array").
Proof.
  intros Hg Hcrs Hnil. unfold position_adjustment.
  rewrite (run_deref _ g) by assumption. rewrite Hnil.
  change (existsb is_empty []) with false. cbv iota.
  rewrite (run_bind _ _ _ _ _ (run_to_crs gdf code src g w Hg Hcrs)).
  erewrite run_deref by (simpl; apply lookup_last).
  unfold reprojected_frame at 1. rewrite Hnil.
  cbn [gdf_geometry map centroid_coords].
  erewrite run_bind by (apply run_copy; simpl; apply lookup_last).
  reflexivity.
Qed.

(** The cell of a row is its sample, NaN where it has none. *)
Lemma row_value_sample (raster : Raster) (tr : Affine) (buf : R)
    (stat : string) (geom : Geometry) :
  row_value raster tr buf stat geom
  = default NaN (row_sample raster tr buf stat geom).
Proof.
  unfold row_value, row_sample.
  destruct (mask_valid raster tr _) as [valid_data|]; [|reflexivity].
  now destruct (0 <? length valid_data)%nat.
Qed.

Lemma set_label_length (idx : Z) (v : f64) (labels : list Z)
    (values : list f64) :
  length (set_label idx v labels values) = length values.
Proof.
  revert values. induction labels as [|l labels IH]; intros [|x values];
    simpl; auto.
Qed.

Lemma set_label_absent (idx : Z) (v : f64) (labels : list Z)
    (values : list f64) :
  idx ∉ labels -> set_label idx v labels values = values.
Proof.
  revert values. induction labels as [|l labels IH]; intros [|x values] Hidx;
    simpl; auto.
  apply not_elem_of_cons in Hidx as [Hne Hidx].
  destruct (Z.eqb_spec l idx); [congruence|]. now rewrite IH.
Qed.

Lemma set_label_app (idx : Z) (v : f64) (l1 l2 : list Z)
    (v1 v2 : list f64) :
  length l1 = length v1 ->
  set_label idx v (l1 ++ l2) (v1 ++ v2)
  = set_label idx v l1 v1 ++ set_label idx v l2 v2.
Proof.
  revert v1. induction l1 as [|l l1 IH]; intros [|x v1] Hlen;
    simpl in *; try discriminate; [reflexivity|].
  now rewrite IH by lia.
Qed.

(** Rows without a sample leave the column at NaN, whatever the labels. *)
Lemma sampled_cells_none (raster : Raster) (tr : Affine) (buf : R)
    (stat : string) (labels : list Z) (geoms : list Geometry) :
  (forall geom, row_sample raster tr buf stat geom = None) ->
  sampled_cells raster tr buf stat labels geoms
  = replicate (length geoms) NaN.
Proof.
  intros Hnone. unfold sampled_cells.
  generalize (replicate (length geoms) NaN) as cells.
  generalize labels at 1 as all.
  generalize (zip labels geoms) as rows.
  induction rows as [|row rows IH]; intros all cells; [reflexivity|].
  cbn [fold_left]. rewrite Hnone. apply IH.
Qed.

Lemma sampled_cells_from (raster : Raster) (tr : Affine) (buf : R)
    (stat : string) (rest_l : list Z) (rest_g : list Geometry)
    (done_l : list Z) (done_g : list Geometry) :
  NoDup (done_l ++ rest_l) ->
  length done_l = length done_g ->
  length rest_l = length rest_g ->
  fold_left
    (fun cells row =>
       match row_sample raster tr buf stat (snd row) with
       | Some v => set_label (fst row) v (done_l ++ rest_l) cells
       | None => cells
       end)
    (zip rest_l rest_g)
    (map (row_value raster tr buf stat) done_g
     ++ replicate (length rest_g) NaN)
  = map (row_value raster tr buf stat) (done_g ++ rest_g).
Proof.
  revert rest_g done_l done_g.
  induction rest_l as [|l rest_l IH]; intros [|geom rest_g] done_l done_g
    Hdup Hdone Hrest; simpl in Hrest; try discriminate.
  - simpl. now rewrite !app_nil_r.
  - cbn [zip zip_with fold_left fst snd length replicate].
    specialize (IH rest_g (done_l ++ [l]) (done_g ++ [geom])).
    rewrite <- !(assoc_L (++)) in IH. cbn [app] in IH.
    rewrite <- (IH Hdup) by (rewrite ?length_app; simpl; lia).
    f_equal. rewrite map_app, <- (assoc_L (++)). cbn [map app].
    rewrite (row_value_sample raster tr buf stat geom).
    destruct (row_sample raster tr buf stat geom) as [v|]; [|reflexivity].
    apply NoDup_app in Hdup as (_ & Hout & Hdup).
    apply NoDup_cons in Hdup as [Hl _].
    rewrite set_label_app by now rewrite length_map.
    rewrite set_label_absent.
    + cbn [set_label default]. rewrite Z.eqb_refl.
      now rewrite set_label_absent.
    + intros Hin. apply (Hout l Hin). left.
Qed.

(** Where every row has a label of its own, the column after the loop is
    [row_value] row by row. *)
Lemma sampled_cells_unique (raster : Raster) (tr : Affine) (buf : R)
    (stat : string) (labels : list Z) (geoms : list Geometry) :
  NoDup labels -> length labels = length geoms ->
  sampled_cells raster tr buf stat labels geoms
  = map (row_value raster tr buf stat) geoms.
Proof.
  intros Hdup Hlen.
  apply (sampled_cells_from raster tr buf stat labels geoms [] []);
    auto.
Qed.

Lemma range_index_length (n : nat) : length (range_index n) = n.
Proof. unfold range_index. now rewrite length_map, length_seq. Qed.

Lemma range_index_NoDup (n : nat) : NoDup (range_index n).
Proof.
  unfold range_index. apply NoDup_fmap_2; [|apply NoDup_seq].
  intros x y Hxy. lia.
Qed.

(** An unsupported statistic gives no row a sample. *)
Lemma row_sample_unsupported (raster : Raster) (tr : Affine) (buf : R)
    (stat : string) (geom : Geometry) :
  supported_statistic stat = false -> row_sample raster tr buf stat geom = None.
Proof.
  intros Hs. unfold row_sample.
  destruct (mask_valid raster tr _) as [valid_data|]; [|reflexivity].
  destruct (0 <? length valid_data)%nat; [|reflexivity].
  unfold statistic, supported_statistic in *.
  repeat (apply orb_false_elim in Hs; destruct Hs as [Hs ?]).
  repeat match goal with E : String.eqb _ _ = false |- _ => rewrite E; clear E end.
  reflexivity.
Qed.

(** An unsupported statistic leaves every row at NaN. *)
Lemma row_value_unsupported (raster : Raster) (tr : Affine) (buf : R)
    (stat : string) (geom : Geometry) :
  supported_statistic stat = false -> row_value raster tr buf stat geom = NaN.
Proof.
  intros Hs. now rewrite row_value_sample, row_sample_unsupported.
Qed.

(** With a statistic outside the five names, [extract_values] does not
    raise: the [ValueError] of the [else] branch is caught by the
    [except Exception] of the loop, and the call returns the copy with NaN
    in every row, also where [valid_data] is not empty. *)
Lemma extract_values_unsupported_statistic (gdf : ref) (raster : Raster)
    (tr : Affine) (buf : R) (stat : string) (g : GeoDataFrame) (src : Z)
    (w : W) :
  supported_statistic stat = false ->
  heap w !! gdf = Some g ->
  gdf_crs g = Some src ->
  extract_values gdf raster tr buf stat None w
  = (Ok (length (heap w)),
     mkWorld (heap w ++ [with_column g "extracted_value"
                           (replicate (gdf_len g) NaN)]) (rng w)).
Proof.
  intros Hs Hg Hcrs.
  rewrite (extract_values_run gdf raster tr buf stat g src w) by assumption.
  unfold extracted_frame, gdf_len.
  rewrite sampled_cells_none; [reflexivity|].
  intros geom. now apply row_sample_unsupported.
Qed.

(** *** The optimizer and the driver *)

Local Abbreviation loss_frames := (loss_frames Raster Affine mask_valid proj_transform).
Local Abbreviation objective_function :=
  (objective_function Raster Affine mask_valid proj_transform dtw_distance).

Lemma map_reproject_same (code : Z) (gs : list Geometry) :
  map (reproject code code) gs = gs.
Proof.
  induction gs as [|a gs IH]; simpl; [reflexivity|].
  now rewrite IH, reproject_same.
Qed.

(** A run of [get_loss] without reference column and without CRS code, on
    a non-empty frame of points that has a CRS: loss 0, four new frames,
    generator untouched. *)
Lemma get_loss_run (lidar_footprints : ref) (add_x add_y buf : R)
    (raster : Raster) (tr : Affine) (method stat : string)
    (g : GeoDataFrame) (src : Z) (coords : list (R * R)) (w : W) :
  heap w !! lidar_footprints = Some g ->
  gdf_crs g = Some src ->
  centroid_coords (gdf_geometry g) = Some coords ->
  coords <> [] ->
  get_loss lidar_footprints add_x add_y buf raster tr method stat None None w
  = (Ok (mkLoss (Fin 0) (length (heap w) + 3)%nat),
     mkWorld (heap w ++ loss_frames raster tr buf stat src add_x add_y coords g)
             (rng w)).
Proof.
  intros Hg Hcrs Hcoords Hne.
  pose proof (position_adjustment_run lidar_footprints add_x add_y src src g
                coords w Hg Hcrs) as Hadj.
  rewrite map_reproject_same in Hadj. specialize (Hadj Hcoords Hne).
  cbv zeta in Hadj.
  erewrite get_loss_after_extraction; [| exact Hg | reflexivity | | exact Hadj |].
  - reflexivity.
  - unfold crs_code_or_epsg, crs_to_epsg. now rewrite Hcrs.
  - erewrite extract_values_run; cycle 1.
    + simpl. rewrite lookup_app_r by lia.
      replace (length (heap w) + 2 - length (heap w))%nat with 2%nat by lia.
      reflexivity.
    + reflexivity.
    + simpl. rewrite length_app. simpl length.
      rewrite <- (assoc_L (++)). reflexivity.
Qed.

(** The same with a reference column: the points are shifted, the raster
    is sampled at the shifted points, and the loss is that of the
    reference column against the sampled values. *)
Lemma get_loss_reference_run (lidar_footprints : ref) (add_x add_y buf : R)
    (raster : Raster) (tr : Affine) (method stat name : string)
    (g : GeoDataFrame) (src : Z) (coords : list (R * R))
    (reference : list f64) (w : W) :
  heap w !! lidar_footprints = Some g ->
  gdf_crs g = Some src ->
  centroid_coords (gdf_geometry g) = Some coords ->
  coords <> [] ->
  gdf_columns g !! name = Some reference ->
  name <> "orig_x" -> name <> "orig_y" -> name <> "extracted_value" ->
  let sampled :=
    sampled_cells raster tr buf stat (gdf_index g)
      (map (fun p => Point (fst p + add_x) (snd p + add_y)) coords) in
  get_loss lidar_footprints add_x add_y buf raster tr method stat None
           (Some name) w
  = (loss_outcome (get_loss_value dtw_distance method reference sampled)
                  (length (heap w) + 3)%nat,
     mkWorld (heap w ++ loss_frames raster tr buf stat src add_x add_y coords g)
             (rng w)).
Proof.
  intros Hg Hcrs Hcoords Hne Href Hx Hy He sampled.
  pose proof (position_adjustment_run lidar_footprints add_x add_y src src g
                coords w Hg Hcrs) as Hadj.
  rewrite map_reproject_same in Hadj. specialize (Hadj Hcoords Hne).
  cbv zeta in Hadj.
  erewrite get_loss_after_extraction; cycle 1.
  - exact Hg.
  - simpl. unfold lacks_column. now rewrite Href.
  - unfold crs_code_or_epsg, crs_to_epsg. now rewrite Hcrs.
  - exact Hadj.
  - erewrite extract_values_run; cycle 1.
    + simpl. rewrite lookup_app_r by lia.
      replace (length (heap w) + 2 - length (heap w))%nat with 2%nat by lia.
      reflexivity.
    + reflexivity.
    + reflexivity.
  - cbn [heap]. rewrite length_app. cbn [length].
    rewrite <- (assoc_L (++)). cbn [app].
    rewrite lookup_app_r by lia.
    replace (length (heap w) + 3 - length (heap w))%nat with 3%nat by lia.
    cbn [lookup list_lookup].
    unfold extracted_frame, shifted_frame, origin_frame, reprojected_frame,
      with_column. cbn [gdf_columns gdf_geometry gdf_index].
    rewrite !lookup_insert_eq.
    rewrite !lookup_insert_ne by congruence. rewrite Href.
    reflexivity.
Qed.

Lemma objective_function_run (lidar_footprints : ref) (raster : Raster)
    (tr : Affine) (method stat : string) (buf : R) (x y : R) (fit : option R)
    (g : GeoDataFrame) (src : Z) (coords : list (R * R)) (w : W) :
  heap w !! lidar_footprints = Some g ->
  gdf_crs g = Some src ->
  centroid_coords (gdf_geometry g) = Some coords ->
  coords <> [] ->
  objective_function lidar_footprints raster tr method stat buf None None
                     (mkInd [x; y] fit) w
  = (Ok 0,
     mkWorld (heap w ++ loss_frames raster tr buf stat src x y coords g) (rng w)).
Proof.
  intros Hg Hcrs Hcoords Hne. unfold objective_function. cbn [genes].
  erewrite run_bind by (eapply get_loss_run; eassumption). reflexivity.
Qed.

Lemma run_draw {A B : Type} (f : G -> A * G) (k : A -> M B) (w : W) :
  (draw f ≫= k) w = k (fst (f (rng w))) (mkWorld (heap w) (snd (f (rng w)))).
Proof. unfold mbind, M_bind, draw. now destruct (f (rng w)). Qed.

(** The individual drawn by [toolbox.individual] in a given state of the
    generator: its coordinates are the next two draws, scaled to the box. *)
Lemma new_individual_run (lower_bounds upper_bounds : R * R) (w : W) :
  let u1 := fst (rnd_random (rng w)) in
  let gen1 := snd (rnd_random (rng w)) in
  let u2 := fst (rnd_random gen1) in
  let gen2 := snd (rnd_random gen1) in
  new_individual lower_bounds upper_bounds w
  = (Ok (mkInd [fst lower_bounds + (fst upper_bounds - fst lower_bounds) * u1;
                snd lower_bounds + (snd upper_bounds - snd lower_bounds) * u2]
               None),
     mkWorld (heap w) gen2).
Proof.
  intros u1 gen1 u2 gen2. subst u1 gen1 u2 gen2.
  unfold new_individual, random_uniform, mbind, M_bind, draw, mret, M_ret.
  destruct (rnd_random (rng w)) as [a gen1]. simpl.
  now destruct (rnd_random gen1).
Qed.

(** On an empty point set [minimize_loss] returns [None] and changes
    nothing, neither the heap nor the generator. *)
Lemma minimize_loss_empty (lidar_footprints : ref) (raster : Raster)
    (tr : Affine) (method stat : string) (buf : R) (crs_code : option Z)
    (lidar_value : option string) (lower_bounds upper_bounds : option (R * R))
    (pop_size max_iter : nat) (g : GeoDataFrame) (w : W) :
  heap w !! lidar_footprints = Some g ->
  gdf_geometry g = [] ->
  minimize_loss lidar_footprints raster tr method stat buf crs_code lidar_value
                lower_bounds upper_bounds pop_size max_iter w
  = (Ok None, w).
Proof.
  intros Hg Hnil. unfold minimize_loss.
  rewrite (run_deref _ g) by assumption.
  unfold gdf_len. now rewrite Hnil.
Qed.

(** C6, as amended: on an empty point set whose columns include the one
    named by [lidar_value], if any, [minimize_loss] returns [None] without
    drawing, seeding or evaluating, and [positional_correction] returns the
    reference it was given, the heap and the generator being as before. *)
Theorem positional_correction_empty (lidar_footprints : ref) (raster : Raster)
    (tr : Affine) (method stat : string) (buf : R) (crs_code : option Z)
    (lidar_value : option string) (lower_bounds upper_bounds : option (R * R))
    (pop_size max_iter : nat) (g : GeoDataFrame) (w : W) :
  heap w !! lidar_footprints = Some g ->
  gdf_geometry g = [] ->
  names_missing_column lidar_value g = false ->
  minimize_loss lidar_footprints raster tr method stat buf crs_code lidar_value
                lower_bounds upper_bounds pop_size max_iter w
  = (Ok None, w)
  /\ positional_correction lidar_footprints raster tr method stat buf crs_code
       lidar_value lower_bounds upper_bounds pop_size max_iter w
     = (Ok lidar_footprints, w).
Proof.
  intros Hg Hnil Hcol. split; [now apply minimize_loss_empty with g|].
  unfold positional_correction.
  rewrite (run_deref _ g) by assumption. rewrite Hcol.
  erewrite run_bind by (apply minimize_loss_empty with g; assumption).
  reflexivity.
Qed.

(** Where the named column is missing, the driver raises before it calls
    the optimizer. *)
Lemma positional_correction_missing_column (lidar_footprints : ref)
    (raster : Raster) (tr : Affine) (method stat : string) (buf : R)
    (crs_code : option Z) (name : string)
    (lower_bounds upper_bounds : option (R * R)) (pop_size max_iter : nat)
    (g : GeoDataFrame) (w : W) :
  heap w !! lidar_footprints = Some g ->
  lacks_column g name = true ->
  positional_correction lidar_footprints raster tr method stat buf crs_code
    (Some name) lower_bounds upper_bounds pop_size max_iter w
  = (Raise (column_not_found (Some name) "lidar_footprints"), w).
Proof.
  intros Hg Hcol. unfold positional_correction.
  rewrite (run_deref _ g) by assumption. simpl. now rewrite Hcol.
Qed.

Local Abbreviation registered_toolbox :=
  (registered_toolbox Raster Affine mask_valid proj_transform dtw_distance).

(** [minimize_loss] on a non-empty frame, in its steps: the population is
    drawn in the state [w] of the caller; the generator is then seeded; the
    algorithm runs; the first individual of lowest loss is returned. *)
Lemma minimize_loss_steps (lidar_footprints : ref)
    (raster : Raster) (tr : Affine) (method stat : string) (buf : R)
    (crs_code : option Z) (lidar_value : option string)
    (lower_bounds upper_bounds : option (R * R)) (pop_size max_iter : nat)
    (g : GeoDataFrame) (w w1 w2 : W) (population final : list Individual)
    (best : Individual) (rest : list Individual) (bx byy v : R) :
  heap w !! lidar_footprints = Some g ->
  gdf_geometry g <> [] ->
  new_population (default (-30, -30) lower_bounds)
                 (default (30, 30) upper_bounds) pop_size w
  = (Ok population, w1) ->
  eaSimple population
    (registered_toolbox lidar_footprints raster tr method stat buf crs_code
                        lidar_value)
    0.7 0.2 max_iter (mkWorld (heap w1) (rnd_seed 1118))
  = (Ok final, w2) ->
  selBest final 1 = best :: rest ->
  genes best = [bx; byy] ->
  fitness best = Some v ->
  minimize_loss lidar_footprints raster tr method stat buf crs_code lidar_value
                lower_bounds upper_bounds pop_size max_iter w
  = (Ok (Some (mkOptim bx byy v)), w2).
Proof.
  intros Hg Hne Hpop Hea Hbest Hgenes Hfit. unfold minimize_loss.
  rewrite (run_deref _ g) by assumption.
  assert (Hlen : (gdf_len g =? 0)%nat = false).
  { unfold gdf_len. now destruct (gdf_geometry g). }
  rewrite Hlen, (run_bind _ _ _ _ _ Hpop).
  unfold random_seed. unfold mbind at 1. unfold M_bind at 1.
  erewrite run_bind; cycle 1.
  { apply run_try_ok. erewrite run_bind by exact Hea. reflexivity. }
  cbv beta iota. now rewrite Hbest, Hgenes, Hfit.
Qed.

(** Evaluation of one individual of invalid fitness, without reference
    column: its loss is 0. *)
Lemma evaluate_invalid_single (lidar_footprints : ref)
    (raster : Raster) (tr : Affine) (method stat : string) (buf : R)
    (x y : R) (g : GeoDataFrame) (src : Z) (coords : list (R * R)) (w : W) :
  heap w !! lidar_footprints = Some g ->
  gdf_crs g = Some src ->
  centroid_coords (gdf_geometry g) = Some coords ->
  coords <> [] ->
  evaluate_invalid
    (registered_toolbox lidar_footprints raster tr method stat buf None None)
    [mkInd [x; y] None] w
  = (Ok [mkInd [x; y] (Some 0)],
     mkWorld (heap w ++ loss_frames raster tr buf stat src x y coords g) (rng w)).
Proof.
  intros Hg Hcrs Hcoords Hne. unfold evaluate_invalid.
  cbn [map_M fitness genes registered_toolbox tb_evaluate].
  erewrite run_bind; cycle 1.
  { erewrite run_bind by (eapply objective_function_run; eassumption).
    reflexivity. }
  reflexivity.
Qed.

(** With one individual and no generation, the result of [minimize_loss]
    is the individual drawn before [random.seed(1118)] runs: its offset is
    given by the two next draws of the generator as the caller left it. *)
Lemma minimize_loss_initial_individual (lidar_footprints : ref)
    (raster : Raster) (tr : Affine) (method stat : string) (buf : R)
    (lower_bounds upper_bounds : option (R * R))
    (g : GeoDataFrame) (src : Z) (coords : list (R * R)) (w : W) :
  heap w !! lidar_footprints = Some g ->
  gdf_crs g = Some src ->
  centroid_coords (gdf_geometry g) = Some coords ->
  coords <> [] ->
  let lo := default (-30, -30) lower_bounds in
  let hi := default (30, 30) upper_bounds in
  let u1 := fst (rnd_random (rng w)) in
  let u2 := fst (rnd_random (snd (rnd_random (rng w)))) in
  fst (minimize_loss lidar_footprints raster tr method stat buf None None
                     lower_bounds upper_bounds 1 0 w)
  = Ok (Some (mkOptim (fst lo + (fst hi - fst lo) * u1)
                      (snd lo + (snd hi - snd lo) * u2) 0)).
Proof.
  intros Hg Hcrs Hcoords Hne lo hi u1 u2.
  erewrite minimize_loss_steps; cycle 1.
  - exact Hg.
  - destruct (gdf_geometry g); [simpl in Hcoords; congruence | discriminate].
  - unfold new_population. cbn [seq map_M].
    erewrite run_bind by apply new_individual_run. reflexivity.
  - unfold eaSimple.
    erewrite run_bind by (eapply evaluate_invalid_single; eassumption).
    reflexivity.
  - reflexivity.
  - reflexivity.
  - reflexivity.
  - reflexivity.
Qed.

(** *** The initial population lies in the box *)

Lemma new_population_in_box `{!RandomGenLaws G}
    (lower_bounds upper_bounds : R * R) (n : nat) :
  fst lower_bounds <= fst upper_bounds ->
  snd lower_bounds <= snd upper_bounds ->
  forall (w w' : W) (population : list Individual),
    new_population lower_bounds upper_bounds n w = (Ok population, w') ->
    Forall (in_box lower_bounds upper_bounds) population.
Proof.
  intros Hx Hy. unfold new_population. generalize 0%nat as start.
  induction n as [|n IH]; intros start w w' population Hrun; cbn [seq map_M] in Hrun.
  - injection Hrun as <- _. constructor.
  - unfold mbind at 1 in Hrun. unfold M_bind at 1 in Hrun.
    rewrite new_individual_run in Hrun.
    unfold mbind at 1 in Hrun. unfold M_bind at 1 in Hrun.
    destruct (map_M _ (seq (S start) n) _) as [[rest|e] w''] eqn:Hrest;
      [|discriminate].
    injection Hrun as <- _. constructor; [|now apply (IH _ _ _ _ Hrest)].
    pose proof (rnd_random_range (rng w)) as [H1 H2].
    pose proof (rnd_random_range (snd (rnd_random (rng w)))) as [H3 H4].
    eexists _, _. split; [reflexivity|]. split; nra.
Qed.

End Pipeline.

(** ** Worked runs *)

(** C3, at a point that has a valid cell: with the statistic name "mode"
    [extract_values] returns the copy, NaN in the row, and does not raise
    the [ValueError] of its [else] branch. *)
Theorem extract_values_unknown_statistic_returns :
  flat_mask tt tt (Plain (Point 0 0)) = Some [Fin 5]
  /\ supported_statistic "mode" = false
  /\ extract_values unit unit flat_mask no_transform 0%nat tt tt 0 "mode" None
       (world_of one_point 0)
     = (Ok 1%nat,
        mkWorld [one_point; with_column one_point "extracted_value" [NaN]] 0%nat).
Proof.
  split; [reflexivity|]. split; [reflexivity|].
  now rewrite (extract_values_unsupported_statistic unit unit flat_mask
                 no_transform 0%nat tt tt 0 "mode" one_point 3857%Z).
Qed.

Lemma position_adjustment_shifts_points_witness :
  exists (adjusted : ref) (g' : GeoDataFrame) (w' : @world nat),
    position_adjustment no_transform 0%nat 2 3 3857%Z (world_of one_point 0)
    = (Ok adjusted, w')
    /\ heap w' !! adjusted = Some g'
    /\ heap w' !! 0%nat = Some one_point
    /\ gdf_geometry g' !! 0%nat = Some (Point (0 + 2) (0 + 3)).
Proof.
  destruct (position_adjustment_shifts_points no_transform 0%nat 2 3 3857%Z
              one_point (world_of one_point 0))
    as (adjusted & g' & xs & ys & w' & Hrun & Hget & _ & _ & Hin & _ & _ & _ & Hi);
    [reflexivity | reflexivity | discriminate | reflexivity |].
  exists adjusted, g', w'. repeat split; try assumption.
  now destruct (Hi 0%nat 0 0 eq_refl).
Defined.

(** C6 as the claim words it fails: handed an empty frame that lacks the
    measurement column, here [GeoDataFrame(geometry=[])] ([GeoDataFrame()]
    stops at the same guard), and the name of the column,
    [positional_correction] raises [ValueError] instead of returning the
    empty frame. *)
Lemma positional_correction_empty_raises :
  gdf_geometry empty_frame = []
  /\ positional_correction unit unit flat_mask no_transform no_dtw 0%nat tt tt
       "euclidean" "mean" 0 None (Some "h") None None 50 100
       (world_of empty_frame 0)
     = (Raise (ValueError "Column 'h' not found in lidar_footprints"),
        world_of empty_frame 0).
Proof.
  split; [reflexivity|].
  now apply positional_correction_missing_column with empty_frame.
Qed.

Lemma positional_correction_empty_witness :
  positional_correction unit unit flat_mask no_transform no_dtw 0%nat tt tt
    "euclidean" "mean" 0 None None None None 50 100 (world_of empty_frame 0)
  = (Ok 0%nat, world_of empty_frame 0).
Proof.
  now apply (positional_correction_empty unit unit flat_mask no_transform no_dtw
               0%nat tt tt "euclidean" "mean" 0 None None None None 50 100
               empty_frame (world_of empty_frame 0)).
Defined.

(** C2: two runs of [minimize_loss] on the same frame, raster and
    configuration, one from each of two states in which the caller left
    the generator, return different best offsets: the population is drawn
    before [random.seed(1118)] is called. *)
Theorem minimize_loss_depends_on_ambient_generator :
  fst (minimize_loss unit unit flat_mask no_transform no_dtw 0%nat tt tt
         "euclidean" "mean" 0 None None None None 1 0 (world_of one_point 0))
  = Ok (Some (mkOptim (-24) (-27) 0))
  /\ fst (minimize_loss unit unit flat_mask no_transform no_dtw 0%nat tt tt
            "euclidean" "mean" 0 None None None None 1 0 (world_of one_point 1))
     = Ok (Some (mkOptim (-27) (-27) 0))
  /\ -24 <> -27.
Proof.
  split; [|split; [|lra]].
  - rewrite (minimize_loss_initial_individual unit unit flat_mask no_transform
               no_dtw 0%nat tt tt "euclidean" "mean" 0 None None one_point
               3857%Z [(0, 0)]) by (reflexivity || discriminate).
    simpl. do 3 f_equal; lra.
  - rewrite (minimize_loss_initial_individual unit unit flat_mask no_transform
               no_dtw 0%nat tt tt "euclidean" "mean" 0 None None one_point
               3857%Z [(0, 0)]) by (reflexivity || discriminate).
    simpl. do 3 f_equal; lra.
Qed.

(** *** One generation with the example generator *)

Ltac run_monad :=
  repeat (progress (unfold mbind, M_bind, mret, M_ret, draw, raise;
                    cbn -[fit_gt Rltb Rleb])).

Lemma fit_gt_irrefl (f : option R) : fit_gt f f = false.
Proof.
  unfold fit_gt, fit_le. destruct f as [v|]; [|reflexivity].
  unfold Rleb. destruct (Rle_dec (- v) (- v)); [reflexivity | lra].
Qed.

(** A tournament among copies of one individual selects it. *)
Lemma selTournament_single (ind : Individual) (h : list GeoDataFrame) (n : nat) :
  selTournament 3 [ind] 1 (mkWorld h n) = (Ok [ind], mkWorld h (S (S (S n)))).
Proof.
  unfold selTournament, selRandom, random_choice, max_by_fitness. run_monad.
  rewrite !fit_gt_irrefl. reflexivity.
Qed.

(** In a state other than 0 every draw of [random()] is 1/20, below
    [mutpb] and [indpb]: the individual is mutated in both coordinates,
    each by the noise [gauss(0, 1)], and its fitness is invalidated. *)
Lemma varAnd_mutate_single (tb : @Toolbox nat) (x y : R) (f : option R)
    (h : list GeoDataFrame) (n : nat) :
  tb_mutate tb = mutGaussian 0 1 0.2 ->
  varAnd_mutate tb 0.2 [mkInd [x; y] f] (mkWorld h (S n))
  = (Ok [mkInd [x + (0 + 1 * / 2); y + (0 + 1 * / 2)] None],
     mkWorld h (S (S (S (S (S (S n))))))).
Proof.
  intros Hm. unfold varAnd_mutate. rewrite Hm. unfold mutGaussian. run_monad.
  rewrite !(Rltb_true (/ 20) 0.2) by lra. run_monad.
  rewrite !(Rltb_true (/ 20) 0.2) by lra. run_monad.
  rewrite !(Rltb_true (/ 20) 0.2) by lra. run_monad.
  reflexivity.
Qed.

Lemma generation_single (x y f : R) (h : list GeoDataFrame) (n : nat) :
  h !! 0%nat = Some one_point ->
  exists w' : @world nat,
    generation
      (registered_toolbox unit unit flat_mask no_transform no_dtw 0%nat tt tt
                          "euclidean" "mean" 0 None None)
      0.7 0.2 [mkInd [x; y] (Some f)] (mkWorld h (S n))
    = (Ok [mkInd [x + (0 + 1 * / 2); y + (0 + 1 * / 2)] (Some 0)], w').
Proof.
  intros Hh. eexists. unfold generation.
  erewrite run_bind by (simpl; apply selTournament_single).
  unfold varAnd. cbn [varAnd_mate].
  erewrite run_bind
    by (rewrite run_ret; apply varAnd_mutate_single; reflexivity).
  eapply (evaluate_invalid_single unit unit flat_mask no_transform no_dtw
            0%nat tt tt "euclidean" "mean" 0 _ _ one_point 3857%Z [(0, 0)]);
    [exact Hh | reflexivity | reflexivity | discriminate].
Qed.

(** C4: a run that leaves the box.  With the degenerate box
    [[0, 0] x [0, 0]], one individual and one generation, the individual
    drawn at (0, 0) is mutated by Gaussian noise, evaluated, and returned
    as the best offset (1/2, 1/2), which is not in the box. *)
Theorem minimize_loss_leaves_box :
  exists r : OptimResult,
    fst (minimize_loss unit unit flat_mask no_transform no_dtw 0%nat tt tt
           "euclidean" "mean" 0 None None (Some (0, 0)) (Some (0, 0)) 1 1
           (world_of one_point 0))
    = Ok (Some r)
    /\ best_x r = / 2 /\ best_y r = / 2
    /\ ~ (0 <= best_x r <= 0) /\ ~ (0 <= best_y r <= 0).
Proof.
  destruct (generation_single (0 + (0 - 0) * / 10) (0 + (0 - 0) * / 20) 0
              ([one_point]
               ++ loss_frames unit unit flat_mask no_transform tt tt 0 "mean"
                    3857%Z (0 + (0 - 0) * / 10) (0 + (0 - 0) * / 20)
                    [(0, 0)] one_point)
              1117 eq_refl) as [w' Hgen].
  eexists. split.
  - erewrite minimize_loss_steps; cycle 1.
    + reflexivity.
    + discriminate.
    + unfold new_population. cbn [seq map_M].
      erewrite run_bind by apply new_individual_run. reflexivity.
    + unfold eaSimple.
      erewrite run_bind; cycle 1.
      { eapply (evaluate_invalid_single unit unit flat_mask no_transform no_dtw
                  0%nat tt tt "euclidean" "mean" 0 _ _ one_point 3857%Z [(0, 0)]);
          [reflexivity | reflexivity | reflexivity | discriminate]. }
      cbn [generations].
      erewrite run_bind by exact Hgen. reflexivity.
    + reflexivity.
    + reflexivity.
    + reflexivity.
    + reflexivity.
  - cbn [best_x best_y]. repeat split; lra.
Qed.

(** *** The loss evaluator on two points *)

Lemma two_points_adjusted :
  position_adjustment no_transform 0%nat 0 0 3857%Z (world_of two_points 0)
  = (Ok 3%nat,
     mkWorld ([two_points]
              ++ [reprojected_frame no_transform 3857 3857 two_points;
                  origin_frame
                    (reprojected_frame no_transform 3857 3857 two_points)
                    [(0, 0); (1, 1)];
                  shifted_frame 3857 0 0 [(0, 0); (1, 1)]
                    (origin_frame
                       (reprojected_frame no_transform 3857 3857 two_points)
                       [(0, 0); (1, 1)])]) 0%nat).
Proof.
  now rewrite (position_adjustment_run no_transform 0%nat 0 0 3857%Z 3857%Z
                 two_points [(0, 0); (1, 1)]) by (reflexivity || discriminate).
Qed.

(** The second reference value is NaN, so one pair remains: the loss is
    the "manhattan" distance of [1] and the sampled mean. *)
Example two_points_manhattan :
  exists w2 : @world nat,
    get_loss unit unit flat_mask no_transform no_dtw 0%nat 0 0 0 tt tt
             "manhattan" "mean" None (Some "h") (world_of two_points 0)
    = (Ok (mkLoss (cityblock [Fin 1] [Fin (np_mean [5])]) 4%nat), w2).
Proof.
  eexists.
  erewrite (proj1 (evaluators_after_extraction unit unit flat_mask
                     no_transform no_dtw no_dtw 0%nat 0 0 0 tt tt
                     "manhattan" "mean" "h" None two_points _ _ _ eq_refl));
    cycle 1.
  - reflexivity.
  - reflexivity.
  - apply two_points_adjusted.
  - eapply extract_values_run; reflexivity.
  - reflexivity.
  - reflexivity.
  - reflexivity.
  - reflexivity.
Qed.

(** C5, where it fails: a frame without rows that has a CRS and the
    reference column ["h"].  No pair of a reference and a sampled value
    remains, so the claim gives the sentinel 1000, and [perform_distance]
    returns it; [get_loss] does not come to its own test for "no valid
    data": it raises the IndexError of [coords[:, 0]] in
    [position_adjustment], whose array of coordinates has shape [(0,)]. *)
Theorem get_loss_raises_on_frame_without_rows :
  fst (get_loss unit unit flat_mask no_transform no_dtw 0%nat 0 0 0 tt tt
                "euclidean" "mean" None (Some "h")
                (world_of (mkFrame (Some 3857%Z) [] {[ "h" := [] ]}) 0))
  = Raise (IndexError "too many indices for array")
  /\ fst (perform_distance unit unit flat_mask no_transform no_dtw no_dtw
                           0%nat tt tt "euclidean" 0 "mean" None (Some "h")
                           (world_of (mkFrame (Some 3857%Z) [] {[ "h" := [] ]}) 0))
     = Ok (Fin 1000).
Proof. split; reflexivity. Qed.

(** With the method name "bogus": loss 0 without reference column, and the
    sentinel 1000 when the statistic "mode" leaves no sampled value. *)
Lemma method_name_checked_last_witness :
  (exists w2 : @world nat,
     get_loss unit unit flat_mask no_transform no_dtw 0%nat 0 0 0 tt tt
              "bogus" "mean" None None (world_of two_points 0)
     = (Ok (mkLoss (Fin 0) 4%nat), w2))
  /\ (exists w2 : @world nat,
        get_loss unit unit flat_mask no_transform no_dtw 0%nat 0 0 0 tt tt
                 "bogus" "mode" None (Some "h") (world_of two_points 0)
        = (Ok (mkLoss (Fin 1000) 4%nat), w2)).
Proof.
  split.
  - eexists.
    eapply (proj1 (method_name_checked_last unit unit flat_mask no_transform
                     no_dtw no_dtw 0%nat 0 0 0 tt tt "bogus" "mean" None
                     two_points)).
    + reflexivity.
    + reflexivity.
    + apply two_points_adjusted.
    + eapply extract_values_run; reflexivity.
  - eexists.
    eapply (proj1 (method_name_checked_last unit unit flat_mask no_transform
                     no_dtw no_dtw 0%nat 0 0 0 tt tt "bogus" "mode" None
                     two_points)).
    + reflexivity.
    + reflexivity.
    + apply two_points_adjusted.
    + eapply extract_values_run; reflexivity.
    + reflexivity.
    + reflexivity.
    + reflexivity.
    + reflexivity.
    + reflexivity.
Defined.

(** ** Frames are never written to after they are made *)

Section Frames.
Context {G : Type} `{RandomGen G}.
Variables Raster Affine : Type.
Variable mask_valid : Raster -> Affine -> Shape -> option (list f64).
Variable proj_transform : Z -> Z -> R * R -> R * R.
Variable dtw_distance : list f64 -> list f64 -> f64.
Variable scipy_stats_hausdorff_distance : list f64 -> list f64 -> f64.
Local Abbreviation W := (@world G).

Lemma grows_refl (w : W) : grows w w.
Proof. split; [exists []; now rewrite app_nil_r | reflexivity]. Qed.

Lemma grows_trans (w1 w2 w3 : W) : grows w1 w2 -> grows w2 w3 -> grows w1 w3.
Proof.
  intros [[a1 H1] R1] [[a2 H2] R2]. split; [|congruence].
  exists (a1 ++ a2). now rewrite H2, H1, (assoc_L (++)).
Qed.

Lemma grows_app (w : W) (added : list GeoDataFrame) :
  grows w (mkWorld (heap w ++ added) (rng w)).
Proof. split; [now exists added | reflexivity]. Qed.

Lemma grows_bind {A B : Type} (m : M A) (k : A -> M B) :
  (forall w : W, grows w (snd (m w))) ->
  (forall (a : A) (w : W), grows w (snd (k a w))) ->
  forall w : W, grows w (snd ((m ≫= k) w)).
Proof.
  intros Hm Hk w. unfold mbind, M_bind. specialize (Hm w).
  destruct (m w) as [[a|e] w1]; simpl in *; [|assumption].
  eapply grows_trans; [exact Hm | apply Hk].
Qed.

Lemma position_adjustment_grows (gdf : ref) (add_x add_y : R) (code : Z) (w : W) :
  grows w (snd (position_adjustment proj_transform gdf add_x add_y code w)).
Proof.
  unfold position_adjustment.
  destruct (heap w !! gdf) as [g|] eqn:Hg.
  2:{ unfold mbind, M_bind, deref. rewrite Hg. apply grows_refl. }
  rewrite (run_deref _ g) by assumption.
  destruct (existsb is_empty (gdf_geometry g)); [apply grows_refl|].
  destruct (gdf_crs g) as [src|] eqn:Hcrs.
  2:{ unfold to_crs. unfold mbind at 1. unfold M_bind at 1.
      rewrite (run_deref _ g) by assumption. rewrite Hcrs. apply grows_refl. }
  rewrite (run_bind _ _ _ _ _ (run_to_crs proj_transform gdf code src g w Hg Hcrs)).
  erewrite run_deref by (simpl; apply lookup_last).
  destruct (centroid_coords _) as [coords|]; [|apply grows_app].
  erewrite run_bind by (apply run_copy; simpl; apply lookup_last).
  destruct coords as [|c coords].
  { simpl. rewrite <- (assoc_L (++)). apply grows_app. }
  rewrite !run_modify. simpl heap. simpl rng. rewrite !alter_last.
  erewrite run_deref by (simpl; apply lookup_last).
  unfold alloc. simpl. rewrite <- !(assoc_L (++)). apply grows_app.
Qed.


Lemma extract_row_grows (h0 : list GeoDataFrame) (X : GeoDataFrame)
    (raster : Raster) (tr : Affine) (buf : R) (stat : string)
    (row : Z * Geometry) (gen : G) :
  exists X' : GeoDataFrame,
    extract_row Raster Affine mask_valid (length h0) raster tr buf stat row
      (mkWorld (h0 ++ [X]) gen)
    = (Ok tt, mkWorld (h0 ++ [X']) gen).
Proof.
  destruct row as [idx geom]. unfold extract_row, try_except.
  destruct (mask_valid raster tr _) as [valid_data|]; [|now exists X].
  destruct (0 <? length valid_data)%nat; [|now exists X].
  destruct (statistic stat valid_data) as [v|]; [|now exists X].
  eexists. unfold modify. simpl. now rewrite alter_last.
Qed.

Lemma extract_rows_grows (h0 : list GeoDataFrame) (raster : Raster)
    (tr : Affine) (buf : R) (stat : string) (rows : list (Z * Geometry))
    (gen : G) (X : GeoDataFrame) :
  exists X' : GeoDataFrame,
    for_each rows (extract_row Raster Affine mask_valid (length h0) raster tr buf stat)
      (mkWorld (h0 ++ [X]) gen)
    = (Ok tt, mkWorld (h0 ++ [X']) gen).
Proof.
  revert X. induction rows as [|row rows IH]; intros X.
  - now exists X.
  - destruct (extract_row_grows h0 X raster tr buf stat row gen) as [X1 H1].
    destruct (IH X1) as [X2 H2]. exists X2. cbn [for_each].
    now rewrite (run_bind _ _ _ _ _ H1).
Qed.

Lemma to_crs_grows (r : ref) (code : Z) (w : W) :
  grows w (snd (to_crs proj_transform r code w)).
Proof.
  unfold to_crs, mbind, M_bind, deref.
  destruct (heap w !! r) as [g|]; [|apply grows_refl].
  destruct (gdf_crs g); [apply grows_app | apply grows_refl].
Qed.

Lemma extract_values_grows (gdf : ref) (raster : Raster) (tr : Affine)
    (buf : R) (stat : string) (crs_code : option Z) (w : W) :
  grows w (snd (extract_values Raster Affine mask_valid proj_transform gdf
                  raster tr buf stat crs_code w)).
Proof.
  unfold extract_values. unfold mbind at 1. unfold M_bind at 1.
  assert (Hstep : grows w (snd (match crs_code with
                                 | Some code => to_crs proj_transform gdf code
                                 | None => mret gdf
                                 end w))).
  { destruct crs_code; [apply to_crs_grows | apply grows_refl]. }
  destruct (match crs_code with
            | Some code => to_crs proj_transform gdf code
            | None => mret gdf
            end w) as [[gdf'|e] w1]; simpl in Hstep; [|assumption].
  eapply grows_trans; [exact Hstep|]. clear Hstep.
  destruct (heap w1 !! gdf') as [g|] eqn:Hg.
  2:{ unfold copy, mbind, M_bind, deref. rewrite Hg. apply grows_refl. }
  erewrite run_bind by (apply run_copy; exact Hg).
  rewrite run_modify. simpl heap. simpl rng. rewrite alter_last.
  rewrite (run_deref _ g) by (simpl; now apply lookup_app_l_Some).
  assert (Hcont : forall z : Z,
    grows w1 (snd ((deref (length (heap w1)) ≫= (fun rows =>
        for_each (zip (gdf_index rows) (gdf_geometry rows))
          (extract_row Raster Affine mask_valid (length (heap w1)) raster tr buf stat)
        ≫= (fun _ => mret (length (heap w1)))))
      (mkWorld (heap w1 ++ [with_column g "extracted_value"
                              (replicate (gdf_len g) NaN)]) (rng w1))))).
  { intros _. erewrite run_deref by (simpl; apply lookup_last).
    destruct (extract_rows_grows (heap w1) raster tr buf stat
                (zip (gdf_index g) (gdf_geometry g))
                (rng w1)
                (with_column g "extracted_value" (replicate (gdf_len g) NaN)))
      as [X' HX].
    rewrite (run_bind _ _ _ _ _ HX). apply grows_app. }
  destruct crs_code as [code|].
  - rewrite run_ret. apply (Hcont 0%Z).
  - unfold crs_to_epsg. destruct (gdf_crs g).
    + rewrite run_ret. apply (Hcont 0%Z).
    + apply grows_app.
Qed.


Lemma get_loss_grows (lidar_footprints : ref) (add_x add_y buf : R)
    (raster : Raster) (tr : Affine) (method stat : string)
    (crs_code : option Z) (lidar_value : option string) (w : W) :
  grows w (snd (get_loss Raster Affine mask_valid proj_transform dtw_distance
                  lidar_footprints add_x add_y buf raster tr method stat
                  crs_code lidar_value w)).
Proof.
  revert w. unfold get_loss. apply grows_bind.
  { intros w. unfold deref. destruct (heap w !! _); apply grows_refl. }
  intros g. destruct (names_missing_column lidar_value g);
    [intros w; apply grows_refl|].
  apply grows_bind.
  { intros w. unfold crs_code_or_epsg, crs_to_epsg.
    destruct crs_code as [c|]; [destruct (Z.eqb c 0)|];
      try destruct (gdf_crs g); apply grows_refl. }
  intros code. apply grows_bind; [intros w; apply position_adjustment_grows|].
  intros adjusted. apply grows_bind; [intros w; apply extract_values_grows|].
  intros extracted. destruct lidar_value as [name|]; [|intros w; apply grows_refl].
  apply grows_bind.
  { intros w. unfold deref. destruct (heap w !! _); apply grows_refl. }
  intros e. apply grows_bind.
  { intros w. unfold column_values. destruct (gdf_columns e !! _); apply grows_refl. }
  intros lv. apply grows_bind.
  { intros w. unfold column_values. destruct (gdf_columns e !! _); apply grows_refl. }
  intros rv. apply grows_bind; intros; apply grows_refl.
Qed.

Lemma perform_distance_grows (gdf : ref) (raster : Raster) (tr : Affine)
    (method : string) (buf : R) (stat : string) (crs_code : option Z)
    (value_column : option string) (w : W) :
  grows w (snd (perform_distance Raster Affine mask_valid proj_transform
                  dtw_distance scipy_stats_hausdorff_distance gdf raster tr
                  method buf stat crs_code value_column w)).
Proof.
  revert w. unfold perform_distance. apply grows_bind.
  { intros w. unfold deref. destruct (heap w !! _); apply grows_refl. }
  intros g. destruct (names_missing_column value_column g);
    [intros w; apply grows_refl|].
  apply grows_bind; [intros w; apply extract_values_grows|].
  intros extracted. destruct value_column as [name|]; [|intros w; apply grows_refl].
  apply grows_bind.
  { intros w. unfold deref. destruct (heap w !! _); apply grows_refl. }
  intros e. apply grows_bind.
  { intros w. unfold column_values. destruct (gdf_columns e !! _); apply grows_refl. }
  intros lv. apply grows_bind.
  { intros w. unfold column_values. destruct (gdf_columns e !! _); apply grows_refl. }
  intros rv w. apply grows_refl.
Qed.

Lemma heap_grows_refl (w : W) : heap_grows w w.
Proof. exists []. now rewrite app_nil_r. Qed.

Lemma heap_grows_trans (w1 w2 w3 : W) :
  heap_grows w1 w2 -> heap_grows w2 w3 -> heap_grows w1 w3.
Proof.
  intros [a1 H1] [a2 H2]. exists (a1 ++ a2). now rewrite H2, H1, (assoc_L (++)).
Qed.

Lemma grows_heap_grows (w w' : W) : grows w w' -> heap_grows w w'.
Proof. now intros [Hh _]. Qed.

Lemma kf_ret {A : Type} (a : A) : keeps_frames (G := G) (A := A) (mret a).
Proof. intros w. apply heap_grows_refl. Qed.

Lemma kf_raise {A : Type} (e : exn) : keeps_frames (G := G) (A := A) (raise e).
Proof. intros w. apply heap_grows_refl. Qed.

Lemma kf_bind {A B : Type} (m : M A) (k : A -> M B) :
  keeps_frames (G := G) m -> (forall a, keeps_frames (G := G) (k a)) -> keeps_frames (G := G) (m ≫= k).
Proof.
  intros Hm Hk w. unfold mbind, M_bind. specialize (Hm w).
  destruct (m w) as [[a|e] w1]; simpl in *; [|assumption].
  eapply heap_grows_trans; [exact Hm | apply Hk].
Qed.

Lemma kf_draw {A : Type} (f : G -> A * G) : keeps_frames (G := G) (draw f).
Proof.
  intros w. unfold draw. destruct (f (rng w)). exists []. simpl.
  now rewrite app_nil_r.
Qed.

Lemma kf_try {A : Type} (body : M A) (handler : exn -> M A) :
  keeps_frames (G := G) body -> (forall e, keeps_frames (G := G) (handler e)) ->
  keeps_frames (G := G) (try_except body handler).
Proof.
  intros Hb Hh w. unfold try_except. specialize (Hb w).
  destruct (body w) as [[a|e] w1]; simpl in *; [assumption|].
  eapply heap_grows_trans; [exact Hb | apply Hh].
Qed.

Lemma kf_map_M {A B : Type} (f : A -> M B) (xs : list A) :
  (forall a, keeps_frames (G := G) (f a)) -> keeps_frames (G := G) (map_M f xs).
Proof.
  intros Hf. induction xs as [|x xs IH]; cbn [map_M]; [apply kf_ret|].
  apply kf_bind; [apply Hf|]. intros y. apply kf_bind; [exact IH|].
  intros ys. apply kf_ret.
Qed.

Lemma kf_random_choice {A : Type} (l : list A) : keeps_frames (G := G) (random_choice l).
Proof.
  unfold random_choice. destruct l as [|a l]; [apply kf_raise|].
  apply kf_bind; [apply kf_draw|]. intros i.
  destruct (_ !! i); [apply kf_ret | apply kf_raise].
Qed.

Lemma kf_selTournament (n : nat) (l : list Individual) (k : nat) :
  keeps_frames (G := G) (selTournament n l k).
Proof.
  unfold selTournament. apply kf_map_M. intros _.
  apply kf_bind.
  - unfold selRandom. apply kf_map_M. intros _. apply kf_random_choice.
  - intros asp. unfold max_by_fitness. destruct asp; [apply kf_raise | apply kf_ret].
Qed.

Lemma kf_cxBlend (alpha : R) (a b : Individual) : keeps_frames (G := G) (cxBlend alpha a b).
Proof.
  unfold cxBlend. apply kf_bind; [|intros; apply kf_ret].
  generalize (genes b). induction (genes a) as [|x g1 IH]; intros [|y g2];
    cbn [cxBlend_genes]; try apply kf_ret.
  apply kf_bind; [apply kf_draw|]. intros u.
  apply kf_bind; [apply IH|]. intros r. apply kf_ret.
Qed.

Lemma kf_mutGaussian (mu sigma indpb : R) (ind : Individual) :
  keeps_frames (G := G) (mutGaussian mu sigma indpb ind).
Proof.
  unfold mutGaussian. apply kf_bind; [|intros; apply kf_ret].
  induction (genes ind) as [|x gs IH]; cbn [mutGaussian_genes]; [apply kf_ret|].
  apply kf_bind; [apply kf_draw|]. intros u.
  apply kf_bind.
  - destruct (Rltb u indpb); [|apply kf_ret].
    apply kf_bind; [apply kf_draw | intros; apply kf_ret].
  - intros x'. apply kf_bind; [exact IH | intros; apply kf_ret].
Qed.

Lemma kf_varAnd_mate (tb : @Toolbox G) (cxpb : R) (l : list Individual) :
  kf_toolbox tb -> keeps_frames (G := G) (varAnd_mate tb cxpb l).
Proof.
  intros (_ & Hmate & _ & _).
  assert (Hn : forall n l, (length l <= n)%nat -> keeps_frames (G := G) (varAnd_mate tb cxpb l)).
  { clear l. induction n as [|n IH]; intros l Hl.
    - destruct l; [apply kf_ret | simpl in Hl; lia].
    - destruct l as [|a [|b rest]]; cbn [varAnd_mate]; try apply kf_ret.
      apply kf_bind; [apply kf_draw|]. intros u.
      apply kf_bind.
      + destruct (Rltb u cxpb); [|apply kf_ret].
        apply kf_bind; [apply Hmate | intros; apply kf_ret].
      + intros p. apply kf_bind; [|intros; apply kf_ret].
        apply IH. simpl in Hl. lia. }
  now apply (Hn (length l)).
Qed.

Lemma kf_generation (tb : @Toolbox G) (cxpb mutpb : R) (pop : list Individual) :
  kf_toolbox tb -> keeps_frames (G := G) (generation tb cxpb mutpb pop).
Proof.
  intros Htb. pose proof Htb as (Hev & Hmate & Hmut & Hsel).
  unfold generation. apply kf_bind; [apply Hsel|]. intros off.
  apply kf_bind.
  - unfold varAnd. apply kf_bind; [now apply kf_varAnd_mate|]. intros off'.
    unfold varAnd_mutate. apply kf_map_M. intros ind.
    apply kf_bind; [apply kf_draw|]. intros u.
    destruct (Rltb u mutpb); [|apply kf_ret].
    apply kf_bind; [apply Hmut | intros; apply kf_ret].
  - intros off'. unfold evaluate_invalid. apply kf_map_M. intros ind.
    destruct (fitness ind); [apply kf_ret|].
    apply kf_bind; [apply Hev | intros; apply kf_ret].
Qed.

Lemma kf_eaSimple (tb : @Toolbox G) (cxpb mutpb : R) (ngen : nat)
    (pop : list Individual) :
  kf_toolbox tb -> keeps_frames (G := G) (eaSimple pop tb cxpb mutpb ngen).
Proof.
  intros Htb. pose proof Htb as (Hev & _).
  unfold eaSimple. apply kf_bind.
  - unfold evaluate_invalid. apply kf_map_M. intros ind.
    destruct (fitness ind); [apply kf_ret|].
    apply kf_bind; [apply Hev | intros; apply kf_ret].
  - clear pop. induction ngen as [|n IH]; intros pop; cbn [generations];
      [apply kf_ret|].
    apply kf_bind; [now apply kf_generation | exact IH].
Qed.

Lemma kf_registered_toolbox (lf : ref) (raster : Raster) (tr : Affine)
    (method stat : string) (buf : R) (crs_code : option Z)
    (lidar_value : option string) :
  kf_toolbox (registered_toolbox Raster Affine mask_valid proj_transform
                dtw_distance lf raster tr method stat buf crs_code lidar_value).
Proof.
  repeat split; cbn [registered_toolbox tb_evaluate tb_mate tb_mutate tb_select].
  - intros ind. unfold objective_function.
    destruct (genes ind) as [|x [|y [|z rest]]]; try apply kf_raise.
    apply kf_bind.
    + intros w. apply grows_heap_grows, get_loss_grows.
    + intros r. destruct (loss_value r); apply kf_ret.
  - intros. apply kf_cxBlend.
  - intros. apply kf_mutGaussian.
  - intros. apply kf_selTournament.
Qed.

Lemma kf_deref (r : ref) : keeps_frames (G := G) (deref r).
Proof. intros w. unfold deref. destruct (heap w !! r); apply heap_grows_refl. Qed.

Lemma minimize_loss_keeps_frames (lf : ref) (raster : Raster) (tr : Affine)
    (method stat : string) (buf : R) (crs_code : option Z)
    (lidar_value : option string) (lower_bounds upper_bounds : option (R * R))
    (pop_size max_iter : nat) :
  keeps_frames (G := G) (minimize_loss Raster Affine mask_valid proj_transform
                  dtw_distance lf raster tr method stat buf crs_code
                  lidar_value lower_bounds upper_bounds pop_size max_iter).
Proof.
  unfold minimize_loss. apply kf_bind; [apply kf_deref|]. intros g.
  destruct (gdf_len g =? 0)%nat; [apply kf_ret|].
  apply kf_bind.
  { unfold new_population. apply kf_map_M. intros _. unfold new_individual.
    apply kf_bind.
    - unfold random_uniform. apply kf_bind; [apply kf_draw | intros; apply kf_ret].
    - intros x. apply kf_bind; [|intros; apply kf_ret].
      unfold random_uniform. apply kf_bind; [apply kf_draw | intros; apply kf_ret]. }
  intros pop. apply kf_bind.
  { intros w. exists []. simpl. now rewrite app_nil_r. }
  intros _.
  apply kf_bind.
  { apply kf_try; [|intros; apply kf_ret].
    apply kf_bind; [|intros; apply kf_ret].
    apply kf_eaSimple, kf_registered_toolbox. }
  intros [final|]; [|apply kf_ret].
  destruct (selBest final 1) as [|best rest]; [apply kf_raise|].
  destruct (genes best) as [|x [|y [|z more]]]; try apply kf_raise.
  destruct (fitness best); [apply kf_ret | apply kf_raise].
Qed.

Lemma positional_correction_keeps_frames (lf : ref) (raster : Raster)
    (tr : Affine) (method stat : string) (buf : R) (crs_code : option Z)
    (lidar_value : option string) (lower_bounds upper_bounds : option (R * R))
    (pop_size max_iter : nat) :
  keeps_frames (G := G) (positional_correction Raster Affine mask_valid proj_transform
                  dtw_distance lf raster tr method stat buf crs_code
                  lidar_value lower_bounds upper_bounds pop_size max_iter).
Proof.
  unfold positional_correction. apply kf_bind; [apply kf_deref|]. intros g.
  destruct (names_missing_column lidar_value g); [apply kf_raise|].
  apply kf_bind; [apply minimize_loss_keeps_frames|].
  intros [r|]; [|apply kf_ret].
  apply kf_bind; [apply kf_deref|]. intros g'.
  apply kf_bind.
  - unfold crs_code_or_epsg, crs_to_epsg.
    destruct crs_code as [c|]; [destruct (Z.eqb c 0)|];
      try destruct (gdf_crs g'); first [apply kf_ret | apply kf_raise].
  - intros code w. apply grows_heap_grows, position_adjustment_grows.
Qed.

End Frames.

(** ** More on the metrics *)

Lemma valid_mask_sym (a b : list f64) : valid_mask a b = valid_mask b a.
Proof.
  revert b. induction a as [|x a IH]; intros [|y b]; simpl; try reflexivity.
  now rewrite IH, orb_comm.
Qed.

(** What the mask keeps: two NaN-free sequences of the same length. *)
Lemma compress_valid_Fin (a b : list f64) :
  exists u v : list R,
    length u = length v
    /\ compress (valid_mask a b) a = map Fin u
    /\ compress (valid_mask a b) b = map Fin v.
Proof.
  revert b. induction a as [|x a IH]; intros [|y b]; simpl;
    try (exists [], []; now repeat split).
  destruct (IH b) as (u & v & Hlen & Hu & Hv).
  destruct x as [|x], y as [|y]; simpl; try (now exists u, v).
  exists (x :: u), (y :: v). simpl. rewrite Hu, Hv.
  split; [congruence|]. split; reflexivity.
Qed.

Lemma sq_diff_sum_nonneg (u v : list R) : 0 <= sq_diff_sum u v.
Proof.
  revert v. induction u as [|x u IH]; intros [|y v]; simpl; try lra.
  specialize (IH v). pose proof (Rle_0_sqr (x - y)) as Hsq.
  unfold Rsqr in Hsq. lra.
Qed.

Lemma sq_diff_sum_sym (u v : list R) : sq_diff_sum u v = sq_diff_sum v u.
Proof.
  revert v. induction u as [|x u IH]; intros [|y v]; simpl; try reflexivity.
  rewrite IH. ring.
Qed.

Lemma sq_diff_sum_diag (u : list R) : sq_diff_sum u u = 0.
Proof. induction u as [|x u IH]; simpl; [reflexivity | rewrite IH; ring]. Qed.

Lemma cityblock_R_nonneg (u v : list R) : 0 <= cityblock_R u v.
Proof.
  revert v. induction u as [|x u IH]; intros [|y v]; simpl; try lra.
  specialize (IH v). pose proof (Rabs_pos (x - y)). lra.
Qed.

Lemma cityblock_R_sym (u v : list R) : cityblock_R u v = cityblock_R v u.
Proof.
  revert v. induction u as [|x u IH]; intros [|y v]; simpl; try reflexivity.
  now rewrite IH, Rabs_minus_sym.
Qed.

Lemma cityblock_R_diag (u : list R) : cityblock_R u u = 0.
Proof.
  induction u as [|x u IH]; simpl; [reflexivity|].
  rewrite IH, Rminus_diag, Rabs_R0. ring.
Qed.

Lemma cityblock_R_sum (u v : list R) :
  Rsum (map (fun p => Rabs (fst p - snd p)) (zip u v)) = cityblock_R u v.
Proof.
  revert v. induction u as [|x u IH]; intros [|y v]; simpl; try reflexivity.
  now rewrite IH.
Qed.

Lemma sq_dist_nonneg (x y : R) : 0 <= sq_dist x y.
Proof. unfold sq_dist. apply Rle_0_sqr. Qed.

Lemma fold_min_sq_nonneg (x : R) (v : list R) (m : R) :
  0 <= m -> 0 <= fold_left (fun m y' => Rmin m (sq_dist x y')) v m.
Proof.
  revert m. induction v as [|y v IH]; intros m Hm; simpl; [assumption|].
  apply IH. apply Rmin_glb; [assumption | apply sq_dist_nonneg].
Qed.

Lemma fold_min_sq_zero (x : R) (v : list R) (m : R) :
  0 <= m -> (m = 0 \/ In x v) ->
  fold_left (fun m y' => Rmin m (sq_dist x y')) v m = 0.
Proof.
  revert m. induction v as [|y v IH]; intros m Hm Hor; simpl.
  - destruct Hor as [->|[]]. reflexivity.
  - apply IH.
    + apply Rmin_glb; [assumption | apply sq_dist_nonneg].
    + destruct Hor as [->|[->|Hin]].
      * left. apply Rmin_left, sq_dist_nonneg.
      * left. unfold sq_dist. rewrite Rminus_diag, Rmult_0_l.
        now apply Rmin_right.
      * now right.
Qed.

Lemma nearest_sq_nonneg (x : R) (v : list R) : 0 <= nearest_sq x v.
Proof.
  destruct v as [|y v]; simpl; [lra|].
  apply fold_min_sq_nonneg, sq_dist_nonneg.
Qed.

Lemma nearest_sq_member (x : R) (v : list R) : In x v -> nearest_sq x v = 0.
Proof.
  destruct v as [|y v]; simpl; [tauto|]. intros [->|Hin].
  - apply fold_min_sq_zero; [apply sq_dist_nonneg|]. left.
    unfold sq_dist. rewrite Rminus_diag. ring.
  - apply fold_min_sq_zero; [apply sq_dist_nonneg | now right].
Qed.

Lemma fold_max_zero (u v : list R) :
  (forall x, In x u -> nearest_sq x v = 0) ->
  fold_left (fun cmax x => Rmax cmax (nearest_sq x v)) u 0 = 0.
Proof.
  induction u as [|x u IH]; intros Hall; simpl; [reflexivity|].
  rewrite (Hall x) by now left. rewrite Rmax_left by lra.
  apply IH. intros x' Hx'. apply Hall. now right.
Qed.

Lemma directed_hausdorff_R_nonneg (u v : list R) : 0 <= directed_hausdorff_R u v.
Proof. apply sqrt_pos. Qed.

Lemma directed_hausdorff_R_diag (u : list R) : directed_hausdorff_R u u = 0.
Proof.
  unfold directed_hausdorff_R. rewrite fold_max_zero; [apply sqrt_0|].
  intros x Hx. now apply nearest_sq_member.
Qed.

Lemma py_max_Fin (x y : R) : py_max (Fin x) (Fin y) = Fin (Rmax x y).
Proof.
  unfold py_max, fltb, Rltb, Rmax.
  destruct (Rlt_dec x y), (Rle_dec x y); try reflexivity; try lra.
  f_equal. lra.
Qed.

Lemma float_overflow_pos : 0 < float_overflow.
Proof. unfold float_overflow. apply IZR_lt. reflexivity. Qed.

Lemma moderate_bound_small : 2 * moderate_bound < float_overflow.
Proof.
  unfold moderate_bound, float_overflow. rewrite <- mult_IZR.
  apply IZR_lt. reflexivity.
Qed.

Lemma moderate_bound_large : 1000000 < moderate_bound.
Proof. unfold moderate_bound. apply IZR_lt. reflexivity. Qed.

Lemma overflows_false (x : R) : Rabs x < float_overflow -> overflows x = false.
Proof.
  intros Hx. unfold overflows, Rleb.
  destruct (Rle_dec float_overflow (Rabs x)); [lra | reflexivity].
Qed.

Lemma difference_overflows_sym (u v : list R) :
  difference_overflows u v = difference_overflows v u.
Proof.
  revert v. induction u as [|x u IH]; intros [|y v]; simpl; try reflexivity.
  rewrite IH. unfold overflows. now rewrite Rabs_minus_sym.
Qed.

Lemma difference_overflows_diag (u : list R) : difference_overflows u u = false.
Proof.
  induction u as [|x u IH]; simpl; [reflexivity|]. rewrite IH.
  rewrite overflows_false; [reflexivity|].
  rewrite Rminus_diag, Rabs_R0. apply float_overflow_pos.
Qed.

Lemma difference_overflows_moderate (u v : list R) :
  Forall (fun r => Rabs r <= moderate_bound) u ->
  Forall (fun r => Rabs r <= moderate_bound) v ->
  difference_overflows u v = false.
Proof.
  intros Hu. revert v. induction Hu as [|x u Hx _ IH]; intros v Hv;
    [reflexivity|].
  destruct Hv as [|y v Hy Hv]; [reflexivity|]. simpl.
  rewrite (IH v Hv), overflows_false; [reflexivity|].
  pose proof moderate_bound_small.
  pose proof (Rabs_triang x (- y)) as Ht. rewrite Rabs_Ropp in Ht.
  unfold Rminus. lra.
Qed.

Lemma compress_moderate (mask : list bool) (a : list f64) (u : list R) :
  Forall moderate a -> compress mask a = map Fin u ->
  Forall (fun r => Rabs r <= moderate_bound) u.
Proof.
  intros Ha. revert mask u. induction Ha as [|x a Hx _ IH]; intros [|m mask] u Hc;
    simpl in Hc; try (destruct u; [constructor | discriminate]).
  destruct m; [|now apply (IH mask)].
  destruct u as [|r u]; [discriminate|]. injection Hc as -> Hc.
  constructor; [exact Hx | now apply (IH mask)].
Qed.

Section LossFacts.

Variable dtw_distance : list f64 -> list f64 -> f64.
Variable scipy_stats_hausdorff_distance : list f64 -> list f64 -> f64.

Lemma get_loss_method_plain (method : string) (u v : list R) (r : res R) :
  plain_metric method u v = Some r ->
  get_loss_method dtw_distance method (map Fin u) (map Fin v)
  = match r with Ok d => Ok (Fin d) | Raise e => Raise e end.
Proof.
  unfold plain_metric, get_loss_method.
  destruct (String.eqb method "euclidean") eqn:E1.
  { apply String.eqb_eq in E1. subst. intros [= <-].
    cbn [String.eqb Ascii.eqb Bool.eqb].
    unfold euclidean. rewrite !all_fin_Fin.
    now destruct (difference_overflows u v). }
  destruct (String.eqb method "manhattan") eqn:E2.
  { apply String.eqb_eq in E2. subst. intros [= <-].
    cbn [String.eqb Ascii.eqb Bool.eqb].
    unfold cityblock, on_finite. now rewrite !all_fin_Fin. }
  destruct (String.eqb method "area") eqn:E3.
  { apply String.eqb_eq in E3. subst. intros [= <-].
    cbn [String.eqb Ascii.eqb Bool.eqb].
    now rewrite area_Fin, cityblock_R_sum. }
  destruct (String.eqb method "hausdorff") eqn:E4; [|discriminate].
  apply String.eqb_eq in E4. subst. intros [= <-].
  cbn [String.eqb Ascii.eqb Bool.eqb].
  unfold hausdorff_distance, directed_hausdorff, on_finite.
  now rewrite !all_fin_Fin, py_max_Fin.
Qed.

Lemma plain_metric_nonneg (method : string) (u v : list R) (d : R) :
  plain_metric method u v = Some (Ok d) -> 0 <= d.
Proof.
  unfold plain_metric.
  repeat match goal with |- context [String.eqb method ?s] =>
    destruct (String.eqb method s) end; try discriminate.
  - destruct (difference_overflows u v); [discriminate|].
    intros [= <-]. apply sqrt_pos.
  - intros [= <-]. apply cityblock_R_nonneg.
  - intros [= <-]. apply cityblock_R_nonneg.
  - intros [= <-].
    eapply Rle_trans; [apply directed_hausdorff_R_nonneg | apply Rmax_l].
Qed.

Lemma plain_metric_sym (method : string) (u v : list R) :
  plain_metric method u v = plain_metric method v u.
Proof.
  unfold plain_metric.
  repeat match goal with |- context [String.eqb method ?s] =>
    destruct (String.eqb method s) end; try reflexivity.
  - rewrite (difference_overflows_sym v u). unfold euclidean_R.
    now rewrite sq_diff_sum_sym.
  - now rewrite cityblock_R_sym.
  - now rewrite cityblock_R_sym.
  - now rewrite Rmax_comm.
Qed.

Lemma plain_metric_diag (method : string) (u : list R) (r : res R) :
  plain_metric method u u = Some r -> r = Ok 0.
Proof.
  unfold plain_metric.
  repeat match goal with |- context [String.eqb method ?s] =>
    destruct (String.eqb method s) end; intros [= <-].
  - rewrite difference_overflows_diag. unfold euclidean_R.
    rewrite sq_diff_sum_diag. f_equal. apply sqrt_0.
  - f_equal. apply cityblock_R_diag.
  - f_equal. apply cityblock_R_diag.
  - f_equal. rewrite directed_hausdorff_R_diag. apply Rmax_left. lra.
Qed.

Lemma distance_like_plain (method : string) (u v : list R) :
  distance_like method = true -> exists r, plain_metric method u v = Some r.
Proof.
  unfold distance_like, plain_metric.
  repeat match goal with |- context [String.eqb method ?s] =>
    destruct (String.eqb method s) end; simpl; try discriminate; intros _;
    now eexists.
Qed.

Lemma plain_metric_moderate (method : string) (u v : list R) (r : res R) :
  Forall (fun x => Rabs x <= moderate_bound) u ->
  Forall (fun x => Rabs x <= moderate_bound) v ->
  plain_metric method u v = Some r -> exists d, r = Ok d.
Proof.
  intros Hu Hv. unfold plain_metric.
  rewrite (difference_overflows_moderate u v Hu Hv).
  repeat match goal with |- context [String.eqb method ?s] =>
    destruct (String.eqb method s) end; intros [= <-]; now eexists.
Qed.

(** X12: for "euclidean", "manhattan", "area" and "hausdorff", and two
    columns whose values are moderate (NaN, or of magnitude at most
    [2^500], so that nothing overflows), the loss is a number: not an
    error, not NaN, not negative.  Beyond that range the code returns
    [inf] or, for "euclidean", raises ValueError. *)
Theorem distance_losses_are_nonnegative (method : string) (a b : list f64) :
  distance_like method = true ->
  Forall moderate a ->
  Forall moderate b ->
  exists d : R, get_loss_value dtw_distance method a b = Ok (Fin d) /\ 0 <= d.
Proof.
  intros Hm Ha Hb. unfold get_loss_value.
  destruct (compress_valid_Fin a b) as (u & v & Hlen & Hu & Hv).
  pose proof (compress_moderate _ _ _ Ha Hu) as Hmu.
  pose proof (compress_moderate _ _ _ Hb Hv) as Hmv.
  rewrite Hu, Hv, !length_map.
  destruct (distance_like_plain method u v Hm) as [r Hr].
  destruct (plain_metric_moderate method u v r Hmu Hmv Hr) as [d ->].
  destruct ((length u =? 0)%nat || (length v =? 0)%nat).
  - exists 1000. split; [reflexivity | lra].
  - exists d. split.
    + now rewrite (get_loss_method_plain method u v (Ok d)).
    + now apply (plain_metric_nonneg method u v).
Qed.

(** X13: those four losses do not depend on which of the two columns is
    the reference. *)
Theorem distance_losses_are_symmetric (method : string) (a b : list f64) :
  distance_like method = true ->
  get_loss_value dtw_distance method a b = get_loss_value dtw_distance method b a.
Proof.
  intros Hm. unfold get_loss_value. rewrite (valid_mask_sym b a).
  destruct (compress_valid_Fin a b) as (u & v & Hlen & -> & ->).
  rewrite !length_map, orb_comm.
  destruct (distance_like_plain method u v Hm) as [r Hr].
  destruct ((length v =? 0)%nat || (length u =? 0)%nat); [reflexivity|].
  rewrite (get_loss_method_plain method u v r) by assumption.
  rewrite plain_metric_sym in Hr.
  now rewrite (get_loss_method_plain method v u r).
Qed.

Lemma compress_self (a : list f64) :
  exists u : list R,
    compress (valid_mask a a) a = map Fin u
    /\ (u = [] <-> forallb isnan a = true).
Proof.
  induction a as [|x a (u & Hu & Hnil)]; simpl.
  - exists []. now repeat split.
  - destruct x as [|x]; simpl.
    + exists u. now split.
    + exists (x :: u). rewrite Hu. split; [reflexivity | split; discriminate].
Qed.

(** X14: with those four methods a column compared with itself has loss
    0, unless every entry is NaN (or there is none), where the loss is the
    sentinel 1000. *)
Theorem identical_columns_have_zero_loss (method : string) (a : list f64) :
  distance_like method = true ->
  get_loss_value dtw_distance method a a
  = Ok (Fin (if forallb isnan a then 1000 else 0)).
Proof.
  intros Hm. unfold get_loss_value.
  destruct (compress_self a) as (u & -> & Hnil).
  rewrite !length_map, orb_diag.
  destruct u as [|x u].
  - now rewrite (proj1 Hnil eq_refl).
  - destruct (forallb isnan a); [discriminate (proj2 Hnil eq_refl)|].
    cbn [length Nat.eqb].
    destruct (distance_like_plain method (x :: u) (x :: u) Hm) as [r Hr].
    rewrite (get_loss_method_plain method (x :: u) (x :: u) r) by assumption.
    now rewrite (plain_metric_diag method (x :: u) r).
Qed.

(** On moderate columns no supported method raises. *)
Lemma get_loss_value_supported (method : string) (a b : list f64) :
  supported_method method = true ->
  Forall moderate a ->
  Forall moderate b ->
  exists v : f64, get_loss_value dtw_distance method a b = Ok v.
Proof.
  intros Hs Ha Hb. unfold get_loss_value.
  destruct (compress_valid_Fin a b) as (u & v & Hlen & Hu & Hv).
  pose proof (compress_moderate _ _ _ Ha Hu) as Hmu.
  pose proof (compress_moderate _ _ _ Hb Hv) as Hmv.
  rewrite Hu, Hv, !length_map.
  destruct ((length u =? 0)%nat || (length v =? 0)%nat); [now eexists|].
  unfold supported_method in Hs. unfold get_loss_method.
  destruct (String.eqb method "dtw"); [now eexists|].
  destruct (String.eqb method "euclidean").
  { unfold euclidean. rewrite !all_fin_Fin.
    rewrite (difference_overflows_moderate u v Hmu Hmv). now eexists. }
  destruct (String.eqb method "manhattan"); [now eexists|].
  destruct (String.eqb method "correlation"); [now eexists|].
  destruct (String.eqb method "area"); [now eexists|].
  destruct (String.eqb method "hausdorff"); [now eexists|].
  discriminate.
Qed.

(** X15: the "correlation" loss of any two columns, in [get_loss] and in
    [perform_distance] alike, is a number between -1 and 1, or the sentinel
    1000; it is never NaN and never an error. *)
Theorem correlation_loss_range (a b : list f64) :
  exists d : R,
    get_loss_value dtw_distance "correlation" a b = Ok (Fin d)
    /\ perform_distance_value dtw_distance scipy_stats_hausdorff_distance
         "correlation" a b = Ok (Fin d)
    /\ (-1 <= d <= 1 \/ d = 1000).
Proof.
  unfold get_loss_value, perform_distance_value.
  destruct (compress_valid_Fin a b) as (u & v & Hlen & -> & ->).
  rewrite !length_map.
  destruct ((length u =? 0)%nat || (length v =? 0)%nat).
  - exists 1000. repeat split. now right.
  - rewrite correlation_branch, correlation_branch_perform.
    destruct (pearson u v) as [|r] eqn:Hr.
    + exists 1000. repeat split. now right.
    + exists r. repeat split. left. now apply (pearson_range u v).
Qed.

End LossFacts.

(** ** Sampling, shifting and the loss, end to end *)

Lemma supported_statistic_cases (stat : string) :
  supported_statistic stat = true ->
  stat = "mean" \/ stat = "median" \/ stat = "min" \/ stat = "max" \/ stat = "sum".
Proof.
  unfold supported_statistic. rewrite !orb_true_iff, !String.eqb_eq. tauto.
Qed.

Lemma statistic_single (stat : string) (v : R) :
  supported_statistic stat = true -> statistic stat [Fin v] = Some (Fin v).
Proof.
  intros Hs.
  destruct (supported_statistic_cases stat Hs) as [-> | [-> | [-> | [-> | ->]]]];
    unfold statistic; cbn [String.eqb Ascii.eqb Bool.eqb];
    unfold on_finite1; cbn [all_fin]; do 2 f_equal;
    unfold np_mean, np_median, np_sort, np_min, np_max, Rsum; simpl;
    first [reflexivity | lra | field].
Qed.

Section Footprints.

Context {G : Type} `{RandomGen G}.
Variables Raster Affine : Type.
Variable mask_valid : Raster -> Affine -> Shape -> option (list f64).
Variable proj_transform : Z -> Z -> R * R -> R * R.
Variable dtw_distance : list f64 -> list f64 -> f64.
Variable scipy_stats_hausdorff_distance : list f64 -> list f64 -> f64.

Local Abbreviation W := (@world G).
Local Abbreviation position_adjustment := (position_adjustment proj_transform).
Local Abbreviation extract_values :=
  (extract_values Raster Affine mask_valid proj_transform).
Local Abbreviation row_value := (row_value Raster Affine mask_valid).
Local Abbreviation row_sample := (row_sample Raster Affine mask_valid).
Local Abbreviation sampled_cells := (sampled_cells Raster Affine mask_valid).
Local Abbreviation extracted_frame := (extracted_frame Raster Affine mask_valid).
Local Abbreviation get_loss :=
  (get_loss Raster Affine mask_valid proj_transform dtw_distance).
Local Abbreviation perform_distance :=
  (perform_distance Raster Affine mask_valid proj_transform dtw_distance
                    scipy_stats_hausdorff_distance).
Local Abbreviation minimize_loss :=
  (minimize_loss Raster Affine mask_valid proj_transform dtw_distance).
Local Abbreviation positional_correction :=
  (positional_correction Raster Affine mask_valid proj_transform dtw_distance).
Local Abbreviation registered_toolbox :=
  (registered_toolbox Raster Affine mask_valid proj_transform dtw_distance).
Local Abbreviation loss_frames := (loss_frames Raster Affine mask_valid proj_transform).

(** X3: on a frame that has a CRS and whose rows have distinct labels, and
    with no CRS code, [extract_values] returns a new frame and leaves the
    input and the generator as they were.  The new frame has the geometry,
    the index, the CRS and the columns of the input, and the column
    "extracted_value" with one cell per row: the statistic of the row's
    [valid_data], the array the code selects from the crop window that
    [mask] returns for the row's geometry (buffered when [buf > 0]); and
    NaN where [mask] raises, [valid_data] is empty, or the statistic is
    not one of the five.  Which cells [valid_data] holds is rasterio's
    answer ([mask_valid]) and is not part of the statement. *)
Theorem extract_values_fills_each_row (gdf : ref) (raster : Raster)
    (tr : Affine) (buf : R) (stat : string) (g : GeoDataFrame) (src : Z)
    (w : W) :
  heap w !! gdf = Some g ->
  gdf_crs g = Some src ->
  distinct_labels g ->
  exists (out : ref) (g' : GeoDataFrame) (cells : list f64) (w' : W),
    extract_values gdf raster tr buf stat None w = (Ok out, w')
    /\ grows w w'
    /\ heap w' !! out = Some g'
    /\ gdf_geometry g' = gdf_geometry g
    /\ gdf_index g' = gdf_index g
    /\ gdf_crs g' = gdf_crs g
    /\ (forall name, name <> "extracted_value" ->
          gdf_columns g' !! name = gdf_columns g !! name)
    /\ gdf_columns g' !! "extracted_value" = Some cells
    /\ length cells = length (gdf_geometry g)
    /\ forall (i : nat) (geom : Geometry),
         gdf_geometry g !! i = Some geom ->
         cells !! i
         = Some match mask_valid raster tr
                        (if Rltb 0 buf then Buffered geom buf else Plain geom)
                with
                | None => NaN
                | Some [] => NaN
                | Some (c :: cs) => default NaN (statistic stat (c :: cs))
                end.
Proof.
  intros Hg Hcrs [Hlen Hdup].
  exists (length (heap w)), (extracted_frame raster tr buf stat g),
    (map (row_value raster tr buf stat) (gdf_geometry g)),
    (mkWorld (heap w ++ [extracted_frame raster tr buf stat g]) (rng w)).
  split; [now apply extract_values_run with src|].
  split; [split; [now eexists | reflexivity]|].
  split; [simpl; apply lookup_last|].
  split; [reflexivity|]. split; [reflexivity|]. split; [reflexivity|].
  split; [intros name Hn; simpl; now rewrite lookup_insert_ne|].
  split.
  { simpl. rewrite lookup_insert_eq. f_equal.
    now apply sampled_cells_unique. }
  split; [now rewrite length_map|].
  intros i geom Hi. rewrite list_lookup_fmap, Hi. simpl. f_equal.
  unfold row_value.
  destruct (mask_valid raster tr _) as [[|c cs]|]; reflexivity.
Qed.

(** X4: on such a frame, where the [valid_data] of a row is a single
    value, each of "mean", "median", "min", "max" and "sum" stores that
    value in the row. *)
Theorem single_cell_is_its_own_statistic (gdf : ref) (raster : Raster)
    (tr : Affine) (buf : R) (stat : string) (g : GeoDataFrame) (src : Z)
    (w : W) (i : nat) (geom : Geometry) (v : R) :
  heap w !! gdf = Some g ->
  gdf_crs g = Some src ->
  distinct_labels g ->
  supported_statistic stat = true ->
  gdf_geometry g !! i = Some geom ->
  mask_valid raster tr (if Rltb 0 buf then Buffered geom buf else Plain geom)
  = Some [Fin v] ->
  exists (out : ref) (g' : GeoDataFrame) (cells : list f64) (w' : W),
    extract_values gdf raster tr buf stat None w = (Ok out, w')
    /\ heap w' !! out = Some g'
    /\ gdf_columns g' !! "extracted_value" = Some cells
    /\ cells !! i = Some (Fin v).
Proof.
  intros Hg Hcrs [Hlen Hdup] Hs Hi Hmask.
  exists (length (heap w)), (extracted_frame raster tr buf stat g),
    (map (row_value raster tr buf stat) (gdf_geometry g)),
    (mkWorld (heap w ++ [extracted_frame raster tr buf stat g]) (rng w)).
  split; [now apply extract_values_run with src|].
  split; [simpl; apply lookup_last|].
  split.
  { simpl. rewrite lookup_insert_eq. f_equal.
    now apply sampled_cells_unique. }
  rewrite list_lookup_fmap, Hi. simpl. f_equal.
  unfold row_value. rewrite Hmask. simpl.
  now rewrite statistic_single.
Qed.


Lemma centroid_coords_points (coords : list (R * R)) (f h : R * R -> R) :
  centroid_coords (map (fun p => Point (f p) (h p)) coords)
  = Some (map (fun p => (f p, h p)) coords).
Proof.
  induction coords as [|c coords IH]; simpl; [reflexivity|]. now rewrite IH.
Qed.

Lemma centroid_coords_geometry (gs : list Geometry) (coords : list (R * R)) :
  centroid_coords gs = Some coords ->
  gs = map (fun p => Point (fst p) (snd p)) coords.
Proof.
  revert coords. induction gs as [|[|x y] gs IH]; intros coords Hc; simpl in Hc.
  - now injection Hc as <-.
  - discriminate.
  - destruct (centroid_coords gs) as [cs|]; [|discriminate].
    injection Hc as <-. simpl. f_equal. now apply IH.
Qed.

Lemma centroid_coords_total (gs : list Geometry) :
  existsb is_empty gs = false -> exists coords, centroid_coords gs = Some coords.
Proof.
  induction gs as [|[|x y] gs IH]; simpl; intros He.
  - now eexists.
  - discriminate.
  - destruct (IH He) as [cs ->]. now eexists.
Qed.

Lemma lookup_third {A} (l : list A) (x y z : A) :
  (l ++ [x; y; z]) !! (length l + 2)%nat = Some z.
Proof.
  rewrite lookup_app_r by lia.
  replace (length l + 2 - length l)%nat with 2%nat by lia. reflexivity.
Qed.

(** X7: offsets add up.  Adjusting a frame by [(a, b)] and the result by
    [(c, d)], in the CRS the frame is held in, gives the points moved by
    [(a + c, b + d)]; "orig_x" and "orig_y" of the final frame hold the
    coordinates after the first adjustment, not those of the input, and
    the input frame is left as it was. *)
Theorem position_adjustment_twice (gdf : ref) (a b c d : R) (code : Z)
    (g : GeoDataFrame) (coords : list (R * R)) (w : W) :
  heap w !! gdf = Some g ->
  gdf_crs g = Some code ->
  centroid_coords (gdf_geometry g) = Some coords ->
  coords <> [] ->
  exists (first second : ref) (g2 : GeoDataFrame) (w1 w2 : W),
    position_adjustment gdf a b code w = (Ok first, w1)
    /\ position_adjustment first c d code w1 = (Ok second, w2)
    /\ heap w2 !! second = Some g2
    /\ gdf_geometry g2
       = map (fun p => Point (fst p + a + c) (snd p + b + d)) coords
    /\ gdf_columns g2 !! "orig_x" = Some (map (fun p => Fin (fst p + a)) coords)
    /\ gdf_columns g2 !! "orig_y" = Some (map (fun p => Fin (snd p + b)) coords)
    /\ heap w2 !! gdf = Some g.
Proof.
  intros Hg Hcrs Hcoords Hne.
  pose proof (position_adjustment_run proj_transform gdf a b code code g coords
                w Hg Hcrs) as H1.
  rewrite map_reproject_same in H1. specialize (H1 Hcoords Hne). cbv zeta in H1.
  set (g3 := shifted_frame code a b coords _) in H1.
  set (w1 := mkWorld _ _) in H1.
  assert (Hg3 : heap w1 !! (length (heap w) + 2)%nat = Some g3).
  { apply lookup_third. }
  pose proof (position_adjustment_run proj_transform (length (heap w) + 2)%nat
                c d code code g3 (map (fun p => (fst p + a, snd p + b)) coords)
                w1 Hg3 eq_refl) as H2.
  rewrite map_reproject_same in H2.
  specialize (H2 (centroid_coords_points coords _ _)).
  assert (Hne2 : map (fun p : R * R => (fst p + a, snd p + b)) coords <> [])
    by (destruct coords; [congruence | discriminate]).
  specialize (H2 Hne2). cbv zeta in H2.
  do 5 eexists. split; [exact H1|]. split; [exact H2|].
  split; [apply lookup_third|].
  split; [cbn [shifted_frame gdf_geometry]; now rewrite map_map|].
  split.
  { cbn [shifted_frame origin_frame gdf_columns with_column].
    rewrite lookup_insert_ne by discriminate.
    rewrite lookup_insert_eq. now rewrite map_map. }
  split.
  { cbn [shifted_frame origin_frame gdf_columns with_column].
    rewrite lookup_insert_eq. now rewrite map_map. }
  cbn [heap]. apply lookup_app_l_Some. subst w1. cbn [heap].
  now apply lookup_app_l_Some.
Qed.

(** X8: what [position_adjustment] refuses, of the frames that have a
    geometry column: one with an empty geometry in it (ValueError, before
    any frame is made), one without CRS (the ValueError of [to_crs]), and
    one without rows but with a CRS (the IndexError of [coords[:, 0]] on an
    array of shape [(0,)]).  A frame without geometry column, such as
    [GeoDataFrame()], fails earlier, at [gdf.geometry]; the frames of this
    development all have the column. *)
Theorem position_adjustment_refuses (gdf : ref) (add_x add_y : R) (code : Z)
    (g : GeoDataFrame) (w : W) :
  heap w !! gdf = Some g ->
  (existsb is_empty (gdf_geometry g) = true ->
   position_adjustment gdf add_x add_y code w
   = (Raise (ValueError "Input gdf contains empty geometries"), w))
  /\ (existsb is_empty (gdf_geometry g) = false -> gdf_crs g = None ->
      position_adjustment gdf add_x add_y code w
      = (Raise (ValueError "Cannot transform naive geometries"), w))
  /\ (gdf_geometry g = [] -> is_Some (gdf_crs g) ->
      fst (position_adjustment gdf add_x add_y code w)
      = Raise (IndexError "too many indices for array")).
Proof.
  intros Hg. repeat split.
  - intros He. unfold position_adjustment.
    rewrite (run_deref _ g) by assumption. now rewrite He.
  - intros He Hcrs. unfold position_adjustment.
    rewrite (run_deref _ g) by assumption. rewrite He.
    unfold to_crs. unfold mbind at 1. unfold M_bind at 1.
    rewrite (run_deref _ g) by assumption. now rewrite Hcrs.
  - intros Hnil [src Hcrs].
    now apply (position_adjustment_empty proj_transform gdf add_x add_y code src g).
Qed.


(** Apart from "hausdorff", the supported methods are computed alike by
    the two evaluators, errors included. *)
Lemma perform_distance_value_get_loss (method : string) (a b : list f64) :
  supported_method method = true ->
  String.eqb method "hausdorff" = false ->
  perform_distance_value dtw_distance scipy_stats_hausdorff_distance method a b
  = get_loss_value dtw_distance method a b.
Proof.
  intros Hs Hh. unfold get_loss_value, perform_distance_value.
  cbv zeta.
  destruct ((length (compress (valid_mask a b) a) =? 0)%nat
            || (length (compress (valid_mask a b) b) =? 0)%nat);
    [reflexivity|].
  unfold get_loss_method, perform_distance_method.
  unfold supported_method in Hs. rewrite Hh, orb_false_r in Hs.
  destruct (String.eqb method "dtw"); [reflexivity|].
  destruct (String.eqb method "euclidean"); [reflexivity|].
  destruct (String.eqb method "manhattan"); [reflexivity|].
  destruct (String.eqb method "correlation"); [reflexivity|].
  destruct (String.eqb method "area"); [reflexivity|].
  discriminate.
Qed.

Lemma sampled_cells_nil (raster : Raster) (tr : Affine) (buf : R)
    (stat : string) (labels : list Z) :
  sampled_cells raster tr buf stat labels [] = [].
Proof. unfold sampled_cells. now destruct labels. Qed.

Lemma perform_distance_reference_run (gdf : ref) (raster : Raster) (tr : Affine)
    (method stat name : string) (buf : R) (g : GeoDataFrame) (src : Z)
    (reference : list f64) (w : W) :
  heap w !! gdf = Some g ->
  gdf_crs g = Some src ->
  gdf_columns g !! name = Some reference ->
  name <> "extracted_value" ->
  perform_distance gdf raster tr method buf stat None (Some name) w
  = (perform_distance_value dtw_distance scipy_stats_hausdorff_distance method
       reference
       (sampled_cells raster tr buf stat (gdf_index g) (gdf_geometry g)),
     mkWorld (heap w ++ [extracted_frame raster tr buf stat g]) (rng w)).
Proof.
  intros Hg Hcrs Href Hname.
  erewrite perform_distance_after_extraction; cycle 1.
  - exact Hg.
  - simpl. unfold lacks_column. now rewrite Href.
  - eapply extract_values_run; eassumption.
  - cbn [heap]. rewrite lookup_last.
    unfold extracted_frame, with_column. cbn [gdf_columns].
    rewrite lookup_insert_ne by congruence. rewrite Href.
    now rewrite lookup_insert_eq.
Qed.

(** X9: [get_loss] end to end, for a frame held in a CRS whose rows have
    distinct labels, with no CRS code and a reference column other than
    the three names the pipeline writes.  The raster is sampled at the
    points moved by the offset, the outcome is that of the reference
    column against the sampled values (the loss, or the exception of the
    metric), and the frame returned under "adjusted_footprints" is the
    sampled one: the moved points, the reference column and
    "extracted_value".  The input frame is left as it was. *)
Theorem get_loss_scores_shifted_footprints (lidar_footprints : ref)
    (add_x add_y buf : R) (raster : Raster) (tr : Affine)
    (method stat name : string) (g : GeoDataFrame) (src : Z)
    (coords : list (R * R)) (reference : list f64) (w : W) :
  heap w !! lidar_footprints = Some g ->
  gdf_crs g = Some src ->
  distinct_labels g ->
  centroid_coords (gdf_geometry g) = Some coords ->
  coords <> [] ->
  gdf_columns g !! name = Some reference ->
  name <> "orig_x" -> name <> "orig_y" -> name <> "extracted_value" ->
  exists (out : ref) (g' : GeoDataFrame) (sampled : list f64) (w' : W),
    get_loss lidar_footprints add_x add_y buf raster tr method stat None
             (Some name) w
    = (match get_loss_value dtw_distance method reference sampled with
       | Ok v => Ok (mkLoss v out)
       | Raise e => Raise e
       end, w')
    /\ sampled
       = map (fun p => row_value raster tr buf stat
                         (Point (fst p + add_x) (snd p + add_y))) coords
    /\ heap w' !! out = Some g'
    /\ gdf_geometry g'
       = map (fun p => Point (fst p + add_x) (snd p + add_y)) coords
    /\ gdf_columns g' !! name = Some reference
    /\ gdf_columns g' !! "extracted_value" = Some sampled
    /\ heap w' !! lidar_footprints = Some g.
Proof.
  intros Hg Hcrs [Hlen Hdup] Hcoords Hne Href Hx Hy He.
  pose proof (get_loss_reference_run Raster Affine mask_valid proj_transform
                dtw_distance lidar_footprints add_x add_y buf raster tr method
                stat name g src coords reference w Hg Hcrs Hcoords Hne Href
                Hx Hy He) as Hrun.
  cbv zeta in Hrun.
  assert (Hcells :
    sampled_cells raster tr buf stat (gdf_index g)
      (map (fun p => Point (fst p + add_x) (snd p + add_y)) coords)
    = map (fun p => row_value raster tr buf stat
                      (Point (fst p + add_x) (snd p + add_y))) coords).
  { rewrite sampled_cells_unique, ?map_map; [reflexivity | assumption |].
    rewrite length_map, Hlen.
    rewrite (centroid_coords_geometry _ _ Hcoords). now rewrite length_map. }
  rewrite Hcells in Hrun.
  do 4 eexists. split; [exact Hrun|]. split; [reflexivity|].
  unfold loss_frames. cbn [heap].
  split.
  { rewrite lookup_app_r by lia.
    replace (length (heap w) + 3 - length (heap w))%nat with 3%nat by lia.
    reflexivity. }
  split; [reflexivity|].
  split.
  { unfold extracted_frame, shifted_frame, origin_frame,
      reprojected_frame, with_column. cbn [gdf_columns].
    rewrite !lookup_insert_ne by congruence. exact Href. }
  split.
  { unfold extracted_frame, with_column. cbn [gdf_columns].
    rewrite lookup_insert_eq. cbn [shifted_frame gdf_geometry gdf_index].
    cbn [origin_frame with_column reprojected_frame gdf_index].
    now rewrite Hcells. }
  now apply lookup_app_l_Some.
Qed.

(** X10: on a frame of points held in a CRS, and for a supported method
    other than "hausdorff", [perform_distance] has the outcome of
    [get_loss] at the offset [(0, 0)]: the same loss, or the same
    exception where the metric raises. *)
Theorem perform_distance_is_get_loss_without_shift (gdf : ref) (buf : R)
    (raster : Raster) (tr : Affine) (method stat name : string)
    (g : GeoDataFrame) (src : Z) (reference : list f64) (w : W) :
  heap w !! gdf = Some g ->
  gdf_crs g = Some src ->
  gdf_geometry g <> [] ->
  existsb is_empty (gdf_geometry g) = false ->
  gdf_columns g !! name = Some reference ->
  name <> "orig_x" -> name <> "orig_y" -> name <> "extracted_value" ->
  supported_method method = true ->
  String.eqb method "hausdorff" = false ->
  fst (perform_distance gdf raster tr method buf stat None (Some name) w)
  = match fst (get_loss gdf 0 0 buf raster tr method stat None (Some name) w)
    with
    | Ok result => Ok (loss_value result)
    | Raise e => Raise e
    end.
Proof.
  intros Hg Hcrs Hne Hempty Href Hx Hy He Hs Hh.
  destruct (centroid_coords_total _ Hempty) as [coords Hcoords].
  assert (Hc : coords <> []).
  { intros ->. apply Hne. now rewrite (centroid_coords_geometry _ _ Hcoords). }
  rewrite (get_loss_reference_run Raster Affine mask_valid proj_transform
             dtw_distance gdf 0 0 buf raster tr method stat name g src coords
             reference w Hg Hcrs Hcoords Hc Href Hx Hy He).
  rewrite (perform_distance_reference_run gdf raster tr method stat name buf g
             src reference w Hg Hcrs Href He).
  cbv zeta. cbn [fst].
  replace (map (fun p : R * R => Point (fst p + 0) (snd p + 0)) coords)
    with (gdf_geometry g).
  2:{ rewrite (centroid_coords_geometry _ _ Hcoords) at 1.
      apply map_ext. intros [x y]. simpl. now rewrite !Rplus_0_r. }
  rewrite (perform_distance_value_get_loss method) by assumption.
  now destruct (get_loss_value dtw_distance method reference _).
Qed.

(** X11: on a frame without rows that has a CRS and the reference column,
    the two evaluators differ: [get_loss] raises the IndexError of
    [position_adjustment], [perform_distance] returns the sentinel 1000. *)
Theorem empty_frame_loss (gdf : ref) (add_x add_y buf : R)
    (raster : Raster) (tr : Affine) (method stat name : string)
    (g : GeoDataFrame) (src : Z) (reference : list f64) (w : W) :
  heap w !! gdf = Some g ->
  gdf_crs g = Some src ->
  gdf_geometry g = [] ->
  gdf_columns g !! name = Some reference ->
  name <> "extracted_value" ->
  fst (get_loss gdf add_x add_y buf raster tr method stat None (Some name) w)
  = Raise (IndexError "too many indices for array")
  /\ fst (perform_distance gdf raster tr method buf stat None (Some name) w)
     = Ok (Fin 1000).
Proof.
  intros Hg Hcrs Hnil Href He. split.
  - unfold get_loss. rewrite (run_deref _ g) by assumption.
    cbn [names_missing_column]. unfold lacks_column. rewrite Href.
    unfold crs_code_or_epsg, crs_to_epsg. rewrite Hcrs, run_ret.
    pose proof (position_adjustment_empty proj_transform gdf add_x add_y src
                  src g w Hg Hcrs Hnil) as Hraise.
    destruct (position_adjustment gdf add_x add_y src w)
      as [r w1] eqn:Hrun.
    simpl in Hraise. subst r.
    now rewrite (run_bind_raise _ _ _ _ _ Hrun).
  - rewrite (perform_distance_reference_run gdf raster tr method stat name buf g
               src reference w Hg Hcrs Href He).
    rewrite Hnil, sampled_cells_nil. cbn [fst]. unfold perform_distance_value.
    assert (Hm : valid_mask reference [] = []) by now destruct reference.
    rewrite Hm. now destruct reference.
Qed.

(** X1: the four functions of the loss pipeline leave every frame that
    existed before the call in place and unchanged, whatever they return
    or raise: [to_crs] and [copy] make new frames, and the column and cell
    assignments go to those.  They do not touch the random generator. *)
Theorem loss_pipeline_only_appends_frames (gdf : ref) (add_x add_y buf : R)
    (code : Z) (raster : Raster) (tr : Affine) (method stat : string)
    (crs_code : option Z) (lidar_value : option string) (w : W) :
  grows w (snd (position_adjustment gdf add_x add_y code w))
  /\ grows w (snd (extract_values gdf raster tr buf stat crs_code w))
  /\ grows w (snd (get_loss gdf add_x add_y buf raster tr method stat
                            crs_code lidar_value w))
  /\ grows w (snd (perform_distance gdf raster tr method buf stat crs_code
                                    lidar_value w)).
Proof.
  split; [apply position_adjustment_grows|].
  split; [apply extract_values_grows|].
  split; [apply get_loss_grows | apply perform_distance_grows].
Qed.

(** X5: given a CRS code, [extract_values] reprojects first: the frame it
    returns is in that CRS, holds the reprojected geometry and the index
    and columns of the input, and, the rows having distinct labels, its
    "extracted_value" cell of a row is sampled at the row's reprojected
    geometry.  The input frame is left as it was. *)
Theorem extract_values_reprojects_first (gdf : ref) (raster : Raster)
    (tr : Affine) (buf : R) (stat : string) (g : GeoDataFrame)
    (src code : Z) (w : W) :
  heap w !! gdf = Some g ->
  gdf_crs g = Some src ->
  distinct_labels g ->
  exists (out : ref) (g' : GeoDataFrame) (w' : W),
    extract_values gdf raster tr buf stat (Some code) w = (Ok out, w')
    /\ heap w' !! out = Some g'
    /\ gdf_crs g' = Some code
    /\ gdf_geometry g' = map (reproject proj_transform src code) (gdf_geometry g)
    /\ gdf_index g' = gdf_index g
    /\ gdf_columns g' !! "extracted_value"
       = Some (map (fun geom => row_value raster tr buf stat
                                  (reproject proj_transform src code geom))
                   (gdf_geometry g))
    /\ (forall name, name <> "extracted_value" ->
          gdf_columns g' !! name = gdf_columns g !! name)
    /\ heap w' !! gdf = Some g.
Proof.
  intros Hg Hcrs [Hlen Hdup].
  pose proof (extract_values_run_crs Raster Affine mask_valid proj_transform
                gdf raster tr buf stat g src code w Hg Hcrs) as Hrun.
  cbv zeta in Hrun.
  do 3 eexists. split; [exact Hrun|]. cbn [heap].
  split.
  { rewrite lookup_app_r by lia.
    replace (length (heap w) + 1 - length (heap w))%nat with 1%nat by lia.
    reflexivity. }
  split; [reflexivity|]. split; [reflexivity|]. split; [reflexivity|].
  unfold extracted_frame, with_column, reprojected_frame.
  cbn [gdf_columns gdf_geometry gdf_index].
  split.
  { rewrite lookup_insert_eq. f_equal.
    rewrite sampled_cells_unique, ?map_map; auto.
    now rewrite length_map. }
  split; [intros name Hname; now rewrite lookup_insert_ne by congruence|].
  now apply lookup_app_l_Some.
Qed.

(** X6: [extract_values] refuses a frame without CRS: with a CRS code
    through [to_crs], and without one where the raster is opened, at
    [gdf.crs.to_epsg()]. *)
Theorem extract_values_needs_crs (gdf : ref) (raster : Raster)
    (tr : Affine) (buf : R) (stat : string) (g : GeoDataFrame) (code : Z)
    (w : W) :
  heap w !! gdf = Some g ->
  gdf_crs g = None ->
  fst (extract_values gdf raster tr buf stat (Some code) w)
  = Raise (ValueError "Cannot transform naive geometries")
  /\ fst (extract_values gdf raster tr buf stat None w)
     = Raise (AttributeError "NoneType has no attribute to_epsg").
Proof.
  intros Hg Hcrs. split.
  - unfold extract_values. erewrite run_bind_raise; [reflexivity|].
    unfold to_crs. rewrite (run_deref _ g) by assumption. now rewrite Hcrs.
  - unfold extract_values. rewrite run_ret.
    erewrite run_bind by (apply run_copy; eassumption).
    rewrite run_modify. cbn [heap rng]. rewrite alter_last.
    rewrite (run_deref _ g) by (cbn [heap]; now apply lookup_app_l_Some).
    unfold crs_to_epsg. now rewrite Hcrs.
Qed.

End Footprints.

(** ** The optimizer *)

Lemma insert_desc_length (x : Individual) (l : list Individual) :
  length (insert_desc x l) = S (length l).
Proof.
  induction l as [|y l IH]; simpl; [reflexivity|].
  destruct (fit_lt (fitness x) (fitness y)); simpl; now rewrite ?IH.
Qed.

Lemma sorted_desc_length (l : list Individual) :
  length (sorted_desc l) = length l.
Proof.
  induction l as [|x l IH]; simpl; [reflexivity|].
  now rewrite insert_desc_length, IH.
Qed.

(** The head of the sorted list is a member of least loss. *)
Lemma sorted_desc_head (l : list Individual) :
  l <> [] ->
  Forall (fun i => is_Some (fitness i)) l ->
  exists (best : Individual) (rest : list Individual) (vb : R),
    sorted_desc l = best :: rest
    /\ best ∈ l
    /\ fitness best = Some vb
    /\ forall (i : Individual) (vi : R),
         i ∈ l -> fitness i = Some vi -> vb <= vi.
Proof.
  induction l as [|x l IH]; [congruence|]. intros _ Hall.
  apply Forall_cons in Hall as [[vx Hvx] Hall].
  destruct l as [|y l].
  - exists x, [], vx. repeat split; [left | assumption |].
    intros i vi Hi Hfi. apply list_elem_of_singleton in Hi as ->.
    rewrite Hvx in Hfi. injection Hfi as <-. lra.
  - destruct (IH ltac:(discriminate) Hall) as (b & t & vb & Hs & Hb & Hvb & Hmin).
    change (sorted_desc (x :: y :: l)) with (insert_desc x (sorted_desc (y :: l))).
    rewrite Hs. cbn [insert_desc]. rewrite Hvx, Hvb. cbn [fit_lt].
    destruct (Rlt_dec (- vx) (- vb)) as [Hlt|Hge].
    + rewrite Rltb_true by lra. exists b, (insert_desc x t), vb.
      repeat split; [now right | assumption |].
      intros i vi Hi Hfi. apply elem_of_cons in Hi as [->|Hi].
      * rewrite Hvx in Hfi. injection Hfi as <-. lra.
      * now apply (Hmin i).
    + rewrite Rltb_false by lra. exists x, (b :: t), vx.
      repeat split; [left | assumption |].
      intros i vi Hi Hfi. apply elem_of_cons in Hi as [->|Hi].
      * rewrite Hvx in Hfi. injection Hfi as <-. lra.
      * pose proof (Hmin i vi Hi Hfi). lra.
Qed.

Section Optimizer.

Context {G : Type} `{RandomGen G}.
Variables Raster Affine : Type.
Variable mask_valid : Raster -> Affine -> Shape -> option (list f64).
Variable proj_transform : Z -> Z -> R * R -> R * R.
Variable dtw_distance : list f64 -> list f64 -> f64.
Variable scipy_stats_hausdorff_distance : list f64 -> list f64 -> f64.

Local Abbreviation W := (@world G).
Local Abbreviation get_loss :=
  (get_loss Raster Affine mask_valid proj_transform dtw_distance).
Local Abbreviation objective_function :=
  (objective_function Raster Affine mask_valid proj_transform dtw_distance).
Local Abbreviation minimize_loss :=
  (minimize_loss Raster Affine mask_valid proj_transform dtw_distance).
Local Abbreviation positional_correction :=
  (positional_correction Raster Affine mask_valid proj_transform dtw_distance).
Local Abbreviation registered_toolbox :=
  (registered_toolbox Raster Affine mask_valid proj_transform dtw_distance).
Local Abbreviation loss_frames := (loss_frames Raster Affine mask_valid proj_transform).
Local Abbreviation objective_value :=
  (objective_value Raster Affine mask_valid dtw_distance).

Lemma new_population_fresh (lower_bounds upper_bounds : R * R) (n : nat) (w : W) :
  exists (population : list Individual) (gen : G),
    new_population lower_bounds upper_bounds n w
    = (Ok population, mkWorld (heap w) gen)
    /\ length population = n
    /\ Forall unevaluated population.
Proof.
  unfold new_population. generalize 0%nat as start. revert w.
  induction n as [|n IH]; intros w start; cbn [seq map_M].
  - exists [], (rng w). destruct w. repeat split. constructor.
  - unfold mbind at 1. unfold M_bind at 1. rewrite new_individual_run.
    cbv zeta. unfold mbind at 1. unfold M_bind at 1.
    match goal with |- context [map_M _ _ ?w1] =>
      destruct (IH w1 (S start)) as (pop & gen & Hrun & Hlen & Hfresh) end.
    rewrite Hrun. eexists (_ :: pop), gen. cbn [heap] in *.
    repeat split.
    + simpl. now rewrite Hlen.
    + constructor; [|assumption]. split; [reflexivity|]. now eexists _, _.
Qed.

Section Frame.

Variables (lidar_footprints : ref) (raster : Raster) (tr : Affine).
Variables (method stat name : string) (buf : R).
Variables (g : GeoDataFrame) (src : Z) (coords : list (R * R)).
Variable reference : list f64.
Hypothesis Hcrs : gdf_crs g = Some src.
Hypothesis Hcoords : centroid_coords (gdf_geometry g) = Some coords.
Hypothesis Hne : coords <> [].
Hypothesis Href : gdf_columns g !! name = Some reference.
Hypothesis Hx : name <> "orig_x".
Hypothesis Hy : name <> "orig_y".
Hypothesis He : name <> "extracted_value".

Lemma objective_function_reference_run (x y : R) (fit : option R) (w : W) :
  heap w !! lidar_footprints = Some g ->
  objective_function lidar_footprints raster tr method stat buf None
                     (Some name) (mkInd [x; y] fit) w
  = (objective_value raster tr buf stat method reference (gdf_index g)
       coords x y,
     mkWorld (heap w ++ loss_frames raster tr buf stat src x y coords g) (rng w)).
Proof.
  intros Hg. unfold objective_function. cbn [genes].
  unfold mbind at 1. unfold M_bind at 1.
  rewrite (get_loss_reference_run Raster Affine mask_valid proj_transform
             dtw_distance lidar_footprints x y buf raster tr method stat name g
             src coords reference w Hg Hcrs Hcoords Hne Href Hx Hy He).
  cbv zeta. unfold objective_value.
  destruct (get_loss_value _ _ _ _) as [[|v]|e]; reflexivity.
Qed.

Lemma evaluate_invalid_fresh (population : list Individual) :
  Forall unevaluated population ->
  (forall x y, exists v,
      objective_value raster tr buf stat method reference (gdf_index g)
       coords x y = Ok v) ->
  forall w : W,
    heap w !! lidar_footprints = Some g ->
    exists (final : list Individual) (w' : W),
      evaluate_invalid
        (registered_toolbox lidar_footprints raster tr method stat buf None
                            (Some name))
        population w
      = (Ok final, w')
      /\ Forall2 (fun ind out =>
                    exists x y v,
                      genes ind = [x; y] /\ genes out = [x; y]
                      /\ fitness out = Some v
                      /\ objective_value raster tr buf stat method reference
                           (gdf_index g) coords x y = Ok v)
                 population final.
Proof.
  intros Hfresh Hok. unfold evaluate_invalid.
  cbn [registered_toolbox tb_evaluate].
  induction Hfresh as [|ind pop [Hfit (x & y & Hgenes)] _ IH]; intros w Hg;
    cbn [map_M].
  - exists [], w. split; [reflexivity | constructor].
  - rewrite Hfit.
    destruct (Hok x y) as [v Hv].
    pose proof (objective_function_reference_run x y (fitness ind) w Hg) as Hrun.
    rewrite Hv in Hrun.
    replace (mkInd [x; y] (fitness ind)) with ind in Hrun
      by (destruct ind; simpl in *; now subst).
    unfold mbind at 1. unfold M_bind at 1.
    unfold mbind at 1. unfold M_bind at 1.
    rewrite Hrun. unfold mret at 1. unfold M_ret at 1.
    unfold mbind at 1. unfold M_bind at 1.
    match goal with |- context [map_M _ pop ?w1] =>
      destruct (IH w1) as (final & w' & Hrest & Hall) end.
    { cbn [heap]. now apply lookup_app_l_Some. }
    rewrite Hrest. eexists _, w'. split; [reflexivity|].
    constructor; [|assumption]. exists x, y, v. rewrite Hgenes. now repeat split.
Qed.

End Frame.


Lemma set_label_moderate (idx : Z) (v : f64) (labels : list Z)
    (values : list f64) :
  moderate v -> Forall moderate values ->
  Forall moderate (set_label idx v labels values).
Proof.
  intros Hv. revert values.
  induction labels as [|l labels IH]; intros [|x values] Hall; simpl; auto.
  apply Forall_cons in Hall as [Hx Hall].
  constructor; [now destruct (Z.eqb l idx) | now apply IH].
Qed.

(** A raster whose samples are moderate fills the column with moderate
    values, whatever the labels. *)
Lemma sampled_cells_moderate (raster : Raster) (tr : Affine) (buf : R)
    (stat : string) (labels : list Z) (geoms : list Geometry) :
  (forall geom,
     moderate (row_value Raster Affine mask_valid raster tr buf stat geom)) ->
  Forall moderate
    (sampled_cells Raster Affine mask_valid raster tr buf stat labels geoms).
Proof.
  intros Hmod. unfold sampled_cells.
  assert (Hstart : Forall moderate (replicate (length geoms) NaN)).
  { apply Forall_forall. intros x Hx.
    apply elem_of_replicate in Hx as [-> _]. exact I. }
  revert Hstart. generalize (replicate (length geoms) NaN) as cells.
  generalize labels at 1 as all.
  generalize (zip labels geoms) as rows.
  induction rows as [|[l geom] rows IH]; intros all cells Hcells;
    [exact Hcells|].
  cbn [fold_left fst snd]. apply IH.
  pose proof (Hmod geom) as Hgeom.
  rewrite row_value_sample in Hgeom.
  destruct (row_sample _ _ _ _ _ _ _ geom) as [v|]; [|exact Hcells].
  now apply set_label_moderate.
Qed.

Lemma objective_value_supported (raster : Raster) (tr : Affine) (buf : R)
    (stat method : string) (reference : list f64) (labels : list Z)
    (coords : list (R * R)) (x y : R) :
  supported_method method = true ->
  Forall moderate reference ->
  (forall geom,
     moderate (row_value Raster Affine mask_valid raster tr buf stat geom)) ->
  exists v : R,
    objective_value raster tr buf stat method reference labels coords x y
    = Ok v.
Proof.
  intros Hs Href Hmod. unfold objective_value.
  destruct (get_loss_value_supported dtw_distance method reference
              (sampled_cells Raster Affine mask_valid raster tr buf stat labels
                 (map (fun p => Point (fst p + x) (snd p + y)) coords))
              Hs Href (sampled_cells_moderate _ _ _ _ _ _ Hmod))
    as [[|v] ->]; now eexists.
Qed.

(** X17: with [max_iter = 0], a supported method, a non-empty frame of
    points held in a CRS, a reference column of moderate values and a
    raster whose samples are moderate (so that no evaluation overflows and
    raises), [minimize_loss] returns an offset of the initial population
    together with its loss, and no individual of that population has a
    smaller loss.  The loss of an offset is [objective_value]: that of
    [get_loss] over the column the sampling loop leaves for the shifted
    points, under the labels of the frame. *)
Theorem minimize_loss_without_generations (lidar_footprints : ref)
    (raster : Raster) (tr : Affine) (method stat name : string) (buf : R)
    (lower_bounds upper_bounds : option (R * R)) (pop_size : nat)
    (g : GeoDataFrame) (src : Z) (coords : list (R * R))
    (reference : list f64) (w : W) :
  heap w !! lidar_footprints = Some g ->
  gdf_crs g = Some src ->
  centroid_coords (gdf_geometry g) = Some coords ->
  coords <> [] ->
  gdf_columns g !! name = Some reference ->
  name <> "orig_x" -> name <> "orig_y" -> name <> "extracted_value" ->
  supported_method method = true ->
  Forall moderate reference ->
  (forall geom,
     moderate (row_value Raster Affine mask_valid raster tr buf stat geom)) ->
  (0 < pop_size)%nat ->
  exists (population : list Individual) (r : OptimResult) (w1 w2 : W),
    new_population (default (-30, -30) lower_bounds)
                   (default (30, 30) upper_bounds) pop_size w
    = (Ok population, w1)
    /\ minimize_loss lidar_footprints raster tr method stat buf None
         (Some name) lower_bounds upper_bounds pop_size 0 w
       = (Ok (Some r), w2)
    /\ (exists ind, ind ∈ population /\ genes ind = [best_x r; best_y r])
    /\ objective_value raster tr buf stat method reference (gdf_index g)
         coords (best_x r) (best_y r) = Ok (best_value r)
    /\ forall (ind : Individual) (x y v : R),
         ind ∈ population -> genes ind = [x; y] ->
         objective_value raster tr buf stat method reference (gdf_index g)
           coords x y = Ok v ->
         best_value r <= v.
Proof.
  intros Hg Hcrs Hcoords Hne Href Hx Hy He Hs Hmr Hmod Hpos.
  destruct (new_population_fresh (default (-30, -30) lower_bounds)
              (default (30, 30) upper_bounds) pop_size w)
    as (pop & gen & Hpop & Hlen & Hfresh).
  destruct (evaluate_invalid_fresh lidar_footprints raster tr method stat name
              buf g src coords reference Hcrs Hcoords Hne Href Hx Hy He pop
              Hfresh
              (fun x y => objective_value_supported raster tr buf stat method
                            reference (gdf_index g) coords x y Hs Hmr Hmod)
              (mkWorld (heap w) (rnd_seed 1118)) Hg)
    as (final & w2 & Hev & Hall).
  assert (Hfne : final <> []).
  { intros ->. apply Forall2_length in Hall. simpl in Hall. lia. }
  assert (Hsome : Forall (fun i => is_Some (fitness i)) final).
  { apply Forall_forall. intros out Hout.
    apply list_elem_of_lookup in Hout as [i Hi].
    destruct (Forall2_lookup_r _ _ _ _ _ Hall Hi)
      as (ind & _ & x & y & v & _ & _ & Hf & _).
    now exists v. }
  destruct (sorted_desc_head final Hfne Hsome)
    as (best & rest & vb & Hsort & Hbest & Hvb & Hmin).
  apply list_elem_of_lookup in Hbest as [i Hi].
  destruct (Forall2_lookup_r _ _ _ _ _ Hall Hi)
    as (ind & Hind & x & y & v & Hgi & Hgo & Hfo & Hobj).
  assert (v = vb) as -> by congruence.
  exists pop, (mkOptim x y vb), (mkWorld (heap w) gen), w2.
  split; [exact Hpop|]. split.
  { eapply minimize_loss_steps with (best := best) (rest := take 0 rest).
    - exact Hg.
    - intros Hnil. rewrite Hnil in Hcoords. simpl in Hcoords. congruence.
    - exact Hpop.
    - unfold eaSimple. erewrite run_bind by exact Hev. reflexivity.
    - unfold selBest. now rewrite Hsort.
    - exact Hgo.
    - exact Hvb. }
  split; [exists ind; split; [now apply list_elem_of_lookup_2 in Hind | exact Hgi]|].
  split; [exact Hobj|].
  intros ind' x' y' v' Hin Hgenes Hval. cbn [best_value].
  apply list_elem_of_lookup in Hin as [j Hj].
  destruct (Forall2_lookup_l _ _ _ _ _ Hall Hj)
    as (out & Hout & x1 & y1 & v1 & Hg1 & Hg2 & Hf1 & Hobj1).
  rewrite Hgenes in Hg1. injection Hg1 as <- <-.
  rewrite Hval in Hobj1. injection Hobj1 as <-.
  apply (Hmin out v'); [now apply list_elem_of_lookup_2 in Hout | exact Hf1].
Qed.

Lemma generations_nil (toolbox : Toolbox) (cxpb mutpb : R) (ngen : nat) (w : W) :
  tb_select toolbox = selTournament 3 ->
  generations toolbox cxpb mutpb ngen [] w = (Ok [], w).
Proof.
  intros Hsel. induction ngen as [|n IH]; [reflexivity|].
  cbn [generations]. unfold generation. rewrite Hsel. exact IH.
Qed.

(** X18: with [pop_size = 0] and a frame that has rows, [minimize_loss]
    does not return [None]: [selBest(population, 1)[0]] raises IndexError
    outside the [try], after [random.seed(1118)], and
    [positional_correction] lets it through. *)
Theorem minimize_loss_empty_population (lidar_footprints : ref)
    (raster : Raster) (tr : Affine) (method stat : string) (buf : R)
    (crs_code : option Z) (lidar_value : option string)
    (lower_bounds upper_bounds : option (R * R)) (max_iter : nat)
    (g : GeoDataFrame) (w : W) :
  heap w !! lidar_footprints = Some g ->
  gdf_geometry g <> [] ->
  minimize_loss lidar_footprints raster tr method stat buf crs_code lidar_value
                lower_bounds upper_bounds 0 max_iter w
  = (Raise (IndexError "list index out of range"),
     mkWorld (heap w) (rnd_seed 1118))
  /\ (names_missing_column lidar_value g = false ->
      positional_correction lidar_footprints raster tr method stat buf crs_code
        lidar_value lower_bounds upper_bounds 0 max_iter w
      = (Raise (IndexError "list index out of range"),
         mkWorld (heap w) (rnd_seed 1118))).
Proof.
  intros Hg Hne.
  assert (Hmin : minimize_loss lidar_footprints raster tr method stat buf
                   crs_code lidar_value lower_bounds upper_bounds 0 max_iter w
                 = (Raise (IndexError "list index out of range"),
                    mkWorld (heap w) (rnd_seed 1118))).
  { unfold minimize_loss. rewrite (run_deref _ g) by assumption.
    assert (Hlen : (gdf_len g =? 0)%nat = false).
    { unfold gdf_len. now destruct (gdf_geometry g). }
    rewrite Hlen. unfold new_population. cbn [seq map_M]. rewrite run_ret.
    unfold random_seed. unfold mbind at 1. unfold M_bind at 1.
    erewrite run_bind; cycle 1.
    { apply run_try_ok. erewrite run_bind; cycle 1.
      { unfold eaSimple, evaluate_invalid. cbn [map_M]. rewrite run_ret.
        now apply generations_nil. }
      reflexivity. }
    reflexivity. }
  split; [exact Hmin|].
  intros Hcol. unfold positional_correction.
  rewrite (run_deref _ g) by assumption. rewrite Hcol.
  now rewrite (run_bind_raise _ _ _ _ _ Hmin).
Qed.

Lemma minimize_loss_evaluation_raises (lidar_footprints : ref)
    (raster : Raster) (tr : Affine) (method stat : string) (buf : R)
    (crs_code : option Z) (lidar_value : option string)
    (lower_bounds upper_bounds : option (R * R)) (pop_size max_iter : nat)
    (g : GeoDataFrame) (w : W) :
  heap w !! lidar_footprints = Some g ->
  gdf_geometry g <> [] ->
  (0 < pop_size)%nat ->
  (forall (x y : R) (fit : option R) (gen : G),
      exists (e : exn) (w2 : W),
        objective_function lidar_footprints raster tr method stat buf crs_code
          lidar_value (mkInd [x; y] fit) (mkWorld (heap w) gen)
        = (Raise e, w2)) ->
  exists w' : W,
    minimize_loss lidar_footprints raster tr method stat buf crs_code
      lidar_value lower_bounds upper_bounds pop_size max_iter w
    = (Ok None, w').
Proof.
  intros Hg Hne Hpos Hraise. unfold minimize_loss.
  rewrite (run_deref _ g) by assumption.
  assert (Hlen : (gdf_len g =? 0)%nat = false).
  { unfold gdf_len. now destruct (gdf_geometry g). }
  rewrite Hlen.
  destruct (new_population_fresh (default (-30, -30) lower_bounds)
              (default (30, 30) upper_bounds) pop_size w)
    as (pop & gen & Hpop & Hplen & Hfresh).
  rewrite (run_bind _ _ _ _ _ Hpop).
  destruct pop as [|ind pop]; [simpl in Hplen; lia|].
  apply Forall_cons in Hfresh as [[Hfit (x & y & Hgenes)] _].
  destruct (Hraise x y None (rnd_seed 1118)) as (e & w2 & Hrun).
  replace (mkInd [x; y] None) with ind in Hrun
    by (destruct ind; simpl in *; now subst).
  unfold random_seed. unfold mbind at 1. unfold M_bind at 1. cbn [heap].
  exists w2. erewrite run_bind; cycle 1.
  { unfold try_except. erewrite run_bind_raise; cycle 1.
    { unfold eaSimple. eapply run_bind_raise.
      unfold evaluate_invalid. cbn [map_M]. rewrite Hfit.
      eapply run_bind_raise. eapply run_bind_raise.
      cbn [registered_toolbox tb_evaluate]. exact Hrun. }
    reflexivity. }
  reflexivity.
Qed.

(** X19: on a frame with rows but without CRS, and with no CRS code, the
    AttributeError of the first evaluation is caught: [minimize_loss]
    returns [None] and [positional_correction] returns the frame it was
    given. *)
Theorem optimizer_gives_up_without_crs (lidar_footprints : ref)
    (raster : Raster) (tr : Affine) (method stat : string) (buf : R)
    (lidar_value : option string)
    (lower_bounds upper_bounds : option (R * R)) (pop_size max_iter : nat)
    (g : GeoDataFrame) (w : W) :
  heap w !! lidar_footprints = Some g ->
  gdf_geometry g <> [] ->
  gdf_crs g = None ->
  names_missing_column lidar_value g = false ->
  (0 < pop_size)%nat ->
  exists w' : W,
    minimize_loss lidar_footprints raster tr method stat buf None lidar_value
      lower_bounds upper_bounds pop_size max_iter w
    = (Ok None, w')
    /\ positional_correction lidar_footprints raster tr method stat buf None
         lidar_value lower_bounds upper_bounds pop_size max_iter w
       = (Ok lidar_footprints, w').
Proof.
  intros Hg Hne Hcrs Hcol Hpos.
  destruct (minimize_loss_evaluation_raises lidar_footprints raster tr method
              stat buf None lidar_value lower_bounds upper_bounds pop_size
              max_iter g w Hg Hne Hpos) as [w' Hmin].
  { intros x y fit gen. do 2 eexists. unfold objective_function. cbn [genes].
    eapply run_bind_raise. unfold get_loss.
    rewrite (run_deref _ g) by exact Hg. rewrite Hcol.
    eapply run_bind_raise. unfold crs_code_or_epsg, crs_to_epsg.
    rewrite Hcrs. reflexivity. }
  exists w'. split; [exact Hmin|].
  unfold positional_correction. rewrite (run_deref _ g) by assumption.
  rewrite Hcol. now rewrite (run_bind _ _ _ _ _ Hmin).
Qed.

(** X20: with a method name outside the six, on a frame where every
    offset leaves a valid pair (of a reference value and the cell the
    sampling loop leaves in its row), the ValueError of the first
    evaluation is caught: [minimize_loss] returns [None] and
    [positional_correction] returns the frame it was given instead of
    raising. *)
Theorem optimizer_gives_up_on_unsupported_method (lidar_footprints : ref)
    (raster : Raster) (tr : Affine) (method stat name : string) (buf : R)
    (lower_bounds upper_bounds : option (R * R)) (pop_size max_iter : nat)
    (g : GeoDataFrame) (src : Z) (coords : list (R * R))
    (reference : list f64) (w : W) :
  heap w !! lidar_footprints = Some g ->
  gdf_crs g = Some src ->
  centroid_coords (gdf_geometry g) = Some coords ->
  coords <> [] ->
  gdf_columns g !! name = Some reference ->
  name <> "orig_x" -> name <> "orig_y" -> name <> "extracted_value" ->
  supported_method method = false ->
  (forall x y : R,
      valid_pairs reference
        (sampled_cells Raster Affine mask_valid raster tr buf stat
           (gdf_index g)
           (map (fun p => Point (fst p + x) (snd p + y)) coords)) <> []) ->
  (0 < pop_size)%nat ->
  exists w' : W,
    minimize_loss lidar_footprints raster tr method stat buf None (Some name)
      lower_bounds upper_bounds pop_size max_iter w
    = (Ok None, w')
    /\ positional_correction lidar_footprints raster tr method stat buf None
         (Some name) lower_bounds upper_bounds pop_size max_iter w
       = (Ok lidar_footprints, w').
Proof.
  intros Hg Hcrs Hcoords Hne Href Hx Hy He Hs Hpairs Hpos.
  assert (Hgeom : gdf_geometry g <> []).
  { intros Hnil. rewrite Hnil in Hcoords. simpl in Hcoords. congruence. }
  destruct (minimize_loss_evaluation_raises lidar_footprints raster tr method
              stat buf None (Some name) lower_bounds upper_bounds pop_size
              max_iter g w Hg Hgeom Hpos) as [w' Hmin].
  { intros x y fit gen. do 2 eexists.
    rewrite (objective_function_reference_run lidar_footprints raster tr
               method stat name buf g src coords reference Hcrs Hcoords Hne
               Href Hx Hy He x y fit (mkWorld (heap w) gen) Hg).
    unfold objective_value. rewrite get_loss_value_spec.
    rewrite spec_loss_pairs by apply Hpairs.
    rewrite get_loss_method_unsupported by exact Hs. reflexivity. }
  exists w'. split; [exact Hmin|].
  unfold positional_correction. rewrite (run_deref _ g) by assumption.
  cbn [names_missing_column]. unfold lacks_column. rewrite Href.
  now rewrite (run_bind _ _ _ _ _ Hmin).
Qed.


(** X21: when [minimize_loss] returns a result, [positional_correction]
    returns a new frame, in the CRS of the input: the points of the input
    moved by the best offset, "orig_x" and "orig_y" with the coordinates of
    the input, and the other columns as in the input, which is left as it
    was. *)
Theorem positional_correction_applies_best_offset (lidar_footprints : ref)
    (raster : Raster) (tr : Affine) (method stat : string) (buf : R)
    (lidar_value : option string)
    (lower_bounds upper_bounds : option (R * R)) (pop_size max_iter : nat)
    (g : GeoDataFrame) (src : Z) (coords : list (R * R))
    (r : OptimResult) (w w1 : W) :
  heap w !! lidar_footprints = Some g ->
  gdf_crs g = Some src ->
  centroid_coords (gdf_geometry g) = Some coords ->
  coords <> [] ->
  names_missing_column lidar_value g = false ->
  minimize_loss lidar_footprints raster tr method stat buf None lidar_value
    lower_bounds upper_bounds pop_size max_iter w
  = (Ok (Some r), w1) ->
  exists (out : ref) (g' : GeoDataFrame) (w2 : W),
    positional_correction lidar_footprints raster tr method stat buf None
      lidar_value lower_bounds upper_bounds pop_size max_iter w
    = (Ok out, w2)
    /\ out <> lidar_footprints
    /\ heap w2 !! out = Some g'
    /\ gdf_crs g' = Some src
    /\ gdf_geometry g'
       = map (fun p => Point (fst p + best_x r) (snd p + best_y r)) coords
    /\ gdf_columns g' !! "orig_x" = Some (map (fun p => Fin (fst p)) coords)
    /\ gdf_columns g' !! "orig_y" = Some (map (fun p => Fin (snd p)) coords)
    /\ (forall name, name <> "orig_x" -> name <> "orig_y" ->
          gdf_columns g' !! name = gdf_columns g !! name)
    /\ heap w2 !! lidar_footprints = Some g.
Proof.
  intros Hg Hcrs Hcoords Hne Hcol Hmin.
  pose proof (minimize_loss_keeps_frames Raster Affine mask_valid
                proj_transform dtw_distance lidar_footprints raster tr method
                stat buf None lidar_value lower_bounds upper_bounds pop_size
                max_iter w) as [added Hheap].
  rewrite Hmin in Hheap. cbn [snd] in Hheap.
  assert (Hg1 : heap w1 !! lidar_footprints = Some g).
  { rewrite Hheap. now apply lookup_app_l_Some. }
  pose proof (position_adjustment_run proj_transform lidar_footprints
                (best_x r) (best_y r) src src g coords w1 Hg1 Hcrs) as Hadj.
  rewrite map_reproject_same in Hadj. specialize (Hadj Hcoords Hne).
  cbv zeta in Hadj.
  do 3 eexists. split.
  { unfold positional_correction. rewrite (run_deref _ g) by assumption.
    rewrite Hcol. rewrite (run_bind _ _ _ _ _ Hmin).
    rewrite (run_deref _ g) by assumption.
    unfold crs_code_or_epsg, crs_to_epsg. rewrite Hcrs, run_ret. exact Hadj. }
  split.
  { apply lookup_lt_Some in Hg1. lia. }
  split.
  { cbn [heap]. rewrite lookup_app_r by lia.
    replace (length (heap w1) + 2 - length (heap w1))%nat with 2%nat by lia.
    reflexivity. }
  split; [reflexivity|]. split; [reflexivity|].
  cbn [shifted_frame origin_frame reprojected_frame gdf_columns with_column].
  split; [rewrite lookup_insert_ne by discriminate; now rewrite lookup_insert_eq|].
  split; [now rewrite lookup_insert_eq|].
  split.
  { intros name Hx Hy. now rewrite !lookup_insert_ne by congruence. }
  cbn [heap]. now apply lookup_app_l_Some.
Qed.

(** X2: [minimize_loss] and [positional_correction] leave every frame that
    existed before the call in place and unchanged, whatever the optimizer
    does and whether the call returns a result, returns [None] or raises. *)
Theorem optimizer_only_appends_frames (lidar_footprints : ref)
    (raster : Raster) (tr : Affine) (method stat : string) (buf : R)
    (crs_code : option Z) (lidar_value : option string)
    (lower_bounds upper_bounds : option (R * R)) (pop_size max_iter : nat)
    (w : W) :
  heap_grows w
    (snd (minimize_loss lidar_footprints raster tr method stat buf crs_code
            lidar_value lower_bounds upper_bounds pop_size max_iter w))
  /\ heap_grows w
       (snd (positional_correction lidar_footprints raster tr method stat buf
               crs_code lidar_value lower_bounds upper_bounds pop_size
               max_iter w)).
Proof.
  split.
  - apply minimize_loss_keeps_frames.
  - apply positional_correction_keeps_frames.
Qed.

(** X16: with lower bounds not above the upper bounds,
    [toolbox.population(n)] returns [n] individuals, each inside the box,
    and makes no frame. *)
Theorem initial_population_in_box `{!RandomGenLaws G}
    (lower_bounds upper_bounds : R * R) (n : nat) (w : W) :
  fst lower_bounds <= fst upper_bounds ->
  snd lower_bounds <= snd upper_bounds ->
  exists (population : list Individual) (w' : W),
    new_population lower_bounds upper_bounds n w = (Ok population, w')
    /\ length population = n
    /\ heap w' = heap w
    /\ Forall (in_box lower_bounds upper_bounds) population.
Proof.
  intros Hx Hy.
  destruct (new_population_fresh lower_bounds upper_bounds n w)
    as (population & gen & Hrun & Hlen & _).
  exists population, (mkWorld (heap w) gen).
  split; [exact Hrun|]. split; [exact Hlen|]. split; [reflexivity|].
  now apply (new_population_in_box lower_bounds upper_bounds n Hx Hy w
               (mkWorld (heap w) gen)).
Qed.

End Optimizer.

(** ** The generations keep every fitness in step with its genes *)

Lemma scored_sound (score : R -> R -> res R) (ind : Individual) :
  scored score ind -> sound score ind.
Proof.
  intros (x & y & v & Hg & Hf & Hs). exists x, y. split; [exact Hg|].
  intros v' Hv'. congruence.
Qed.

Lemma unevaluated_sound (score : R -> R -> res R) (ind : Individual) :
  unevaluated ind -> sound score ind.
Proof.
  intros (Hf & x & y & Hg). exists x, y. split; [exact Hg|].
  intros v Hv. congruence.
Qed.

Lemma sound_invalid (score : R -> R -> res R) (x y : R) :
  sound score (mkInd [x; y] None).
Proof. exists x, y. split; [reflexivity | discriminate]. Qed.

Lemma fold_best_member (rest : list Individual) (a : Individual) :
  fold_left (fun best x => if fit_gt (fitness x) (fitness best) then x else best)
            rest a ∈ a :: rest.
Proof.
  revert a. induction rest as [|b rest IH]; intros a; simpl; [left|].
  destruct (fit_gt (fitness b) (fitness a)).
  - right. apply IH.
  - specialize (IH a). apply elem_of_cons in IH as [->|Hin]; [left|].
    right. now right.
Qed.

Section Generations.

Context {G : Type} `{RandomGen G}.
Variables Raster Affine : Type.
Variable mask_valid : Raster -> Affine -> Shape -> option (list f64).
Variable proj_transform : Z -> Z -> R * R -> R * R.
Variable dtw_distance : list f64 -> list f64 -> f64.

Local Abbreviation W := (@world G).
Local Abbreviation minimize_loss :=
  (minimize_loss Raster Affine mask_valid proj_transform dtw_distance).
Local Abbreviation positional_correction :=
  (positional_correction Raster Affine mask_valid proj_transform dtw_distance).
Local Abbreviation registered_toolbox :=
  (registered_toolbox Raster Affine mask_valid proj_transform dtw_distance).
Local Abbreviation objective_value :=
  (objective_value Raster Affine mask_valid dtw_distance).

Section Run.

Variables (lidar_footprints : ref) (g : GeoDataFrame).

Local Abbreviation held := (fun w : W => heap w !! lidar_footprints = Some g).

Lemma rw_ret {A : Type} (a : A) (post : A -> Prop) :
  post a -> returns_with held (mret a) post.
Proof. intros Hp w Hw. now exists a, w. Qed.

Lemma rw_bind {A B : Type} (m : M A) (k : A -> M B) (P : A -> Prop)
    (Q : B -> Prop) :
  returns_with held m P ->
  (forall a, P a -> returns_with held (k a) Q) ->
  returns_with held (m ≫= k) Q.
Proof.
  intros Hm Hk w Hw. destruct (Hm w Hw) as (a & w1 & Hrun & Ha & Hw1).
  destruct (Hk a Ha w1 Hw1) as (b & w2 & Hrun2 & Hb & Hw2).
  exists b, w2. split; [|now split].
  unfold mbind, M_bind. now rewrite Hrun.
Qed.

Lemma rw_weaken {A : Type} (m : M A) (P Q : A -> Prop) :
  returns_with held m P -> (forall a, P a -> Q a) -> returns_with held m Q.
Proof.
  intros Hm HPQ w Hw. destruct (Hm w Hw) as (a & w1 & Hrun & Ha & Hw1).
  exists a, w1. split; [exact Hrun|]. split; [now apply HPQ | exact Hw1].
Qed.

Lemma rw_draw {A : Type} (f : G -> A * G) (P : A -> Prop) :
  (forall gen, P (fst (f gen))) -> returns_with held (draw f) P.
Proof.
  intros Hf w Hw. unfold draw. specialize (Hf (rng w)).
  destruct (f (rng w)) as [a gen]. now exists a, (mkWorld (heap w) gen).
Qed.

Lemma rw_map_M {A B : Type} (f : A -> M B) (Pre : A -> Prop) (Post : B -> Prop)
    (xs : list A) :
  (forall x, Pre x -> returns_with held (f x) Post) ->
  Forall Pre xs ->
  returns_with held (map_M f xs)
    (fun ys => length ys = length xs /\ Forall Post ys).
Proof.
  intros Hf Hall. induction Hall as [|x xs Hx _ IH]; cbn [map_M].
  - apply rw_ret. split; [reflexivity | constructor].
  - eapply rw_bind; [now apply Hf|]. intros y Hy.
    eapply rw_bind; [exact IH|]. intros ys [Hlen Hys].
    apply rw_ret. split; [simpl; now rewrite Hlen | now constructor].
Qed.

Lemma rw_repeat {B : Type} (m : M B) (Post : B -> Prop) (start k : nat) :
  returns_with held m Post ->
  returns_with held (map_M (fun _ : nat => m) (seq start k))
    (fun ys => length ys = k /\ Forall Post ys).
Proof.
  intros Hm.
  eapply rw_weaken.
  - apply (rw_map_M (fun _ : nat => m) (fun _ => True) Post).
    + intros _ _. exact Hm.
    + apply Forall_forall. tauto.
  - intros ys [Hlen Hys]. rewrite length_seq in Hlen. now split.
Qed.

Lemma random_choice_member `{!RandomGenLaws G} {A : Type} (l : list A) :
  l <> [] -> returns_with held (random_choice l) (fun x => x ∈ l).
Proof.
  intros Hne. unfold random_choice. destruct l as [|a l]; [congruence|].
  eapply rw_bind.
  - apply (rw_draw _ (fun i => (i < length (a :: l))%nat)).
    intros gen. apply rnd_randbelow_lt. simpl. lia.
  - intros i Hi. cbv beta in Hi.
    destruct (lookup_lt_is_Some_2 (a :: l) i Hi) as [x Hx]. rewrite Hx.
    apply rw_ret. now apply list_elem_of_lookup_2 in Hx.
Qed.

Lemma selTournament_members `{!RandomGenLaws G} (l : list Individual)
    (k : nat) :
  l <> [] ->
  returns_with held (selTournament 3 l k)
    (fun ys => length ys = k /\ Forall (fun x => x ∈ l) ys).
Proof.
  intros Hne. unfold selTournament. apply rw_repeat.
  eapply rw_bind.
  - unfold selRandom. apply rw_repeat. now apply random_choice_member.
  - intros asp [Hlen Hall]. cbv beta in Hlen.
    destruct asp as [|a rest]; [discriminate|].
    unfold max_by_fitness. apply rw_ret.
    pose proof (fold_best_member rest a) as Hin.
    now apply (proj1 (Forall_forall _ _) Hall).
Qed.

Lemma cxBlend_genes_length (alpha : R) (g1 g2 : list R) :
  returns_with held (cxBlend_genes alpha g1 g2)
    (fun r => length (fst r) = length g1 /\ length (snd r) = length g2).
Proof.
  revert g2. induction g1 as [|x1 g1 IH]; intros [|x2 g2];
    cbn [cxBlend_genes]; try (apply rw_ret; now split).
  eapply rw_bind; [apply (rw_draw _ (fun _ => True)); tauto|]. intros u _.
  eapply rw_bind; [apply IH|]. intros r [H1 H2].
  apply rw_ret. simpl. now rewrite H1, H2.
Qed.

Lemma mutGaussian_genes_length (mu sigma indpb : R) (gs : list R) :
  returns_with held (mutGaussian_genes mu sigma indpb gs)
    (fun r => length r = length gs).
Proof.
  induction gs as [|x gs IH]; cbn [mutGaussian_genes]; [now apply rw_ret|].
  eapply rw_bind; [apply (rw_draw _ (fun _ => True)); tauto|]. intros u _.
  eapply rw_bind with (P := fun _ => True).
  - destruct (Rltb u indpb); [|now apply rw_ret].
    eapply rw_bind; [apply (rw_draw _ (fun _ => True)); tauto|].
    intros n _. now apply rw_ret.
  - intros x' _. eapply rw_bind; [apply IH|]. intros r Hr.
    apply rw_ret. simpl. now rewrite Hr.
Qed.

Lemma two_genes (l : list R) : length l = 2%nat -> exists x y, l = [x; y].
Proof. destruct l as [|x [|y [|z l]]]; try discriminate. now exists x, y. Qed.

Section Score.

Variable score : R -> R -> res R.

Lemma invalidate_sound (ind : Individual) :
  length (genes ind) = 2%nat -> sound score (invalidate ind).
Proof.
  intros Hlen. destruct (two_genes _ Hlen) as (x & y & Hg).
  unfold invalidate. rewrite Hg. apply sound_invalid.
Qed.

Lemma sound_length (ind : Individual) :
  sound score ind -> length (genes ind) = 2%nat.
Proof. intros (x & y & -> & _). reflexivity. Qed.

Lemma varAnd_mate_sound (tb : @Toolbox G) (cxpb : R) (l : list Individual) :
  tb_mate tb = cxBlend 0.5 ->
  Forall (sound score) l ->
  returns_with held (varAnd_mate tb cxpb l)
    (fun l' => length l' = length l /\ Forall (sound score) l').
Proof.
  intros Hmate.
  assert (Hn : forall n l, (length l <= n)%nat -> Forall (sound score) l ->
                 returns_with held (varAnd_mate tb cxpb l)
                   (fun l' => length l' = length l /\ Forall (sound score) l')).
  { clear l. induction n as [|n IH]; intros l Hl Hall.
    - destruct l; [|simpl in Hl; lia]. cbn [varAnd_mate]. now apply rw_ret.
    - destruct l as [|a [|b rest]]; cbn [varAnd_mate];
        try (apply rw_ret; now split).
      apply Forall_cons in Hall as [Ha Hall].
      apply Forall_cons in Hall as [Hb Hall].
      eapply rw_bind; [apply (rw_draw _ (fun _ => True)); tauto|]. intros u _.
      eapply rw_bind with (P := fun p => sound score (fst p) /\ sound score (snd p)).
      + destruct (Rltb u cxpb); [|now apply rw_ret].
        rewrite Hmate. unfold cxBlend.
        eapply rw_bind.
        * eapply rw_bind; [apply cxBlend_genes_length|]. intros r [H1 H2].
          apply (rw_ret _ (fun c => length (genes (fst c)) = 2%nat
                                    /\ length (genes (snd c)) = 2%nat)).
          simpl. rewrite H1, H2. split; now apply sound_length.
        * intros c [H1 H2]. apply rw_ret. cbn [fst snd].
          split; now apply invalidate_sound.
      + intros p [H1 H2].
        eapply rw_bind; [apply IH; [simpl in Hl; lia | exact Hall]|].
        intros rest' [Hlen Hrest]. apply rw_ret.
        split; [simpl; now rewrite Hlen|]. now repeat constructor. }
  now apply (Hn (length l)).
Qed.

Lemma varAnd_mutate_sound (tb : @Toolbox G) (mutpb : R) (l : list Individual) :
  tb_mutate tb = mutGaussian 0 1 0.2 ->
  Forall (sound score) l ->
  returns_with held (varAnd_mutate tb mutpb l)
    (fun l' => length l' = length l /\ Forall (sound score) l').
Proof.
  intros Hmut Hall. unfold varAnd_mutate.
  apply (rw_map_M _ (sound score) (sound score)); [|exact Hall].
  intros ind Hind.
  eapply rw_bind; [apply (rw_draw _ (fun _ => True)); tauto|]. intros u _.
  destruct (Rltb u mutpb); [|now apply rw_ret].
  rewrite Hmut. unfold mutGaussian.
  eapply rw_bind.
  - eapply rw_bind; [apply mutGaussian_genes_length|]. intros gs Hgs.
    apply (rw_ret _ (fun m => length (genes m) = 2%nat)).
    simpl. rewrite Hgs. now apply sound_length.
  - intros m Hm. apply rw_ret. now apply invalidate_sound.
Qed.

Lemma evaluate_invalid_scored (tb : @Toolbox G) (l : list Individual) :
  (forall x y fit,
      returns_with held (tb_evaluate tb (mkInd [x; y] fit))
        (fun v => score x y = Ok v)) ->
  Forall (sound score) l ->
  returns_with held (evaluate_invalid tb l)
    (fun l' => length l' = length l /\ Forall (scored score) l').
Proof.
  intros Hev Hall. unfold evaluate_invalid.
  apply (rw_map_M _ (sound score) (scored score)); [|exact Hall].
  intros ind (x & y & Hg & Hfit).
  destruct (fitness ind) as [v|] eqn:Hf.
  - apply rw_ret. exists x, y, v. repeat split; [exact Hg | exact Hf | now apply Hfit].
  - replace ind with (mkInd [x; y] None)
      by (destruct ind; simpl in *; now subst).
    eapply rw_bind; [apply Hev|]. intros v Hv.
    apply rw_ret. now exists x, y, v.
Qed.

Lemma generation_scored `{!RandomGenLaws G} (tb : @Toolbox G) (cxpb mutpb : R)
    (pop : list Individual) :
  tb_select tb = selTournament 3 ->
  tb_mate tb = cxBlend 0.5 ->
  tb_mutate tb = mutGaussian 0 1 0.2 ->
  (forall x y fit,
      returns_with held (tb_evaluate tb (mkInd [x; y] fit))
        (fun v => score x y = Ok v)) ->
  pop <> [] ->
  Forall (scored score) pop ->
  returns_with held (generation tb cxpb mutpb pop)
    (fun pop' => length pop' = length pop /\ Forall (scored score) pop').
Proof.
  intros Hsel Hmate Hmut Hev Hne Hall. unfold generation. rewrite Hsel.
  eapply rw_bind; [now apply selTournament_members|].
  intros off [Hlen Hmem].
  assert (Hoff : Forall (sound score) off).
  { apply Forall_forall. intros x Hx. apply scored_sound.
    apply (proj1 (Forall_forall _ _) Hall).
    now apply (proj1 (Forall_forall _ _) Hmem). }
  eapply rw_bind.
  - unfold varAnd. eapply rw_bind; [now apply varAnd_mate_sound|].
    intros off1 [Hlen1 Hs1].
    eapply rw_weaken; [now apply varAnd_mutate_sound|].
    intros off2 [Hlen2 Hs2].
    exact (conj (eq_trans Hlen2 (eq_trans Hlen1 Hlen)) Hs2).
  - intros off2 [Hlen2 Hs2]. cbv beta in Hlen2.
    eapply rw_weaken; [now apply evaluate_invalid_scored|].
    intros off3 [Hlen3 Hs3]. split; [congruence | exact Hs3].
Qed.

Lemma eaSimple_scored `{!RandomGenLaws G} (tb : @Toolbox G) (cxpb mutpb : R)
    (ngen : nat)
    (pop : list Individual) :
  tb_select tb = selTournament 3 ->
  tb_mate tb = cxBlend 0.5 ->
  tb_mutate tb = mutGaussian 0 1 0.2 ->
  (forall x y fit,
      returns_with held (tb_evaluate tb (mkInd [x; y] fit))
        (fun v => score x y = Ok v)) ->
  pop <> [] ->
  Forall (sound score) pop ->
  returns_with held (eaSimple pop tb cxpb mutpb ngen)
    (fun pop' => length pop' = length pop /\ Forall (scored score) pop').
Proof.
  intros Hsel Hmate Hmut Hev Hne Hall. unfold eaSimple.
  eapply rw_bind; [now apply evaluate_invalid_scored|].
  intros pop0 [Hlen0 Hs0]. cbv beta in Hlen0. rewrite <- Hlen0.
  assert (Hne0 : pop0 <> []) by (destruct pop0, pop; simpl in *; congruence).
  clear Hlen0 Hall Hne. revert pop0 Hne0 Hs0.
  induction ngen as [|n IH]; intros pop0 Hne0 Hs0; cbn [generations].
  - now apply rw_ret.
  - eapply rw_bind; [now apply generation_scored|].
    intros pop1 [Hlen1 Hs1]. cbv beta in Hlen1. rewrite <- Hlen1.
    apply IH; [|exact Hs1].
    destruct pop1, pop0; simpl in *; congruence.
Qed.

End Score.

End Run.


(** X22: on a non-empty frame of points held in a CRS, with a supported
    method, [pop_size > 0], a reference column of moderate values and a
    raster whose samples are moderate (so that no evaluation overflows and
    raises), and for every number of generations, [minimize_loss] returns
    a result, never [None] and never an error, and the [best_value] it
    reports is the loss of [get_loss] at the offset it reports
    ([objective_value], over the column the sampling loop leaves under the
    labels of the frame).  [positional_correction] then returns a new
    frame with the points moved by that offset, and the input frame is
    left as it was. *)
Theorem minimize_loss_returns_the_loss_at_its_offset `{!RandomGenLaws G}
    (lidar_footprints : ref)
    (raster : Raster) (tr : Affine) (method stat name : string) (buf : R)
    (lower_bounds upper_bounds : option (R * R)) (pop_size max_iter : nat)
    (g : GeoDataFrame) (src : Z) (coords : list (R * R))
    (reference : list f64) (w : W) :
  heap w !! lidar_footprints = Some g ->
  gdf_crs g = Some src ->
  centroid_coords (gdf_geometry g) = Some coords ->
  coords <> [] ->
  gdf_columns g !! name = Some reference ->
  name <> "orig_x" -> name <> "orig_y" -> name <> "extracted_value" ->
  supported_method method = true ->
  Forall moderate reference ->
  (forall geom,
     moderate (row_value Raster Affine mask_valid raster tr buf stat geom)) ->
  (0 < pop_size)%nat ->
  exists (r : OptimResult) (w' : W) (out : ref) (g' : GeoDataFrame) (w'' : W),
    minimize_loss lidar_footprints raster tr method stat buf None (Some name)
      lower_bounds upper_bounds pop_size max_iter w
    = (Ok (Some r), w')
    /\ objective_value raster tr buf stat method reference (gdf_index g)
         coords (best_x r) (best_y r) = Ok (best_value r)
    /\ positional_correction lidar_footprints raster tr method stat buf None
         (Some name) lower_bounds upper_bounds pop_size max_iter w
       = (Ok out, w'')
    /\ heap w'' !! out = Some g'
    /\ gdf_geometry g'
       = map (fun p => Point (fst p + best_x r) (snd p + best_y r)) coords
    /\ heap w'' !! lidar_footprints = Some g.
Proof.
  intros Hg Hcrs Hcoords Hne Href Hx Hy He Hs Hmr Hmod Hpos.
  destruct (new_population_fresh (default (-30, -30) lower_bounds)
              (default (30, 30) upper_bounds) pop_size w)
    as (pop & gen & Hpop & Hlen & Hfresh).
  set (score := objective_value raster tr buf stat method reference
                 (gdf_index g) coords).
  set (tb := registered_toolbox lidar_footprints raster tr method stat buf None
               (Some name)).
  assert (Hev : forall x y fit,
             returns_with (fun w0 : W => heap w0 !! lidar_footprints = Some g)
               (tb_evaluate tb (mkInd [x; y] fit))
               (fun v => score x y = Ok v)).
  { intros x y fit w0 Hw0. subst tb. cbn [registered_toolbox tb_evaluate].
    destruct (objective_value_supported Raster Affine mask_valid dtw_distance
                raster tr buf stat method reference (gdf_index g) coords x y
                Hs Hmr Hmod) as [v Hv].
    exists v. eexists. split.
    - rewrite (objective_function_reference_run Raster Affine mask_valid
                 proj_transform dtw_distance lidar_footprints raster tr method
                 stat name buf g src coords reference Hcrs Hcoords Hne Href Hx
                 Hy He x y fit w0 Hw0).
      now rewrite Hv.
    - split; [exact Hv|]. cbn [heap]. now apply lookup_app_l_Some. }
  destruct (eaSimple_scored lidar_footprints g score tb 0.7 0.2 max_iter pop
              eq_refl eq_refl eq_refl Hev)
    with (w := mkWorld (heap w) (rnd_seed 1118))
    as (final & w2 & Hea & [Hflen Hscored] & Hheld).
  { intros ->. simpl in Hlen. lia. }
  { apply Forall_forall. intros ind Hind. apply unevaluated_sound.
    now apply (proj1 (Forall_forall _ _) Hfresh). }
  { exact Hg. }
  assert (Hfne : final <> []).
  { intros ->. simpl in Hflen. lia. }
  assert (Hsome : Forall (fun i => is_Some (fitness i)) final).
  { apply Forall_forall. intros ind Hind.
    destruct (proj1 (Forall_forall _ _) Hscored ind Hind)
      as (x & y & v & _ & Hf & _). now exists v. }
  destruct (sorted_desc_head final Hfne Hsome)
    as (best & rest & vb & Hsort & Hbest & Hvb & _).
  destruct (proj1 (Forall_forall _ _) Hscored best Hbest)
    as (x & y & v & Hgenes & Hf & Hval).
  assert (Hmin : minimize_loss lidar_footprints raster tr method stat buf None
                   (Some name) lower_bounds upper_bounds pop_size max_iter w
                 = (Ok (Some (mkOptim x y v)), w2)).
  { eapply (minimize_loss_steps Raster Affine mask_valid proj_transform
              dtw_distance) with (best := best) (rest := take 0 rest).
    - exact Hg.
    - intros Hnil. rewrite Hnil in Hcoords. simpl in Hcoords. congruence.
    - exact Hpop.
    - exact Hea.
    - unfold selBest. now rewrite Hsort.
    - exact Hgenes.
    - exact Hf. }
  pose proof (position_adjustment_run proj_transform lidar_footprints x y src
                src g coords w2 Hheld Hcrs) as Hadj.
  rewrite map_reproject_same in Hadj. specialize (Hadj Hcoords Hne).
  cbv zeta in Hadj.
  exists (mkOptim x y v), w2. do 3 eexists.
  split; [exact Hmin|]. split; [exact Hval|].
  split.
  { unfold positional_correction. rewrite (run_deref _ g) by assumption.
    cbn [names_missing_column]. unfold lacks_column. rewrite Href.
    rewrite (run_bind _ _ _ _ _ Hmin).
    rewrite (run_deref _ g) by assumption.
    unfold crs_code_or_epsg, crs_to_epsg. rewrite Hcrs, run_ret.
    cbn [best_x best_y]. exact Hadj. }
  cbn [heap]. split; [apply lookup_third|]. split; [reflexivity|].
  now apply lookup_app_l_Some.
Qed.

End Generations.

(** ** linear_alignment *)

Lemma select_rows_all {A : Type} (l : list A) (mask : list bool) :
  length mask = length l -> Forall (fun b => b = true) mask ->
  select_rows mask l = l.
Proof.
  revert l. induction mask as [|m mask IH]; intros [|x l] Hlen Hall;
    simpl in *; try reflexivity; try discriminate.
  apply Forall_cons in Hall as [-> Hall]. f_equal. apply IH; [lia | exact Hall].
Qed.

Lemma select_rows_none {A : Type} (l : list A) (mask : list bool) :
  Forall (fun b => b = false) mask -> select_rows mask l = [].
Proof.
  revert l. induction mask as [|m mask IH]; intros [|x l] Hall;
    simpl in *; try reflexivity.
  apply Forall_cons in Hall as [-> Hall]. now apply IH.
Qed.

Lemma select_rows_filter {A : Type} (mask : list bool) (l : list A) :
  length mask = length l ->
  select_rows mask l = map snd (filter (fun p => fst p = true) (zip mask l)).
Proof.
  revert l. induction mask as [|m mask IH]; intros [|x l] Hlen;
    simpl in *; try reflexivity; try discriminate.
  rewrite filter_cons. simpl. destruct m.
  - rewrite decide_True by reflexivity. simpl. f_equal. apply IH. lia.
  - rewrite decide_False by discriminate. apply IH. lia.
Qed.

Lemma select_rows_map {A B : Type} (f : A -> B) (mask : list bool) (l : list A) :
  select_rows mask (map f l) = map f (select_rows mask l).
Proof.
  revert l. induction mask as [|m mask IH]; intros [|x l]; simpl;
    try reflexivity.
  destruct m; simpl; now rewrite IH.
Qed.

Lemma select_rows_length_le {A : Type} (mask : list bool) (l : list A) :
  (length (select_rows mask l) <= length l)%nat.
Proof.
  revert l. induction mask as [|m mask IH]; intros [|x l]; simpl; try lia.
  specialize (IH l). destruct m; simpl; lia.
Qed.

(** The rows of the groups, one group after the other, are the rows. *)
Lemma groups_permutation {A : Type} (keys ids : list string) (rows : list A) :
  length keys = length rows ->
  NoDup ids ->
  (forall k, k ∈ keys -> k ∈ ids) ->
  concat (map (fun shot => select_rows (map (String.eqb shot) keys) rows) ids)
  ≡ₚ rows.
Proof.
  intros Hlen Hnd. revert keys rows Hlen.
  induction Hnd as [|u ids Hu Hnd IH]; intros keys rows Hlen Hcover.
  - destruct keys as [|k keys].
    + destruct rows; [reflexivity | discriminate].
    + specialize (Hcover k ltac:(left)). inversion Hcover.
  - cbn [map concat].
    set (rest_keys := select_rows (map (fun k => negb (String.eqb u k)) keys) keys).
    set (rest_rows := select_rows (map (fun k => negb (String.eqb u k)) keys) rows).
    assert (Hrest : forall shot, shot ∈ ids ->
              select_rows (map (String.eqb shot) keys) rows
              = select_rows (map (String.eqb shot) rest_keys) rest_rows).
    { intros shot Hshot. assert (Hne : shot <> u) by (intros ->; contradiction).
      subst rest_keys rest_rows. clear -Hlen Hne.
      revert rows Hlen. induction keys as [|k keys IHk]; intros [|r rows] Hlen;
        simpl in *; try reflexivity; try discriminate.
      destruct (String.eqb u k) eqn:Euk; simpl.
      - apply String.eqb_eq in Euk. subst k.
        rewrite (proj2 (String.eqb_neq shot u) Hne). apply IHk. lia.
      - destruct (String.eqb shot k); [f_equal|]; apply IHk; lia. }
    rewrite (map_ext_in _ (fun shot => select_rows (map (String.eqb shot) rest_keys)
                                         rest_rows) ids)
      by (intros shot Hin; apply Hrest; now apply list_elem_of_In).
    rewrite IH.
    + subst rest_rows. clear -Hlen. revert rows Hlen.
      induction keys as [|k keys IHk]; intros [|r rows] Hlen; simpl in *;
        try reflexivity; try discriminate.
      destruct (String.eqb u k); simpl.
      * now rewrite IHk by lia.
      * rewrite <- Permutation_middle. now rewrite IHk by lia.
    + subst rest_keys rest_rows. clear -Hlen. revert rows Hlen.
      induction keys as [|k keys IHk]; intros [|r rows] Hlen; simpl in *;
        try reflexivity; try discriminate.
      specialize (IHk rows ltac:(lia)).
      destruct (negb (String.eqb u k)); simpl; lia.
    + intros k Hk. subst rest_keys.
      assert (Hk' : k ∈ keys /\ k <> u).
      { clear -Hk. induction keys as [|k0 keys IHk]; simpl in Hk; [inversion Hk|].
        destruct (String.eqb u k0) eqn:E; simpl in Hk.
        - destruct (IHk Hk) as [H1 H2]. split; [now right | exact H2].
        - apply elem_of_cons in Hk as [->|Hk].
          + split; [left|]. apply String.eqb_neq in E. congruence.
          + destruct (IHk Hk) as [H1 H2]. split; [now right | exact H2]. }
      destruct Hk' as [Hin Hne]. specialize (Hcover k Hin).
      apply elem_of_cons in Hcover as [->|Hc]; [contradiction | exact Hc].
Qed.

Lemma unique_from_spec (seen l : list string) :
  NoDup (unique_from seen l)
  /\ (forall x, x ∈ unique_from seen l <-> x ∈ l /\ x ∉ seen).
Proof.
  revert seen. induction l as [|a l IH]; intros seen; simpl.
  - split; [constructor|]. intros x. split; [inversion 1 | intros [H _]; inversion H].
  - destruct (bool_decide_reflect (a ∈ seen)) as [Hin|Hnin].
    + destruct (IH seen) as [Hnd Hmem]. split; [exact Hnd|].
      intros x. rewrite Hmem, elem_of_cons. split; [tauto|].
      intros [[->|Hx] Hns]; [contradiction | tauto].
    + destruct (IH (a :: seen)) as [Hnd Hmem]. split.
      * constructor; [|exact Hnd]. rewrite Hmem, elem_of_cons. tauto.
      * intros x. rewrite !elem_of_cons, Hmem, elem_of_cons.
        split.
        -- intros [->|[Hx Hns]]; [tauto|]. split; [tauto|]. tauto.
        -- intros [[->|Hx] Hns]; [tauto|].
           destruct (decide (x = a)) as [->|Hne]; [tauto|]. right. tauto.
Qed.

Lemma pd_unique_NoDup (l : list string) : NoDup (pd_unique l).
Proof. apply unique_from_spec. Qed.

Lemma pd_unique_elem (l : list string) (x : string) : x ∈ pd_unique l <-> x ∈ l.
Proof.
  unfold pd_unique. rewrite (proj2 (unique_from_spec [] l) x).
  split; [tauto|]. intros Hx. split; [exact Hx | inversion 1].
Qed.

Lemma Rsum_affine (a b c : R) (l : list (R * R)) :
  Rsum (map (fun p => a + b * fst p + c * snd p) l)
  = INR (length l) * a + b * Rsum (map fst l) + c * Rsum (map snd l).
Proof.
  induction l as [|p l IH]; [simpl; lra|].
  change (length (p :: l)) with (S (length l)). rewrite S_INR.
  unfold Rsum in *. simpl. rewrite IH. ring.
Qed.

(** Projecting on a line through the centroid keeps the centroid,
    whatever the direction of the line. *)
Lemma project_keeps_centroid (direction : R * R) (coords : list (R * R)) :
  coords <> [] ->
  np_mean2 (map (project (np_mean2 coords) direction) coords) = np_mean2 coords.
Proof.
  intros Hne.
  assert (Hn : INR (length coords) <> 0).
  { apply not_0_INR. destruct coords; [congruence | discriminate]. }
  set (c := np_mean2 coords). destruct direction as [dx dy].
  unfold np_mean2 at 1. rewrite length_map, !map_map.
  assert (Hsx : Rsum (map fst coords) = INR (length coords) * fst c).
  { subst c. unfold np_mean2. simpl. field. exact Hn. }
  assert (Hsy : Rsum (map snd coords) = INR (length coords) * snd c).
  { subst c. unfold np_mean2. simpl. field. exact Hn. }
  rewrite (map_ext _ (fun p => (fst c - fst c * dx * dx - snd c * dy * dx)
                               + (dx * dx) * fst p + (dy * dx) * snd p))
    by (intros p; unfold project; simpl; ring).
  rewrite (map_ext (fun x => snd (project c (dx, dy) x))
                   (fun p => (snd c - fst c * dx * dy - snd c * dy * dy)
                             + (dx * dy) * fst p + (dy * dy) * snd p))
    by (intros p; unfold project; simpl; ring).
  rewrite !Rsum_affine, Hsx, Hsy.
  destruct c as [cx cy]. simpl. f_equal; field; exact Hn.
Qed.

Lemma centroid_coords_select (mask : list bool) (gs : list Geometry)
    (coords : list (R * R)) :
  centroid_coords gs = Some coords ->
  centroid_coords (select_rows mask gs) = Some (select_rows mask coords).
Proof.
  revert gs coords. induction mask as [|m mask IH]; intros [|[|x y] gs] coords Hc;
    simpl in *; try discriminate; try (injection Hc as <-; reflexivity).
  - reflexivity.
  - destruct (centroid_coords gs) as [cs|] eqn:Hcs; [|discriminate].
    injection Hc as <-. destruct m; simpl; rewrite (IH gs cs Hcs); reflexivity.
Qed.

Lemma concat_columns_lookup (frames : list GeoDataFrame) (name : string)
    (cols : list (list f64)) :
  Forall2 (fun f col => gdf_columns f !! name = Some col) frames cols ->
  frames <> [] ->
  concat_columns frames !! name = Some (concat cols).
Proof.
  intros Hall. induction Hall as [|f col frames cols Hf Hall IH]; [congruence|].
  intros _. unfold concat_columns. cbn [foldr].
  rewrite lookup_union_with, Hf. fold (concat_columns frames).
  destruct frames as [|f' frames].
  - inversion Hall; subst. unfold concat_columns. simpl.
    rewrite lookup_empty. simpl. now rewrite app_nil_r.
  - rewrite IH by discriminate. reflexivity.
Qed.

Section AlignmentFacts.

Variable proj_transform : Z -> Z -> R * R -> R * R.
Variable eigh_last : R * R * R -> R * R.

Local Abbreviation aligned_coords := (aligned_coords eigh_last).
Local Abbreviation align_group := (align_group eigh_last).
Local Abbreviation align_groups := (align_groups eigh_last).
Local Abbreviation linear_alignment := (linear_alignment proj_transform eigh_last).

Lemma aligned_coords_length (coords : list (R * R)) :
  length (aligned_coords coords) = length coords.
Proof.
  unfold aligned_coords. destruct coords as [|c [|c' coords]]; try reflexivity.
  now rewrite length_map.
Qed.

Lemma aligned_coords_centroid (coords : list (R * R)) :
  coords <> [] -> np_mean2 (aligned_coords coords) = np_mean2 coords.
Proof.
  intros Hne. unfold aligned_coords.
  destruct coords as [|c [|c' coords]]; [congruence | reflexivity |].
  now apply project_keeps_centroid.
Qed.

Lemma align_group_run (crs_code : Z) (g : GeoDataFrame)
    (numbers keys : list string) (shot : string) (coords : list (R * R)) :
  centroid_coords (gdf_geometry g) = Some coords ->
  let mask := map (String.eqb shot) keys in
  let group := select_rows mask coords in
  exists f : ShotFrame,
    align_group crs_code g numbers keys shot = Ok f
    /\ gdf_crs (shots_frame f) = Some crs_code
    /\ gdf_geometry (shots_frame f)
       = map (fun p => Point (fst p) (snd p)) (aligned_coords group)
    /\ gdf_columns (shots_frame f) !! "orig_x"
       = Some (map (fun p => Fin (fst p)) group)
    /\ gdf_columns (shots_frame f) !! "orig_y"
       = Some (map (fun p => Fin (snd p)) group)
    /\ gdf_columns (shots_frame f) !! "coords_x"
       = Some (map (fun p => Fin (fst p)) (aligned_coords group))
    /\ gdf_columns (shots_frame f) !! "coords_y"
       = Some (map (fun p => Fin (snd p)) (aligned_coords group))
    /\ shots_number f = Some (select_rows mask numbers).
Proof.
  intros Hc mask group. unfold align_group. cbn [gdf_geometry].
  rewrite (centroid_coords_select _ _ _ Hc). fold mask. fold group.
  eexists. split; [reflexivity|]. cbn [shots_frame shots_number gdf_crs
    gdf_geometry gdf_columns with_column].
  repeat split.
  - now rewrite !lookup_insert_ne by discriminate; rewrite lookup_insert_eq.
  - now rewrite !lookup_insert_ne by discriminate; rewrite lookup_insert_eq.
  - now rewrite !lookup_insert_ne by discriminate; rewrite lookup_insert_eq.
  - now rewrite lookup_insert_eq.
Qed.


Lemma concat_numbers_Some (frames : list ShotFrame) (cols : list (list string)) :
  Forall2 (fun f col => shots_number f = Some col) frames cols ->
  concat_numbers frames = Some (concat cols).
Proof.
  intros Hall. induction Hall as [|f col frames cols Hf _ IH]; [reflexivity|].
  simpl. now rewrite Hf, IH.
Qed.

Lemma unique_from_NoDup (seen l : list string) :
  NoDup l -> (forall x, x ∈ l -> x ∉ seen) -> unique_from seen l = l.
Proof.
  intros Hnd. revert seen. induction Hnd as [|a l Ha Hnd IH]; intros seen Hdis;
    simpl; [reflexivity|].
  rewrite bool_decide_eq_false_2 by (apply Hdis; left).
  f_equal. apply IH. intros x Hx Hin.
  apply elem_of_cons in Hin as [->|Hin]; [contradiction|].
  now apply (Hdis x); [right|].
Qed.

Lemma unique_from_constant (seen l : list string) (shot : string) :
  l <> [] -> shot ∉ seen -> Forall (fun k => k = shot) l ->
  unique_from seen l = [shot].
Proof.
  intros Hne Hseen Hall. destruct l as [|a l]; [congruence|].
  apply Forall_cons in Hall as [-> Hall]. simpl.
  rewrite bool_decide_eq_false_2 by exact Hseen. f_equal.
  clear Hne. induction Hall as [|b l -> _ IH]; [reflexivity|]. simpl.
  rewrite bool_decide_eq_true_2 by left. exact IH.
Qed.

Lemma groups_distinct {A : Type} (keys : list string) (rows : list A) :
  NoDup keys -> length keys = length rows ->
  map (fun shot => select_rows (map (String.eqb shot) keys) rows) keys
  = map (fun r => [r]) rows.
Proof.
  intros Hnd. revert rows. induction Hnd as [|k keys Hk Hnd IH];
    intros [|r rows] Hlen; simpl in *; try reflexivity; try discriminate.
  rewrite String.eqb_refl. f_equal.
  - f_equal. apply select_rows_none. apply Forall_forall.
    intros b Hb. apply list_elem_of_fmap in Hb as (k' & -> & Hk').
    apply String.eqb_neq. intros ->. contradiction.
  - rewrite <- (IH rows) by lia. apply map_ext_in. intros shot Hin.
    apply list_elem_of_In in Hin.
    assert (Hne : shot <> k) by (intros ->; contradiction).
    now rewrite (proj2 (String.eqb_neq shot k) Hne).
Qed.

Section Groups.

Variables (crs_code : Z) (g : GeoDataFrame) (numbers keys : list string).
Variable coords : list (R * R).
Hypothesis Hcoords : centroid_coords (gdf_geometry g) = Some coords.

Local Abbreviation mask_of := (fun shot : string => map (String.eqb shot) keys).
Local Abbreviation grp := (fun shot : string => select_rows (mask_of shot) coords).

Lemma align_groups_run (ids : list string) :
  ids <> [] ->
  exists out : ShotFrame,
    match align_groups crs_code g numbers keys ids with
    | Ok frames => pd_concat frames
    | Raise e => Raise e
    end = Ok out
    /\ gdf_crs (shots_frame out) = Some crs_code
    /\ gdf_geometry (shots_frame out)
       = map (fun p => Point (fst p) (snd p))
             (concat (map (fun shot => aligned_coords (grp shot)) ids))
    /\ gdf_columns (shots_frame out) !! "orig_x"
       = Some (map (fun p => Fin (fst p)) (concat (map grp ids)))
    /\ gdf_columns (shots_frame out) !! "orig_y"
       = Some (map (fun p => Fin (snd p)) (concat (map grp ids)))
    /\ gdf_columns (shots_frame out) !! "coords_x"
       = Some (map (fun p => Fin (fst p))
                   (concat (map (fun shot => aligned_coords (grp shot)) ids)))
    /\ gdf_columns (shots_frame out) !! "coords_y"
       = Some (map (fun p => Fin (snd p))
                   (concat (map (fun shot => aligned_coords (grp shot)) ids)))
    /\ shots_number out
       = Some (concat (map (fun shot => select_rows (mask_of shot) numbers) ids)).
Proof.
  intros Hne.
  assert (Hrun : exists frames,
             align_groups crs_code g numbers keys ids = Ok frames
             /\ Forall2 (fun shot f =>
                  gdf_crs (shots_frame f) = Some crs_code
                  /\ gdf_geometry (shots_frame f)
                     = map (fun p => Point (fst p) (snd p)) (aligned_coords (grp shot))
                  /\ gdf_columns (shots_frame f) !! "orig_x"
                     = Some (map (fun p => Fin (fst p)) (grp shot))
                  /\ gdf_columns (shots_frame f) !! "orig_y"
                     = Some (map (fun p => Fin (snd p)) (grp shot))
                  /\ gdf_columns (shots_frame f) !! "coords_x"
                     = Some (map (fun p => Fin (fst p)) (aligned_coords (grp shot)))
                  /\ gdf_columns (shots_frame f) !! "coords_y"
                     = Some (map (fun p => Fin (snd p)) (aligned_coords (grp shot)))
                  /\ shots_number f = Some (select_rows (mask_of shot) numbers))
                ids frames).
  { clear Hne. induction ids as [|shot ids (frames & Hfr & Hall)].
    - exists []. split; [reflexivity | constructor].
    - destruct (align_group_run crs_code g numbers keys shot coords Hcoords)
        as (f & Hf & Hprops).
      exists (f :: frames). cbn [align_groups]. rewrite Hf, Hfr.
      split; [reflexivity|]. constructor; [exact Hprops | exact Hall]. }
  destruct Hrun as (frames & -> & Hall).
  destruct frames as [|f frames]; [inversion Hall; subst; congruence|].
  eexists. split; [reflexivity|].
  cbn [pd_concat mkFrame shots_frame shots_number gdf_crs gdf_geometry
       gdf_columns].
  split.
  { inversion Hall; subst. tauto. }
  split.
  { rewrite concat_map, map_map. f_equal.
    clear -Hall. induction Hall as [|shot f' ids' fr' Hp _ IH]; [reflexivity|].
    simpl. rewrite IH. f_equal. tauto. }
  assert (Hcol : forall (name : string) (col : string -> list f64),
             Forall2 (fun shot f0 => gdf_columns (shots_frame f0) !! name
                                     = Some (col shot)) ids (f :: frames) ->
             concat_columns (map shots_frame (f :: frames)) !! name
             = Some (concat (map col ids))).
  { intros name col Hc. apply concat_columns_lookup; [|discriminate].
    clear -Hc. induction Hc as [|shot f' ids' fr' Hp _ IH]; constructor;
      assumption. }
  split.
  { rewrite concat_map, map_map.
    apply (Hcol "orig_x" (fun shot => map (fun p => Fin (fst p)) (grp shot))).
    eapply Forall2_impl; [exact Hall|]. cbv beta. tauto. }
  split.
  { rewrite concat_map, map_map.
    apply (Hcol "orig_y" (fun shot => map (fun p => Fin (snd p)) (grp shot))).
    eapply Forall2_impl; [exact Hall|]. cbv beta. tauto. }
  split.
  { rewrite concat_map, map_map.
    apply (Hcol "coords_x"
             (fun shot => map (fun p => Fin (fst p)) (aligned_coords (grp shot)))).
    eapply Forall2_impl; [exact Hall|]. cbv beta. tauto. }
  split.
  { rewrite concat_map, map_map.
    apply (Hcol "coords_y"
             (fun shot => map (fun p => Fin (snd p)) (aligned_coords (grp shot)))).
    eapply Forall2_impl; [exact Hall|]. cbv beta. tauto. }
  apply concat_numbers_Some.
  clear -Hall. induction Hall as [|shot f' ids' fr' Hp _ IH]; constructor;
    [tauto | assumption].
Qed.

End Groups.


(** X23: what [linear_alignment] refuses, all with ValueError: a frame
    without the column 'shot_number' (checked first, whatever the CRS), a
    frame without CRS (by [to_crs]), and a frame without rows, for which
    [pd.concat] is handed an empty list. *)
Theorem linear_alignment_refuses (gdf : ShotFrame) (crs_code : Z) :
  (shots_number gdf = None ->
   linear_alignment gdf crs_code
   = Raise (ValueError "The GeoDataFrame does not contain a 'shot_number' column, which is required for the function to work correctly."))
  /\ (is_Some (shots_number gdf) -> gdf_crs (shots_frame gdf) = None ->
      linear_alignment gdf crs_code
      = Raise (ValueError "Cannot transform naive geometries"))
  /\ (shots_number gdf = Some [] -> is_Some (gdf_crs (shots_frame gdf)) ->
      linear_alignment gdf crs_code
      = Raise (ValueError "No objects to concatenate")).
Proof.
  unfold linear_alignment. repeat split.
  - now intros ->.
  - intros [numbers ->] ->. reflexivity.
  - intros -> [src ->]. reflexivity.
Qed.

(** X24: on a frame with rows, a CRS and the column 'shot_number',
    [linear_alignment] returns a frame in the CRS of the code with as many
    rows as the input.  The rows are those of the input, regrouped by shot:
    "orig_x" and "orig_y" hold the reprojected input coordinates, and
    'shot_number' the input shot numbers, each up to one and the same
    reordering of the rows within the column. *)
Theorem linear_alignment_regroups_rows (gdf : ShotFrame) (crs_code src : Z)
    (numbers : list string) (coords : list (R * R)) :
  shots_number gdf = Some numbers ->
  gdf_crs (shots_frame gdf) = Some src ->
  centroid_coords (map (reproject proj_transform src crs_code)
                       (gdf_geometry (shots_frame gdf))) = Some coords ->
  length numbers = length coords ->
  coords <> [] ->
  exists (out : ShotFrame) (grouped : list (R * R)) (numbers' : list string),
    linear_alignment gdf crs_code = Ok out
    /\ gdf_crs (shots_frame out) = Some crs_code
    /\ length (gdf_geometry (shots_frame out))
       = length (gdf_geometry (shots_frame gdf))
    /\ grouped ≡ₚ coords
    /\ gdf_columns (shots_frame out) !! "orig_x"
       = Some (map (fun p => Fin (fst p)) grouped)
    /\ gdf_columns (shots_frame out) !! "orig_y"
       = Some (map (fun p => Fin (snd p)) grouped)
    /\ shots_number out = Some numbers'
    /\ numbers' ≡ₚ numbers.
Proof.
  intros Hnum Hcrs Hcoords Hlen Hne. unfold linear_alignment.
  rewrite Hnum, Hcrs. cbv zeta.
  set (keys := map str_prefix numbers).
  assert (Hids : pd_unique keys <> []).
  { destruct numbers as [|n numbers]; [destruct coords; [congruence | discriminate]|].
    intros Hnil. pose proof (proj2 (pd_unique_elem keys (str_prefix n))
                               ltac:(subst keys; left)) as Hin.
    rewrite Hnil in Hin. inversion Hin. }
  destruct (align_groups_run crs_code
              (reprojected_frame proj_transform src crs_code (shots_frame gdf))
              numbers keys coords Hcoords (pd_unique keys) Hids)
    as (out & Hrun & Hc & Hgeom & Hox & Hoy & _ & _ & Hn).
  assert (Hklen : length keys = length coords)
    by (subst keys; now rewrite length_map).
  assert (Hperm : concat (map (fun shot => select_rows (map (String.eqb shot) keys) coords)
                              (pd_unique keys)) ≡ₚ coords).
  { apply groups_permutation; [exact Hklen | apply pd_unique_NoDup |].
    intros k. apply pd_unique_elem. }
  do 3 eexists. split; [exact Hrun|]. split; [exact Hc|].
  split.
  { rewrite Hgeom, length_map.
    rewrite <- (length_map (reproject proj_transform src crs_code)
                  (gdf_geometry (shots_frame gdf))).
    rewrite <- (centroid_coords_length _ _ Hcoords).
    rewrite <- (Permutation_length Hperm).
    rewrite !length_concat, !map_map. f_equal. apply map_ext.
    intros shot. apply aligned_coords_length. }
  split; [exact Hperm|]. split; [exact Hox|]. split; [exact Hoy|].
  split; [exact Hn|].
  apply groups_permutation; [|apply pd_unique_NoDup | intros k; apply pd_unique_elem].
  subst keys. now rewrite length_map.
Qed.

(** X25: when all shot numbers share their first 12 characters, the rows
    keep their order: "orig_x"/"orig_y" are the reprojected input
    coordinates, the geometry and "coords_x"/"coords_y" the projected ones,
    and the projection keeps the centroid of the points, whatever
    direction [eigh] returns. *)
Theorem linear_alignment_single_shot (gdf : ShotFrame) (crs_code src : Z)
    (numbers : list string) (coords : list (R * R)) (shot : string) :
  shots_number gdf = Some numbers ->
  gdf_crs (shots_frame gdf) = Some src ->
  centroid_coords (map (reproject proj_transform src crs_code)
                       (gdf_geometry (shots_frame gdf))) = Some coords ->
  length numbers = length coords ->
  coords <> [] ->
  Forall (fun n => str_prefix n = shot) numbers ->
  exists (out : ShotFrame) (projected : list (R * R)),
    linear_alignment gdf crs_code = Ok out
    /\ gdf_geometry (shots_frame out)
       = map (fun p => Point (fst p) (snd p)) projected
    /\ gdf_columns (shots_frame out) !! "orig_x"
       = Some (map (fun p => Fin (fst p)) coords)
    /\ gdf_columns (shots_frame out) !! "orig_y"
       = Some (map (fun p => Fin (snd p)) coords)
    /\ gdf_columns (shots_frame out) !! "coords_x"
       = Some (map (fun p => Fin (fst p)) projected)
    /\ gdf_columns (shots_frame out) !! "coords_y"
       = Some (map (fun p => Fin (snd p)) projected)
    /\ shots_number out = Some numbers
    /\ length projected = length coords
    /\ np_mean2 projected = np_mean2 coords.
Proof.
  intros Hnum Hcrs Hcoords Hlen Hne Hall. unfold linear_alignment.
  rewrite Hnum, Hcrs. cbv zeta.
  set (keys := map str_prefix numbers).
  assert (Hkeys : Forall (fun k => k = shot) keys).
  { subst keys. apply Forall_fmap. exact Hall. }
  assert (Hids : pd_unique keys = [shot]).
  { apply unique_from_constant; [|inversion 1 | exact Hkeys].
    subst keys. destruct numbers; [destruct coords; [congruence | discriminate]|].
    discriminate. }
  assert (Hmask : Forall (fun b => b = true) (map (String.eqb shot) keys)).
  { apply Forall_fmap. eapply Forall_impl; [exact Hkeys|].
    intros k ->. apply String.eqb_refl. }
  destruct (align_groups_run crs_code
              (reprojected_frame proj_transform src crs_code (shots_frame gdf))
              numbers keys coords Hcoords (pd_unique keys))
    as (out & Hrun & _ & Hgeom & Hox & Hoy & Hcx & Hcy & Hn).
  { rewrite Hids. discriminate. }
  rewrite Hids in *. cbn [map concat] in *. rewrite !app_nil_r in *.
  rewrite (select_rows_all coords) in *
    by (subst keys; rewrite ?length_map; congruence || exact Hmask).
  rewrite (select_rows_all numbers) in Hn
    by (subst keys; rewrite ?length_map; congruence || exact Hmask).
  exists out, (aligned_coords coords).
  repeat (split; [assumption|]).
  split; [apply aligned_coords_length | now apply aligned_coords_centroid].
Qed.

(** X26: when no two shot numbers share their first 12 characters, every
    row is a group of one point and nothing moves: the geometry,
    "coords_x"/"coords_y" and "orig_x"/"orig_y" are the reprojected input
    coordinates, in the order of the input. *)
Theorem linear_alignment_distinct_shots (gdf : ShotFrame) (crs_code src : Z)
    (numbers : list string) (coords : list (R * R)) :
  shots_number gdf = Some numbers ->
  gdf_crs (shots_frame gdf) = Some src ->
  centroid_coords (map (reproject proj_transform src crs_code)
                       (gdf_geometry (shots_frame gdf))) = Some coords ->
  length numbers = length coords ->
  coords <> [] ->
  NoDup (map str_prefix numbers) ->
  exists out : ShotFrame,
    linear_alignment gdf crs_code = Ok out
    /\ gdf_geometry (shots_frame out)
       = map (fun p => Point (fst p) (snd p)) coords
    /\ gdf_columns (shots_frame out) !! "orig_x"
       = Some (map (fun p => Fin (fst p)) coords)
    /\ gdf_columns (shots_frame out) !! "orig_y"
       = Some (map (fun p => Fin (snd p)) coords)
    /\ gdf_columns (shots_frame out) !! "coords_x"
       = Some (map (fun p => Fin (fst p)) coords)
    /\ gdf_columns (shots_frame out) !! "coords_y"
       = Some (map (fun p => Fin (snd p)) coords)
    /\ shots_number out = Some numbers.
Proof.
  intros Hnum Hcrs Hcoords Hlen Hne Hnd. unfold linear_alignment.
  rewrite Hnum, Hcrs. cbv zeta.
  set (keys := map str_prefix numbers) in *.
  assert (Hids : pd_unique keys = keys).
  { apply unique_from_NoDup; [exact Hnd | intros x _; inversion 1]. }
  assert (Hklen : length keys = length coords)
    by (subst keys; now rewrite length_map).
  destruct (align_groups_run crs_code
              (reprojected_frame proj_transform src crs_code (shots_frame gdf))
              numbers keys coords Hcoords (pd_unique keys))
    as (out & Hrun & _ & Hgeom & Hox & Hoy & Hcx & Hcy & Hn).
  { rewrite Hids. destruct keys; [|discriminate].
    destruct coords; [congruence | discriminate]. }
  rewrite Hids in *.
  assert (Hgroups : concat (map (fun shot => select_rows (map (String.eqb shot) keys)
                                              coords) keys) = coords).
  { rewrite (groups_distinct keys coords Hnd Hklen).
    clear. induction coords as [|c cs IH]; [reflexivity|]. simpl. now rewrite IH. }
  assert (Haligned : concat (map (fun shot => aligned_coords
                       (select_rows (map (String.eqb shot) keys) coords)) keys)
                     = coords).
  { rewrite <- (map_map (fun shot => select_rows (map (String.eqb shot) keys) coords)
                        aligned_coords).
    rewrite (groups_distinct keys coords Hnd Hklen), map_map.
    clear. induction coords as [|c cs IH]; [reflexivity|].
    cbn [map concat]. rewrite IH. reflexivity. }
  assert (Hnumbers : concat (map (fun shot => select_rows (map (String.eqb shot) keys)
                                               numbers) keys) = numbers).
  { rewrite (groups_distinct keys numbers Hnd)
      by (subst keys; now rewrite length_map).
    clear. induction numbers as [|c cs IH]; [reflexivity|]. simpl. now rewrite IH. }
  rewrite Hgroups in *. rewrite Haligned in *. rewrite Hnumbers in *.
  exists out. repeat (split; [assumption|]). assumption.
Qed.

End AlignmentFacts.

(** ** Worked runs of the properties above *)

Lemma counter_gen_laws : RandomGenLaws nat.
Proof.
  split.
  - intros [|n]; simpl; lra.
  - intros n g Hn. simpl. exact Hn.
Qed.

(** A frame made without an index has a label of its own for each row. *)
Lemma mkFrame_distinct_labels (crs : option Z) (geometry : list Geometry)
    (columns : gmap string (list f64)) :
  distinct_labels (mkFrame crs geometry columns).
Proof.
  split; [apply range_index_length | apply range_index_NoDup].
Qed.

Lemma moderate_small (x : R) : Rabs x <= 1000000 -> moderate (Fin x).
Proof.
  intros Hx. simpl. pose proof moderate_bound_large. lra.
Qed.

Lemma flat_mask_moderate (buf : R) (stat : string) (geom : Geometry) :
  moderate (row_value unit unit flat_mask tt tt buf stat geom).
Proof.
  unfold row_value, flat_mask. cbn [length Nat.ltb Nat.leb].
  destruct (supported_statistic stat) eqn:Hs.
  - rewrite statistic_single by exact Hs. apply moderate_small.
    rewrite Rabs_pos_eq; lra.
  - pose proof (row_value_unsupported unit unit flat_mask tt tt buf stat geom
                  Hs) as Hnan.
    unfold row_value, flat_mask in Hnan. cbn [length Nat.ltb Nat.leb] in Hnan.
    now rewrite Hnan.
Qed.

Lemma extract_values_fills_each_row_witness :
  exists (out : ref) (g' : GeoDataFrame) (cells : list f64) (w' : @world nat),
    extract_values unit unit flat_mask no_transform 0%nat tt tt 0 "mean" None
                   (world_of two_points 0)
    = (Ok out, w')
    /\ heap w' !! out = Some g'
    /\ gdf_columns g' !! "extracted_value" = Some cells
    /\ length cells = 2%nat.
Proof.
  destruct (extract_values_fills_each_row unit unit flat_mask no_transform
              0%nat tt tt 0 "mean" two_points 3857%Z (world_of two_points 0)
              eq_refl eq_refl (mkFrame_distinct_labels _ _ _))
    as (out & g' & cells & w' & Hrun & _ & Hout & _ & _ & _ & _ & Hc & Hlen
        & _).
  exists out, g', cells, w'. repeat split; assumption.
Defined.

Lemma single_cell_is_its_own_statistic_witness :
  exists (out : ref) (g' : GeoDataFrame) (cells : list f64) (w' : @world nat),
    extract_values unit unit flat_mask no_transform 0%nat tt tt 0 "median" None
                   (world_of two_points 0)
    = (Ok out, w')
    /\ heap w' !! out = Some g'
    /\ gdf_columns g' !! "extracted_value" = Some cells
    /\ cells !! 1%nat = Some (Fin 5).
Proof.
  apply (single_cell_is_its_own_statistic unit unit flat_mask no_transform
           0%nat tt tt 0 "median" two_points 3857%Z (world_of two_points 0)
           1%nat (Point 1 1) 5);
    first [reflexivity | apply mkFrame_distinct_labels].
Defined.

Lemma extract_values_reprojects_first_witness :
  exists (out : ref) (g' : GeoDataFrame) (w' : @world nat),
    extract_values unit unit flat_mask no_transform 0%nat tt tt 0 "mean"
                   (Some 4326%Z) (world_of two_points 0)
    = (Ok out, w')
    /\ heap w' !! out = Some g'
    /\ gdf_crs g' = Some 4326%Z.
Proof.
  destruct (extract_values_reprojects_first unit unit flat_mask no_transform
              0%nat tt tt 0 "mean" two_points 3857%Z 4326%Z
              (world_of two_points 0) eq_refl eq_refl
              (mkFrame_distinct_labels _ _ _))
    as (out & g' & w' & Hrun & Hout & Hcrs & _).
  exists out, g', w'. repeat split; assumption.
Defined.

Lemma extract_values_needs_crs_witness :
  fst (extract_values unit unit flat_mask no_transform 0%nat tt tt 0 "mean"
                      (Some 4326%Z) (world_of (mkFrame None [Point 0 0] ∅) 0))
  = Raise (ValueError "Cannot transform naive geometries")
  /\ fst (extract_values unit unit flat_mask no_transform 0%nat tt tt 0 "mean"
                         None (world_of (mkFrame None [Point 0 0] ∅) 0))
     = Raise (AttributeError "NoneType has no attribute to_epsg").
Proof.
  apply (extract_values_needs_crs unit unit flat_mask no_transform 0%nat tt tt
           0 "mean" (mkFrame None [Point 0 0] ∅) 4326%Z); reflexivity.
Defined.

Lemma position_adjustment_twice_witness :
  exists (first second : ref) (g2 : GeoDataFrame) (w1 w2 : @world nat),
    position_adjustment no_transform 0%nat 2 3 3857%Z (world_of two_points 0)
    = (Ok first, w1)
    /\ position_adjustment no_transform first 10 20 3857%Z w1 = (Ok second, w2)
    /\ heap w2 !! second = Some g2
    /\ gdf_geometry g2 = [Point (0 + 2 + 10) (0 + 3 + 20);
                          Point (1 + 2 + 10) (1 + 3 + 20)].
Proof.
  destruct (position_adjustment_twice no_transform 0%nat 2 3 10 20 3857%Z
              two_points [(0, 0); (1, 1)] (world_of two_points 0))
    as (first & second & g2 & w1 & w2 & H1 & H2 & Hout & Hgeom & _);
    [reflexivity | reflexivity | reflexivity | discriminate |].
  exists first, second, g2, w1, w2. repeat split; assumption.
Defined.

Lemma position_adjustment_refuses_witness :
  position_adjustment no_transform 0%nat 2 3 3857%Z
    (world_of (mkFrame (Some 3857%Z) [Point 0 0; EmptyGeom] ∅) 0)
  = (Raise (ValueError "Input gdf contains empty geometries"),
     world_of (mkFrame (Some 3857%Z) [Point 0 0; EmptyGeom] ∅) 0).
Proof.
  now apply (proj1 (position_adjustment_refuses no_transform 0%nat 2 3 3857%Z
                      (mkFrame (Some 3857%Z) [Point 0 0; EmptyGeom] ∅)
                      (world_of (mkFrame (Some 3857%Z) [Point 0 0; EmptyGeom] ∅) 0)
                      eq_refl)).
Defined.

Lemma get_loss_scores_shifted_footprints_witness :
  exists (out : ref) (g' : GeoDataFrame) (sampled : list f64) (w' : @world nat),
    get_loss unit unit flat_mask no_transform no_dtw 0%nat 2 3 0 tt tt
             "euclidean" "mean" None (Some "h") (world_of two_points 0)
    = (match get_loss_value no_dtw "euclidean" [Fin 1; NaN] sampled with
       | Ok v => Ok (mkLoss v out)
       | Raise e => Raise e
       end, w')
    /\ heap w' !! out = Some g'
    /\ gdf_geometry g' = [Point (0 + 2) (0 + 3); Point (1 + 2) (1 + 3)]
    /\ gdf_columns g' !! "extracted_value" = Some sampled.
Proof.
  destruct (get_loss_scores_shifted_footprints unit unit flat_mask no_transform
              no_dtw 0%nat 2 3 0 tt tt "euclidean" "mean" "h" two_points
              3857%Z [(0, 0); (1, 1)] [Fin 1; NaN] (world_of two_points 0))
    as (out & g' & sampled & w' & Hrun & _ & Hout & Hgeom & _ & Hcells & _);
    [reflexivity | reflexivity | apply mkFrame_distinct_labels | reflexivity
    | discriminate | reflexivity | discriminate | discriminate | discriminate
    |].
  exists out, g', sampled, w'. repeat split; assumption.
Defined.

Lemma perform_distance_is_get_loss_without_shift_witness :
  fst (perform_distance unit unit flat_mask no_transform no_dtw no_dtw
                        0%nat tt tt "euclidean" 0 "mean" None (Some "h")
                        (world_of two_points 0))
  = match fst (get_loss unit unit flat_mask no_transform no_dtw 0%nat 0 0 0
                        tt tt "euclidean" "mean" None (Some "h")
                        (world_of two_points 0))
    with
    | Ok result => Ok (loss_value result)
    | Raise e => Raise e
    end.
Proof.
  apply (perform_distance_is_get_loss_without_shift unit unit flat_mask
           no_transform no_dtw no_dtw 0%nat 0 tt tt "euclidean" "mean" "h"
           two_points 3857%Z [Fin 1; NaN] (world_of two_points 0));
    first [reflexivity | discriminate].
Defined.

Lemma empty_frame_loss_witness :
  fst (get_loss unit unit flat_mask no_transform no_dtw 0%nat 2 3 0 tt tt
                "euclidean" "mean" None (Some "h")
                (world_of (mkFrame (Some 3857%Z) [] {[ "h" := [] ]}) 0))
  = Raise (IndexError "too many indices for array")
  /\ fst (perform_distance unit unit flat_mask no_transform no_dtw no_dtw
                           0%nat tt tt "euclidean" 0 "mean" None (Some "h")
                           (world_of (mkFrame (Some 3857%Z) [] {[ "h" := [] ]}) 0))
     = Ok (Fin 1000).
Proof.
  apply (empty_frame_loss unit unit flat_mask no_transform no_dtw no_dtw 0%nat
           2 3 0 tt tt "euclidean" "mean" "h"
           (mkFrame (Some 3857%Z) [] {[ "h" := [] ]}) 3857%Z []);
    first [reflexivity | discriminate].
Defined.

Lemma distance_losses_are_nonnegative_witness :
  exists d : R,
    get_loss_value no_dtw "euclidean" [Fin 1; NaN; Fin 2] [Fin 4; Fin 2; NaN]
    = Ok (Fin d) /\ 0 <= d.
Proof.
  apply (distance_losses_are_nonnegative no_dtw "euclidean");
    [reflexivity | |];
    repeat (apply List.Forall_cons;
            [first [exact I | apply moderate_small; rewrite Rabs_pos_eq; lra]|]);
    apply List.Forall_nil.
Defined.

Lemma distance_losses_are_symmetric_witness :
  get_loss_value no_dtw "hausdorff" [Fin 1; NaN; Fin 2] [Fin 4; Fin 2; Fin 7]
  = get_loss_value no_dtw "hausdorff" [Fin 4; Fin 2; Fin 7] [Fin 1; NaN; Fin 2].
Proof. now apply (distance_losses_are_symmetric no_dtw "hausdorff"). Defined.

Lemma identical_columns_have_zero_loss_witness :
  get_loss_value no_dtw "manhattan" [Fin 1; NaN; Fin 2] [Fin 1; NaN; Fin 2]
  = Ok (Fin 0).
Proof.
  now apply (identical_columns_have_zero_loss no_dtw "manhattan"
               [Fin 1; NaN; Fin 2]).
Defined.

Lemma initial_population_in_box_witness :
  exists (population : list Individual) (w' : @world nat),
    new_population (-30, -30) (30, 30) 3 (world_of two_points 0)
    = (Ok population, w')
    /\ length population = 3%nat
    /\ heap w' = [two_points]
    /\ Forall (in_box (-30, -30) (30, 30)) population.
Proof.
  apply (initial_population_in_box (RandomGenLaws0 := counter_gen_laws)
           (-30, -30) (30, 30) 3 (world_of two_points 0)); simpl; lra.
Defined.

Lemma minimize_loss_without_generations_witness :
  exists (r : OptimResult) (w2 : @world nat),
    minimize_loss unit unit flat_mask no_transform no_dtw 0%nat tt tt
      "euclidean" "mean" 0 None (Some "h") None None 3 0
      (world_of two_points 0)
    = (Ok (Some r), w2)
    /\ objective_value unit unit flat_mask no_dtw tt tt 0 "mean" "euclidean"
         [Fin 1; NaN] [0%Z; 1%Z] [(0, 0); (1, 1)] (best_x r) (best_y r)
       = Ok (best_value r).
Proof.
  destruct (minimize_loss_without_generations unit unit flat_mask no_transform
              no_dtw 0%nat tt tt "euclidean" "mean" "h" 0 None None 3
              two_points 3857%Z [(0, 0); (1, 1)] [Fin 1; NaN]
              (world_of two_points 0))
    as (population & r & w1 & w2 & _ & Hrun & _ & Hval & _);
    [reflexivity | reflexivity | reflexivity | discriminate | reflexivity
    | discriminate | discriminate | discriminate | reflexivity
    | repeat (apply List.Forall_cons;
              [first [exact I
                     | apply moderate_small; rewrite Rabs_pos_eq; lra]|]);
      apply List.Forall_nil
    | apply flat_mask_moderate | lia |].
  exists r, w2. split; [exact Hrun | exact Hval].
Defined.

Lemma minimize_loss_empty_population_witness :
  minimize_loss unit unit flat_mask no_transform no_dtw 0%nat tt tt
    "euclidean" "mean" 0 None (Some "h") None None 0 100
    (world_of two_points 0)
  = (Raise (IndexError "list index out of range"), mkWorld [two_points] 1118%nat).
Proof.
  destruct (minimize_loss_empty_population unit unit flat_mask no_transform
              no_dtw 0%nat tt tt "euclidean" "mean" 0 None (Some "h") None
              None 100 two_points (world_of two_points 0))
    as [Hrun _]; [reflexivity | discriminate | exact Hrun].
Defined.

Lemma optimizer_gives_up_without_crs_witness :
  exists w' : @world nat,
    minimize_loss unit unit flat_mask no_transform no_dtw 0%nat tt tt
      "euclidean" "mean" 0 None None None None 50 100
      (world_of (mkFrame None [Point 0 0] ∅) 0)
    = (Ok None, w')
    /\ positional_correction unit unit flat_mask no_transform no_dtw 0%nat tt
         tt "euclidean" "mean" 0 None None None None 50 100
         (world_of (mkFrame None [Point 0 0] ∅) 0)
       = (Ok 0%nat, w').
Proof.
  apply (optimizer_gives_up_without_crs unit unit flat_mask no_transform
           no_dtw 0%nat tt tt "euclidean" "mean" 0 None None None 50 100
           (mkFrame None [Point 0 0] ∅));
    first [reflexivity | discriminate | lia].
Defined.

Lemma optimizer_gives_up_on_unsupported_method_witness :
  exists w' : @world nat,
    minimize_loss unit unit flat_mask no_transform no_dtw 0%nat tt tt
      "bogus" "mean" 0 None (Some "h") None None 50 100
      (world_of two_points 0)
    = (Ok None, w')
    /\ positional_correction unit unit flat_mask no_transform no_dtw 0%nat tt
         tt "bogus" "mean" 0 None (Some "h") None None 50 100
         (world_of two_points 0)
       = (Ok 0%nat, w').
Proof.
  apply (optimizer_gives_up_on_unsupported_method unit unit flat_mask
           no_transform no_dtw 0%nat tt tt "bogus" "mean" "h" 0 None None 50
           100 two_points 3857%Z [(0, 0); (1, 1)] [Fin 1; NaN]);
    first [reflexivity | discriminate | lia].
Defined.

Lemma positional_correction_applies_best_offset_witness :
  exists (out : ref) (g' : GeoDataFrame) (r : OptimResult) (w2 : @world nat),
    positional_correction unit unit flat_mask no_transform no_dtw 0%nat tt tt
      "euclidean" "mean" 0 None None None None 1 0 (world_of one_point 0)
    = (Ok out, w2)
    /\ heap w2 !! out = Some g'
    /\ gdf_geometry g' = [Point (0 + best_x r) (0 + best_y r)]
    /\ heap w2 !! 0%nat = Some one_point.
Proof.
  assert (Hne : [(0, 0)] <> @nil (R * R)) by discriminate.
  pose proof (minimize_loss_initial_individual unit unit flat_mask no_transform
                no_dtw 0%nat tt tt "euclidean" "mean" 0 None None one_point
                3857%Z [(0, 0)] (world_of one_point 0) eq_refl eq_refl eq_refl
                Hne) as Hmin.
  cbv zeta in Hmin.
  destruct (minimize_loss unit unit flat_mask no_transform no_dtw 0%nat tt tt
              "euclidean" "mean" 0 None None None None 1 0
              (world_of one_point 0)) as [res w1] eqn:Hrun.
  cbn [fst] in Hmin. subst res.
  destruct (positional_correction_applies_best_offset unit unit flat_mask
              no_transform no_dtw 0%nat tt tt "euclidean" "mean" 0 None None
              None 1 0 one_point 3857%Z [(0, 0)] _ (world_of one_point 0) w1
              eq_refl eq_refl eq_refl Hne eq_refl Hrun)
    as (out & g' & w2 & Hpc & _ & Hout & _ & Hgeom & _ & _ & _ & Hin).
  match type of Hrun with
  | _ = (Ok (Some ?r), _) => exists out, g', r, w2
  end.
  split; [exact Hpc|]. split; [exact Hout|]. split; [exact Hgeom | exact Hin].
Defined.

Lemma minimize_loss_returns_the_loss_at_its_offset_witness :
  exists (r : OptimResult) (w' : @world nat),
    minimize_loss unit unit flat_mask no_transform no_dtw 0%nat tt tt
      "euclidean" "mean" 0 None (Some "h") None None 3 2
      (world_of two_points 0)
    = (Ok (Some r), w')
    /\ objective_value unit unit flat_mask no_dtw tt tt 0 "mean" "euclidean"
         [Fin 1; NaN] [0%Z; 1%Z] [(0, 0); (1, 1)] (best_x r) (best_y r)
       = Ok (best_value r).
Proof.
  destruct (minimize_loss_returns_the_loss_at_its_offset
              (RandomGenLaws0 := counter_gen_laws) unit unit flat_mask
              no_transform no_dtw 0%nat tt tt "euclidean" "mean" "h" 0 None
              None 3 2 two_points 3857%Z [(0, 0); (1, 1)] [Fin 1; NaN]
              (world_of two_points 0))
    as (r & w' & _ & _ & _ & Hrun & Hval & _);
    [reflexivity | reflexivity | reflexivity | discriminate | reflexivity
    | discriminate | discriminate | discriminate | reflexivity
    | repeat (apply List.Forall_cons;
              [first [exact I
                     | apply moderate_small; rewrite Rabs_pos_eq; lra]|]);
      apply List.Forall_nil
    | apply flat_mask_moderate | lia |].
  exists r, w'. split; [exact Hrun | exact Hval].
Defined.

Lemma linear_alignment_regroups_rows_witness :
  exists (out : ShotFrame) (grouped : list (R * R)),
    linear_alignment no_transform (fun _ => (1, 0))
      (mkShots two_points (Some ["SHOT1_0"; "SHOT000000002_0"]))
      3857%Z
    = Ok out
    /\ length (gdf_geometry (shots_frame out)) = 2%nat
    /\ grouped ≡ₚ [(0, 0); (1, 1)]
    /\ gdf_columns (shots_frame out) !! "orig_x"
       = Some (map (fun p => Fin (fst p)) grouped).
Proof.
  destruct (linear_alignment_regroups_rows no_transform (fun _ => (1, 0))
              (mkShots two_points (Some ["SHOT1_0"; "SHOT000000002_0"]))
              3857%Z 3857%Z ["SHOT1_0"; "SHOT000000002_0"]
              [(0, 0); (1, 1)])
    as (out & grouped & numbers' & Hrun & _ & Hlen & Hperm & Hox & _);
    [reflexivity | reflexivity | reflexivity | reflexivity | discriminate |].
  exists out, grouped. repeat split; assumption.
Defined.

Lemma linear_alignment_single_shot_witness :
  exists (out : ShotFrame) (projected : list (R * R)),
    linear_alignment no_transform (fun _ => (1, 0))
      (mkShots two_points (Some ["SHOT000000001_0"; "SHOT000000001_1"]))
      3857%Z
    = Ok out
    /\ gdf_columns (shots_frame out) !! "orig_x" = Some [Fin 0; Fin 1]
    /\ gdf_columns (shots_frame out) !! "coords_x"
       = Some (map (fun p => Fin (fst p)) projected)
    /\ np_mean2 projected = np_mean2 [(0, 0); (1, 1)].
Proof.
  destruct (linear_alignment_single_shot no_transform (fun _ => (1, 0))
              (mkShots two_points (Some ["SHOT000000001_0"; "SHOT000000001_1"]))
              3857%Z 3857%Z ["SHOT000000001_0"; "SHOT000000001_1"]
              [(0, 0); (1, 1)] "SHOT00000000")
    as (out & projected & Hrun & _ & Hox & _ & Hcx & _ & _ & _ & Hmean);
    [reflexivity | reflexivity | reflexivity | reflexivity | discriminate
    | repeat constructor |].
  exists out, projected. repeat split; assumption.
Defined.

Lemma linear_alignment_distinct_shots_witness :
  exists out : ShotFrame,
    linear_alignment no_transform (fun _ => (1, 0))
      (mkShots two_points (Some ["SHOT1_0"; "SHOT2_0"]))
      3857%Z
    = Ok out
    /\ gdf_geometry (shots_frame out) = [Point 0 0; Point 1 1]
    /\ gdf_columns (shots_frame out) !! "coords_x" = Some [Fin 0; Fin 1].
Proof.
  destruct (linear_alignment_distinct_shots no_transform (fun _ => (1, 0))
              (mkShots two_points (Some ["SHOT1_0"; "SHOT2_0"]))
              3857%Z 3857%Z ["SHOT1_0"; "SHOT2_0"]
              [(0, 0); (1, 1)])
    as (out & Hrun & Hgeom & _ & _ & Hcx & _);
    [reflexivity | reflexivity | reflexivity | reflexivity | discriminate | |].
  { apply NoDup_cons. split; [|apply NoDup_singleton].
    intros Hin. apply list_elem_of_singleton in Hin. vm_compute in Hin.
    discriminate. }
  exists out. repeat split; assumption.
Defined.
